(** * grudge: the elementwise operator layer and the symbolic mappers

    A shallow embedding of [grudge/op.py] and of the tree-rewriting mappers
    of [grudge/symbolic/mappers/__init__.py], followed by the properties
    established for them.

    Conventions of the embedding:
    - floating-point numbers are exact rationals ([Qc]); rounding is not
      represented, and [1./x] is [/ x];
    - numpy arrays are nested lists in C order; an index that is out of
      range reads [0] (numpy would refuse non-conformable operands before
      any entry is read);
    - Python exceptions are values of [Py.exn]; a computation that can raise
      returns a [Py.result];
    - code that mutates the array context (the memoization dictionary kept
      on it, the allocation of array objects) is written in a state and
      exception monad over [ArrayContext]; message passing is written in the
      same monad over [Communicator]. *)

From Stdlib Require Import ZArith QArith Qcanon List String Bool Lia.
From stdpp Require Import gmap strings list numbers.
Import ListNotations.

Set Warnings "-register-all".

Local Open Scope Qc_scope.

(** ** Python values that can fail, and stateful computations *)

Module Py.

Inductive exn :=
| TypeError (msg : string)
| ValueError (msg : string)
| AttributeError (attr : string)
| IndexError
| KeyError
| ZeroDivisionError
| AssertionError.

Inductive result (A : Type) :=
| Ok (a : A)
| Raise (e : exn).
Arguments Ok {A} a.
Arguments Raise {A} e.

Definition result_bind {A B} (m : result A) (k : A → result B) : result B :=
  match m with
  | Ok a => k a
  | Raise e => Raise e
  end.

(** [M S A]: a computation over a mutable object of type [S] that returns
    an [A] or raises; changes made before the exception stay. *)
Definition M (S A : Type) : Type := S → result A * S.

Definition ret {S A} (a : A) : M S A := λ s, (Ok a, s).
Definition raise {S A} (e : exn) : M S A := λ s, (Raise e, s).
Definition lift {S A} (r : result A) : M S A := λ s, (r, s).
Definition bind {S A B} (m : M S A) (k : A → M S B) : M S B :=
  λ s, match m s with
       | (Ok a, s') => k a s'
       | (Raise e, s') => (Raise e, s')
       end.

(** [[f(x) for x in l]], evaluated left to right. *)
Definition mapM {S A B} (f : A → M S B) : list A → M S (list B) :=
  fix go (l : list A) : M S (list B) :=
    match l with
    | [] => ret []
    | x :: xs => bind (f x) (λ y, bind (go xs) (λ ys, ret (y :: ys)))
    end.

Definition map_result {A B} (f : A → result B) : list A → result (list B) :=
  fix go (l : list A) : result (list B) :=
    match l with
    | [] => Ok []
    | x :: xs => result_bind (f x) (λ y, result_bind (go xs) (λ ys, Ok (y :: ys)))
    end.

(** A Python integer read as a number. *)
Definition int (z : Z) : Qc := Q2Qc (inject_Z z).

End Py.

Import Py.

Notation "'let*' x ':=' m 'in' k" := (Py.bind m (λ x, k))
  (at level 10, x name, m at level 100, k at level 200,
   format "'[v' 'let*'  x  :=  m  'in' '/' k ']'").
Notation "'let?' x ':=' m 'in' k" := (Py.result_bind m (λ x, k))
  (at level 10, x name, m at level 100, k at level 200,
   format "'[v' 'let?'  x  :=  m  'in' '/' k ']'").

(** ** numpy arrays and the contractions the operator layer requests *)

Module Numpy.

Abbreviation vector := (list Qc).
Abbreviation matrix := (list (list Qc)).
Abbreviation tensor3 := (list (list (list Qc))).

Inductive ndarray :=
| Array1 (v : vector)
| Array2 (m : matrix)
| Array3 (t : tensor3).

Inductive dtype := float64 | float32 | complex128.

Definition at1 (v : vector) (i : nat) : Qc := default 0 (v !! i).
Definition at2 (m : matrix) (i j : nat) : Qc := at1 (default [] (m !! i)) j.
Definition at3 (t : tensor3) (a i j : nat) : Qc := at2 (default [] (t !! a)) i j.

Definition nrows (m : matrix) : nat := length m.
Definition ncols (m : matrix) : nat := length (default [] (m !! 0%nat)).

(** [((0 + f 0) + f 1) + ... + f (n-1)] *)
Fixpoint sum_over (n : nat) (f : nat → Qc) : Qc :=
  match n with
  | O => 0
  | S n' => sum_over n' f + f n'
  end.

Definition tabulate {A} (n : nat) (f : nat → A) : list A := f <$> seq 0 n.
Definition tabulate2 (r c : nat) (f : nat → nat → Qc) : matrix :=
  tabulate r (λ i, tabulate c (f i)).
Definition tabulate3 (a r c : nat) (f : nat → nat → nat → Qc) : tensor3 :=
  tabulate a (λ x, tabulate2 r c (f x)).

Definition transpose (m : matrix) : matrix :=
  tabulate2 (ncols m) (nrows m) (λ i j, at2 m j i).

(** [A.dot(B)] for two-dimensional operands *)
Definition dot (A B : matrix) : matrix :=
  tabulate2 (nrows A) (ncols B)
    (λ i j, sum_over (nrows B) (λ k, at2 A i k * at2 B k j)).

(** [np.einsum("j,ik,jk->ij", w, A, B)] *)
Definition einsum_j_ik_jk__ij (w : vector) (A B : matrix) : matrix :=
  tabulate2 (nrows A) (length w)
    (λ i j, sum_over (ncols A) (λ k, at1 w j * at2 A i k * at2 B j k)).

(** [np.einsum("c,bz,acz->abc", w, A, G)] *)
Definition einsum_c_bz_acz__abc (w : vector) (A : matrix) (G : tensor3) : tensor3 :=
  tabulate3 (length G) (nrows A) (length w)
    (λ a b c, sum_over (ncols A) (λ z, at1 w c * at2 A b z * at3 G a c z)).

Definition row (m : matrix) (e : nat) : vector := default [] (m !! e).
Definition plane (t : tensor3) (d : nat) : matrix := default [] (t !! d).

(** The contractions over per-element data [(e, j)] are written row by
    row: the extent of axis [j] is the length of the row. *)

(** [einsum("ij,ej,ej->ei", A, u, v)] *)
Definition einsum_ij_ej_ej__ei (A u v : matrix) : matrix :=
  imap (λ e v_e, tabulate (nrows A) (λ i,
          sum_over (length v_e) (λ j, at2 A i j * at2 u e j * at1 v_e j))) v.

(** [einsum("ik,km,em,mj,ej->ei", A, B, c, D, x)] *)
Definition einsum_ik_km_em_mj_ej__ei (A B c D x : matrix) : matrix :=
  imap (λ e x_e, tabulate (nrows A) (λ i,
          sum_over (nrows B) (λ k, sum_over (nrows D) (λ m, sum_over (length x_e) (λ j,
            at2 A i k * at2 B k m * at2 c e m * at2 D m j * at1 x_e j))))) x.

(** [einsum("dij,ej,dej->ei", D, v, J)] *)
Definition einsum_dij_ej_dej__ei (D : tensor3) (v : matrix) (J : tensor3) : matrix :=
  imap (λ e v_e, tabulate (nrows (plane D 0)) (λ i,
          sum_over (length D) (λ d, sum_over (length v_e) (λ j,
            at3 D d i j * at1 v_e j * at3 J d e j)))) v.

(** [einsum("dej,dij,ej,ej->ei", J, S, v, a)] *)
Definition einsum_dej_dij_ej_ej__ei (J S : tensor3) (v a : matrix) : matrix :=
  imap (λ e v_e, tabulate (nrows (plane S 0)) (λ i,
          sum_over (length S) (λ d, sum_over (length v_e) (λ j,
            at3 J d e j * at3 S d i j * at1 v_e j * at2 a e j)))) v.

(** Matrix-vector product and entrywise product, the vocabulary in which
    the operator layer is specified. *)
Definition matvec (A : matrix) (v : vector) : vector :=
  tabulate (nrows A) (λ i, sum_over (length v) (λ j, at2 A i j * at1 v j)).
Definition hadamard (u v : vector) : vector :=
  tabulate (length v) (λ j, at1 u j * at1 v j).

End Numpy.

Import Numpy.

(** External numerical routines: [np.linalg.inv] and the square root behind
    [x**0.5]. They are parameters of the development. *)
Class NumericLibrary := {
  linalg_inv : matrix → result matrix;
  sqrt : Qc → Qc
}.

(** ** Domain descriptors *)

Module dof_desc.

Inductive boundary_tag :=
| BTAG_ALL
| BTAG_NONE
| BTAG_PARTITION (part_nr : nat)
| BTAG_named (name : string).

Inductive domain_tag :=
| DTAG_SCALAR
| DTAG_VOLUME_ALL
| FACE_RESTR_INTERIOR
| FACE_RESTR_ALL
| DTAG_BOUNDARY (tag : boundary_tag).

Inductive quadrature_tag :=
| QTAG_NONE
| QTAG_named (name : string).

(** Modelled from the spec: the class [DOFDesc] of [grudge/dof_desc.py],
    which is not among the sources. A descriptor is a domain tag (volume,
    named boundary, interior faces, all faces, scalar) crossed with a
    quadrature tag (none for nodal, or a named rule). [DISCR_TAG_BASE] is
    the nodal tag [QTAG_NONE]. *)
Record DOFDesc := mkDOFDesc {
  domain_tag_of : domain_tag;
  quadrature_tag_of : quadrature_tag
}.

Definition DISCR_TAG_BASE : quadrature_tag := QTAG_NONE.
Definition DD_VOLUME : DOFDesc := mkDOFDesc DTAG_VOLUME_ALL QTAG_NONE.

#[global] Instance boundary_tag_eq_dec : EqDecision boundary_tag.
Proof. solve_decision. Defined.
#[global] Instance domain_tag_eq_dec : EqDecision domain_tag.
Proof. solve_decision. Defined.
#[global] Instance quadrature_tag_eq_dec : EqDecision quadrature_tag.
Proof. solve_decision. Defined.
#[global] Instance DOFDesc_eq_dec : EqDecision DOFDesc.
Proof. solve_decision. Defined.

(** The values the operator layer accepts where a descriptor is expected. *)
Inductive dd_like :=
| OfString (s : string)
| OfBoundaryTag (b : boundary_tag)
| OfDomainTag (d : domain_tag)
| OfDOFDesc (dd : DOFDesc).

(** Modelled from the spec: [as_dofdesc] of [grudge/dof_desc.py], which is
    not among the sources. It normalizes a descriptor-like value: the
    strings name the volume, the interior faces, all faces and the scalar
    domain; a boundary tag names its boundary; a descriptor is returned as
    it is; anything else is not understood. *)
Definition as_dofdesc (x : dd_like) : result DOFDesc :=
  match x with
  | OfDOFDesc dd => Ok dd
  | OfDomainTag d => Ok (mkDOFDesc d QTAG_NONE)
  | OfBoundaryTag b => Ok (mkDOFDesc (DTAG_BOUNDARY b) QTAG_NONE)
  | OfString s =>
      if String.eqb s "vol" then Ok (mkDOFDesc DTAG_VOLUME_ALL QTAG_NONE)
      else if String.eqb s "int_faces" then Ok (mkDOFDesc FACE_RESTR_INTERIOR QTAG_NONE)
      else if String.eqb s "all_faces" then Ok (mkDOFDesc FACE_RESTR_ALL QTAG_NONE)
      else if String.eqb s "scalar" then Ok (mkDOFDesc DTAG_SCALAR QTAG_NONE)
      else Raise (ValueError "domain tag not understood")
  end.

End dof_desc.

Import dof_desc.

(** ** Element groups, discretizations and fields *)

Module Meshmode.

(** A point of the reference element. *)
Definition node := list Qc.

(** [(type(grp), grp.dim, grp.order)] *)
Definition discretization_key_t : Type := string * nat * nat.

(** A gradient of a basis function returns one array in one dimension and
    a tuple of arrays otherwise. *)
Inductive gradient_function :=
| ScalarValued (f : node → Qc)
| TupleValued (naxes : nat) (f : node → list Qc).

(** [grp.quadrature_rule()] *)
Record Quadrature := {
  weights : vector;
  exact_to : nat
}.

(** A face of the reference element, as enumerated by
    [mp.faces_for_shape]. *)
Record Face := { face_index : nat }.

(** What the operator layer reads from an element group. [grp_ident]
    stands for the identity of the Python object: groups do not define
    [__eq__], so [out_grp == in_grp] compares identities. *)
Record ElementGroup := {
  grp_ident : nat;
  discretization_key : discretization_key_t;
  index : nat;
  is_affine : bool;
  order : nat;
  nelements : nat;
  nunit_dofs : nat;
  unit_nodes : list node;
  basis_functions : list (node → Qc);
  basis_gradients : list gradient_function;
  quadrature_rule : Quadrature;
  mesh_nfaces : nat;
  shape_faces : list Face;
  is_QuadratureSimplexElementGroup : bool;
  is_ElementGroupWithBasis : bool;
  space_dim : nat
}.

(** [out_grp == in_grp] *)
Definition grp_eqb (g h : ElementGroup) : bool :=
  Nat.eqb (grp_ident g) (grp_ident h).

Record Discretization := { groups : list ElementGroup }.

(** A [DOFArray]: one [(nelements, nunit_dofs)] array per element group. *)
Record DOFArray := {
  entry_dtype : dtype;
  dof_data : list matrix
}.

(** What an operator of the layer may be handed: a plain number, a
    [DOFArray], or a numpy object array (its shape and, in C order, its
    entries). *)
Inductive value :=
| Num (x : Qc)
| DOF (d : DOFArray)
| ObjArray (shape : list nat) (items : list value).

(** The routines of meshmode and modepy that compute matrices from the
    basis of a group; they are parameters of the development. *)
Class ElementLibrary := {
  mass_matrix : ElementGroup → matrix;
  diff_matrices : ElementGroup → list matrix;
  inverse_mass_matrix : list (node → Qc) → list node → matrix;
  quadrature_for_space : Face → nat → Quadrature;
  nodal_mass_matrix_for_face :
    Face → Quadrature → list (node → Qc) → list (node → Qc) →
    list node → list node → matrix;
  nodal_quad_mass_matrix_for_face :
    Face → Quadrature → list (node → Qc) → list node → matrix
}.

(** [modepy.vandermonde(functions, nodes)]: row [i] holds the values of
    the functions at node [i]. *)
Definition vandermonde (functions : list (node → Qc)) (nodes : list node) : matrix :=
  (λ x, (λ f, f x) <$> functions) <$> nodes.

(** [modepy.vandermonde] on gradients: a tuple with one matrix per axis
    when the functions return tuples, one matrix otherwise. *)
Inductive vandermonde_result :=
| OneMatrix (m : matrix)
| TupleOfMatrices (ms : list matrix).

Definition component (f : gradient_function) (a : nat) (x : node) : Qc :=
  match f with
  | ScalarValued g => g x
  | TupleValued _ g => at1 (g x) a
  end.

Definition vandermonde_grad (functions : list gradient_function) (nodes : list node)
  : vandermonde_result :=
  match functions with
  | [] => OneMatrix ((λ _, []) <$> nodes)
  | ScalarValued _ :: _ =>
      OneMatrix ((λ x, (λ f, component f 0 x) <$> functions) <$> nodes)
  | TupleValued naxes _ :: _ =>
      TupleOfMatrices
        (tabulate naxes (λ a, (λ x, (λ f, component f a x) <$> functions) <$> nodes))
  end.

End Meshmode.

Import Meshmode.

(** ** The array context and the memoization kept on it *)

Module ArrayCtx.

(** The functions of [grudge/op.py] that serve as identifiers of
    memoization dictionaries. *)
Inductive function_object :=
| fn_reference_derivative_matrices
| fn_reference_stiffness_transpose_matrix
| fn_reference_mass_matrix
| fn_reference_inverse_mass_matrix
| fn_reference_face_mass_matrix.

(** The keys: a discretization key, or a tuple of two. *)
Inductive memo_key :=
| OneKey (k : discretization_key_t)
| KeyTuple (k1 k2 : discretization_key_t).

#[global] Instance function_object_eq_dec : EqDecision function_object.
Proof. solve_decision. Defined.
#[global] Instance memo_key_eq_dec : EqDecision memo_key.
Proof. solve_decision. Defined.

#[global] Instance function_object_countable : Countable function_object.
Proof.
  refine (inj_countable'
    (λ f, match f with
          | fn_reference_derivative_matrices => 0%nat
          | fn_reference_stiffness_transpose_matrix => 1%nat
          | fn_reference_mass_matrix => 2%nat
          | fn_reference_inverse_mass_matrix => 3%nat
          | fn_reference_face_mass_matrix => 4%nat
          end)
    (λ n, match n with
          | 0%nat => fn_reference_derivative_matrices
          | 1%nat => fn_reference_stiffness_transpose_matrix
          | 2%nat => fn_reference_mass_matrix
          | 3%nat => fn_reference_inverse_mass_matrix
          | _ => fn_reference_face_mass_matrix
          end) _).
  by intros [].
Defined.

#[global] Instance memo_key_countable : Countable memo_key.
Proof.
  refine (inj_countable'
    (λ k, match k with
          | OneKey a => inl a
          | KeyTuple a b => inr (a, b)
          end)
    (λ s, match s with
          | inl a => OneKey a
          | inr (a, b) => KeyTuple a b
          end) _).
  by intros [].
Defined.

(** An array living on the array context. [obj_id] stands for the identity
    of the Python object. *)
Record array_obj := {
  obj_id : nat;
  frozen : bool;
  payload : ndarray
}.

(** The array context: the dictionary
    [container._pytools_keyed_memoize_in_dict] that [keyed_memoize_in]
    keeps on it (identifier, then key), and the next fresh object
    identity. *)
Record ArrayContext := {
  _pytools_keyed_memoize_in_dict : gmap function_object (gmap memo_key array_obj);
  next_obj_id : nat
}.

Abbreviation Actx := (M ArrayContext).

(** [actx.from_numpy(a)]: a new array object *)
Definition from_numpy (a : ndarray) : Actx array_obj :=
  λ actx,
    (Ok {| obj_id := next_obj_id actx; frozen := false; payload := a |},
     {| _pytools_keyed_memoize_in_dict := _pytools_keyed_memoize_in_dict actx;
        next_obj_id := S (next_obj_id actx) |}).

(** [actx.freeze(a)] *)
Definition freeze (a : array_obj) : Actx array_obj :=
  ret {| obj_id := obj_id a; frozen := true; payload := payload a |}.

(** [actx.to_numpy(a)] *)
Definition to_numpy (a : array_obj) : ndarray := payload a.

Definition as_matrix (a : ndarray) : result matrix :=
  match a with
  | Array2 m => Ok m
  | _ => Raise (ValueError "operand does not have two dimensions")
  end.

Definition as_tensor3 (a : ndarray) : result tensor3 :=
  match a with
  | Array3 t => Ok t
  | _ => Raise (ValueError "operand does not have three dimensions")
  end.

Definition cache_lookup (identifier : function_object) (key : memo_key)
    (actx : ArrayContext) : option array_obj :=
  _pytools_keyed_memoize_in_dict actx !! identifier ≫= (.!! key).

Definition cache_store (identifier : function_object) (key : memo_key)
    (v : array_obj) (actx : ArrayContext) : ArrayContext :=
  let d := _pytools_keyed_memoize_in_dict actx in
  {| _pytools_keyed_memoize_in_dict :=
       <[identifier := <[key := v]> (default ∅ (d !! identifier))]> d;
     next_obj_id := next_obj_id actx |}.

(** [pytools.keyed_memoize_in(container, identifier, key)(inner)]: the
    decorated function computes the key of its arguments, returns
    [cache_dict[key]] when that entry exists, and otherwise calls
    [inner], stores the result under the key and returns it; [cache_dict]
    is the dictionary kept on the container under [identifier]. A call of
    [inner] that raises stores nothing. *)
Definition keyed_memoize_in {A} (identifier : function_object)
    (key : A → memo_key) (inner : A → Actx array_obj) : A → Actx array_obj :=
  λ args actx,
    match cache_lookup identifier (key args) actx with
    | Some cached => (Ok cached, actx)
    | None =>
        match inner args actx with
        | (Ok result, actx') =>
            (Ok result, cache_store identifier (key args) result actx')
        | (Raise e, actx') => (Raise e, actx')
        end
    end.

End ArrayCtx.

Import ArrayCtx.

(** ** The discretization collection *)

(** What the operator layer reads from a [DiscretizationCollection]
    ([grudge/discretization.py]) and from [grudge.geometry], neither of
    which is among the sources: the discretization of a descriptor, the
    connection between two descriptors, the area element and the inverse
    surface metric derivative of a descriptor, the distributed-memory
    collaborators, and the values of the two nodal reductions that a bound
    norm operator evaluates. *)
Record DiscretizationCollection := {
  dim : nat;
  ambient_dim : nat;
  discr_from_dd : DOFDesc → Discretization;
  connection_from_dds : DOFDesc → DOFDesc → DOFArray → DOFArray;
  area_element : DOFDesc → DOFArray;
  inverse_surface_metric_derivative : nat → nat → DOFDesc → DOFArray;
  get_connected_partitions : list nat;
  get_distributed_boundary_swap_connection : DOFDesc → DOFArray → DOFArray;
  nodal_norm_2 : DOFDesc → value → Qc;
  nodal_norm_inf : DOFDesc → value → Qc
}.

(** ** [pytools.obj_array] *)

Module obj_array.

(** The body of [obj_array_vectorize] on an object array of the given
    shape and entries: [result[i] = f(ary[i])] for [i] in
    [np.ndindex(ary.shape)]. *)
Definition vectorize_items {S} (f : value → M S value)
    (shape : list nat) (items : list value) : M S value :=
  let* results := mapM f items in
  ret (ObjArray shape results).

(** [obj_array_vectorize(f, ary)] *)
Definition obj_array_vectorize {S} (f : value → M S value) (ary : value) : M S value :=
  match ary with
  | ObjArray shape items => vectorize_items f shape items
  | _ => f ary
  end.

(** [make_obj_array(res_list)] *)
Definition make_obj_array (res_list : list value) : value :=
  ObjArray [length res_list] res_list.

(** [ary.flatten()] and [ary.reshape(oshape)] of an object array held in
    C order *)
Definition flatten (items : list value) : list value := items.
Definition reshape (oshape : list nat) (items : list value) : value :=
  ObjArray oshape items.

End obj_array.

Import obj_array.

(** ** [grudge/op.py] *)

Module op.

(** The ways the variadic operators are called. *)
Inductive star_args :=
| args_vec (vec : value)
| args_dd_vec (dd : DOFDesc) (vec : value)
| args_other (count : nat).

(** A norm order: a number or [np.inf]. *)
Inductive norm_order :=
| p_num (p : Qc)
| np_inf.

Inductive d_dx_args :=
| args_axis_vec (xyz_axis : nat) (vec : value)
| args_dd_axis_vec (dd : DOFDesc) (xyz_axis : nat) (vec : value)
| d_dx_args_other (count : nat).

Section WithLibraries.
Context {num_lib : NumericLibrary} {elt_lib : ElementLibrary}.

(** [vec.array_context]: only a [DOFArray] has the attribute. *)
Definition array_context (vec : value) : result DOFArray :=
  match vec with
  | DOF d => Ok d
  | _ => Raise (AttributeError "array_context")
  end.

(** [vec.entry_dtype] *)
Definition entry_dtype_of (vec : value) : result DOFArray :=
  match vec with
  | DOF d => Ok d
  | _ => Raise (AttributeError "entry_dtype")
  end.

(** *** Interpolation and projection *)

(** [project] once both descriptors are normalized; the recursive calls
    of [project] on the entries of an object array pass descriptors,
    which [as_dofdesc] returns as they are. *)
Fixpoint project_dofdesc (dcoll : DiscretizationCollection)
    (src tgt : DOFDesc) (vec : value) : value :=
  if decide (src = tgt) then vec
  else
    match vec with
    | ObjArray shape items =>
        ObjArray shape (project_dofdesc dcoll src tgt <$> items)
    | Num _ => vec
    | DOF d => DOF (connection_from_dds dcoll src tgt d)
    end.

Definition project (dcoll : DiscretizationCollection)
    (src tgt : dd_like) (vec : value) : result value :=
  let? src := as_dofdesc src in
  let? tgt := as_dofdesc tgt in
  Ok (project_dofdesc dcoll src tgt vec).

(** *** Derivative operators *)

Definition get_ref_derivative_mats (grp : ElementGroup) : Actx array_obj :=
  let* a := from_numpy (Array3 (diff_matrices grp)) in
  freeze a.

Definition reference_derivative_matrices (element_group : ElementGroup)
  : Actx array_obj :=
  keyed_memoize_in fn_reference_derivative_matrices
    (λ grp, OneKey (discretization_key grp))
    get_ref_derivative_mats element_group.

(** [np.asarray([to_numpy(inverse_surface_metric_derivative(..., rst_axis,
    xyz_axis, dd)[0]) for rst_axis in range(dcoll.dim)])]: group [0] of
    each [DOFArray]. *)
Definition inverse_jac_t_planes (dcoll : DiscretizationCollection)
    (xyz_axis : nat) (dd : DOFDesc) : result tensor3 :=
  map_result
    (λ rst_axis,
       match dof_data (inverse_surface_metric_derivative dcoll rst_axis xyz_axis dd)
             !! 0%nat with
       | Some m => Ok m
       | None => Raise IndexError
       end)
    (seq 0 (dim dcoll)).

Definition _compute_local_gradient (dcoll : DiscretizationCollection)
    (vec : value) (xyz_axis : nat) : Actx DOFArray :=
  let discr := discr_from_dd dcoll DD_VOLUME in
  let* vec := lift (array_context vec) in
  let* planes := lift (inverse_jac_t_planes dcoll xyz_axis DD_VOLUME) in
  let* inverse_jac_t := from_numpy (Array3 planes) in
  let* data :=
    mapM (λ '(grp, vec_i),
            let* ref_diff_mat := reference_derivative_matrices grp in
            let* D := lift (as_tensor3 (payload ref_diff_mat)) in
            let* J := lift (as_tensor3 (payload inverse_jac_t)) in
            ret (einsum_dij_ej_dej__ei D vec_i J))
         (zip (groups discr) (dof_data vec)) in
  ret {| entry_dtype := entry_dtype vec; dof_data := data |}.

Definition local_grad (dcoll : DiscretizationCollection) (vec : value) : Actx value :=
  let* components :=
    mapM (λ xyz_axis,
            let* g := _compute_local_gradient dcoll vec xyz_axis in
            ret (DOF g))
         (seq 0 (dim dcoll)) in
  ret (make_obj_array components).

Definition local_d_dx (dcoll : DiscretizationCollection)
    (xyz_axis : nat) (vec : value) : Actx DOFArray :=
  _compute_local_gradient dcoll vec xyz_axis.

(** [0 + a] and [a + b] on [DOFArray]s, and the builtin [sum] of a
    generator of [DOFArray]s (which starts from the integer [0]). *)
Definition dof_radd (x : Qc) (a : DOFArray) : DOFArray :=
  {| entry_dtype := entry_dtype a;
     dof_data := map (map (map (λ y, x + y))) (dof_data a) |}.

Definition dof_add (a b : DOFArray) : DOFArray :=
  {| entry_dtype := entry_dtype a;
     dof_data := zip_with (zip_with (zip_with Qcplus)) (dof_data a) (dof_data b) |}.

Definition builtin_sum (terms : list DOFArray) : value :=
  match terms with
  | [] => Num 0
  | t :: ts => DOF (foldl dof_add (dof_radd 0 t) ts)
  end.

(** [enumerate(vecs)] *)
Definition enumerate {A} (l : list A) : list (nat * A) := zip (seq 0 (length l)) l.

(** The rows [vecs[idx]] for [idx] in [np.ndindex(vecs.shape[:-1])]. *)
Fixpoint rows_of (fuel : nat) (width : nat) (items : list value) : list (list value) :=
  match fuel with
  | O => []
  | S fuel' => take width items :: rows_of fuel' width (drop width items)
  end.

Definition _div_helper (dcoll : DiscretizationCollection)
    (diff_func : nat → value → Actx DOFArray) (vecs : value) : Actx value :=
  match vecs with
  | ObjArray shape items =>
      match list.last shape with
      | None => raise IndexError
      | Some width =>
          if negb (Nat.eqb width (ambient_dim dcoll)) then
            raise (ValueError
              "last dimension of *vecs* argument must match ambient dimension")
          else if Nat.eqb (length shape) 1 then
            let* terms := mapM (λ '(i, vec_i), diff_func i vec_i) (enumerate items) in
            ret (builtin_sum terms)
          else
            let leading := removelast shape in
            let* results :=
              mapM (λ row_items,
                      let* terms :=
                        mapM (λ '(i, vec_i), diff_func i vec_i) (enumerate row_items) in
                      ret (builtin_sum terms))
                   (rows_of (foldr Nat.mul 1%nat leading) width items) in
            ret (ObjArray leading results)
      end
  | _ => raise (TypeError "argument must be an object array")
  end.

Definition local_div (dcoll : DiscretizationCollection) (vecs : value) : Actx value :=
  _div_helper dcoll (λ i subvec, local_d_dx dcoll i subvec) vecs.

(** *** Mass operator

    ([reference_mass_matrix] is defined before the weak derivative
    operators, which call it.) *)

(** The key function shared by the memoized functions of two groups:
    [(a.discretization_key(), b.discretization_key())]. *)
Definition key_of_pair (grps : ElementGroup * ElementGroup) : memo_key :=
  KeyTuple (discretization_key grps.1) (discretization_key grps.2).

Definition get_ref_mass_mat (out_grp in_grp : ElementGroup) : Actx array_obj :=
  if grp_eqb out_grp in_grp then
    let* a := from_numpy (Array2 (mass_matrix out_grp)) in
    freeze a
  else
    let vand := vandermonde (basis_functions out_grp) (unit_nodes out_grp) in
    let o_vand := vandermonde (basis_functions out_grp) (unit_nodes in_grp) in
    let* vand_inv := lift (linalg_inv vand) in
    let vand_inv_t := transpose vand_inv in
    let weights := weights (quadrature_rule in_grp) in
    let* a := from_numpy (Array2 (einsum_j_ik_jk__ij weights vand_inv_t o_vand)) in
    freeze a.

Definition reference_mass_matrix (out_element_group in_element_group : ElementGroup)
  : Actx array_obj :=
  keyed_memoize_in fn_reference_mass_matrix key_of_pair
    (λ grps, get_ref_mass_mat grps.1 grps.2)
    (out_element_group, in_element_group).

(** [zip(a, b, c, d)] *)
Definition zip4 {A B C D} (a : list A) (b : list B) (c : list C) (d : list D)
  : list (A * B * C * D) :=
  zip (zip (zip a b) c) d.

Definition zip3 {A B C} (a : list A) (b : list B) (c : list C) : list (A * B * C) :=
  zip (zip a b) c.

Definition _apply_mass_operator (dcoll : DiscretizationCollection)
    (dd_out dd_in : DOFDesc) (vec : value) : Actx value :=
  let in_discr := discr_from_dd dcoll dd_in in
  let out_discr := discr_from_dd dcoll dd_out in
  let* vec := lift (array_context vec) in
  let area_elements := area_element dcoll dd_in in
  let* data :=
    mapM (λ '(in_grp, out_grp, ae_i, vec_i),
            let* mass_mat := reference_mass_matrix out_grp in_grp in
            let* mass_mat := lift (as_matrix (payload mass_mat)) in
            ret (einsum_ij_ej_ej__ei mass_mat ae_i vec_i))
         (zip4 (groups in_discr) (groups out_discr)
               (dof_data area_elements) (dof_data vec)) in
  ret (DOF {| entry_dtype := entry_dtype vec; dof_data := data |}).

Fixpoint mass_dd (dcoll : DiscretizationCollection) (dd : DOFDesc) (vec : value)
  : Actx value :=
  match vec with
  | ObjArray shape items => vectorize_items (mass_dd dcoll dd) shape items
  | _ => _apply_mass_operator dcoll DD_VOLUME dd vec
  end.

Definition mass (dcoll : DiscretizationCollection) (args : star_args) : Actx value :=
  match args with
  | args_vec vec => mass_dd dcoll (mkDOFDesc DTAG_VOLUME_ALL QTAG_NONE) vec
  | args_dd_vec dd vec => mass_dd dcoll dd vec
  | args_other _ => raise (TypeError "invalid number of arguments")
  end.

(** *** Weak derivative operators *)

Definition get_ref_stiffness_transpose_mat (out_grp in_grp : ElementGroup)
  : Actx array_obj :=
  if grp_eqb in_grp out_grp then
    let* mmat := reference_mass_matrix out_grp in_grp in
    let* dmats := reference_derivative_matrices in_grp in
    let* dmats := lift (as_tensor3 (payload dmats)) in
    let* mmat := lift (as_matrix (to_numpy mmat)) in
    let* a := from_numpy
                (Array3 (map (λ dmat, dot (transpose dmat) (transpose mmat)) dmats)) in
    freeze a
  else
    let vand := vandermonde (basis_functions out_grp) (unit_nodes out_grp) in
    let grad_vand := vandermonde_grad (basis_gradients out_grp) (unit_nodes in_grp) in
    let* vand_inv := lift (linalg_inv vand) in
    let vand_inv_t := transpose vand_inv in
    let grad_vand :=
      match grad_vand with
      | TupleOfMatrices ms => ms
      | OneMatrix m => [m]
      end in
    let weights := weights (quadrature_rule in_grp) in
    let* a := from_numpy (Array3 (einsum_c_bz_acz__abc weights vand_inv_t grad_vand)) in
    freeze a.

Definition reference_stiffness_transpose_matrix
    (out_element_group in_element_group : ElementGroup) : Actx array_obj :=
  keyed_memoize_in fn_reference_stiffness_transpose_matrix key_of_pair
    (λ grps, get_ref_stiffness_transpose_mat grps.1 grps.2)
    (out_element_group, in_element_group).

Definition _apply_stiffness_transpose_operator (dcoll : DiscretizationCollection)
    (dd_out dd_in : DOFDesc) (vec : value) (xyz_axis : nat) : Actx DOFArray :=
  let in_discr := discr_from_dd dcoll dd_in in
  let out_discr := discr_from_dd dcoll dd_out in
  let* vec := lift (array_context vec) in
  let area_elements := area_element dcoll dd_in in
  let* planes := lift (inverse_jac_t_planes dcoll xyz_axis dd_in) in
  let* inverse_jac_t := from_numpy (Array3 planes) in
  let* data :=
    mapM (λ '(out_grp, in_grp, vec_i, ae_i),
            let* J := lift (as_tensor3 (payload inverse_jac_t)) in
            let* ref_stiffT_mat := reference_stiffness_transpose_matrix out_grp in_grp in
            let* S := lift (as_tensor3 (payload ref_stiffT_mat)) in
            ret (einsum_dej_dij_ej_ej__ei J S vec_i ae_i))
         (zip4 (groups out_discr) (groups in_discr)
               (dof_data vec) (dof_data area_elements)) in
  ret {| entry_dtype := entry_dtype vec; dof_data := data |}.

Definition weak_local_grad (dcoll : DiscretizationCollection) (args : star_args)
  : Actx value :=
  let body (dd : DOFDesc) (vec : value) : Actx value :=
    let* components :=
      mapM (λ xyz_axis,
              let* g := _apply_stiffness_transpose_operator
                          dcoll DD_VOLUME dd vec xyz_axis in
              ret (DOF g))
           (seq 0 (dim dcoll)) in
    ret (make_obj_array components) in
  match args with
  | args_vec vec => body (mkDOFDesc DTAG_VOLUME_ALL DISCR_TAG_BASE) vec
  | args_dd_vec dd vec => body dd vec
  | args_other _ => raise (TypeError "invalid number of arguments")
  end.

Definition weak_local_d_dx (dcoll : DiscretizationCollection) (args : d_dx_args)
  : Actx DOFArray :=
  match args with
  | args_axis_vec xyz_axis vec =>
      _apply_stiffness_transpose_operator
        dcoll DD_VOLUME (mkDOFDesc DTAG_VOLUME_ALL DISCR_TAG_BASE) vec xyz_axis
  | args_dd_axis_vec dd xyz_axis vec =>
      _apply_stiffness_transpose_operator dcoll DD_VOLUME dd vec xyz_axis
  | d_dx_args_other _ => raise (TypeError "invalid number of arguments")
  end.

Definition weak_local_div (dcoll : DiscretizationCollection) (args : star_args)
  : Actx value :=
  let body (dd : DOFDesc) (vecs : value) : Actx value :=
    _div_helper dcoll
      (λ i subvec, weak_local_d_dx dcoll (args_dd_axis_vec dd i subvec)) vecs in
  match args with
  | args_vec vecs => body (mkDOFDesc DTAG_VOLUME_ALL DISCR_TAG_BASE) vecs
  | args_dd_vec dd vecs => body dd vecs
  | args_other _ => raise (TypeError "invalid number of arguments")
  end.

(** *** Mass inverse operator *)

Definition get_ref_inv_mass_mat (grp : ElementGroup) : Actx array_obj :=
  let* a := from_numpy
              (Array2 (inverse_mass_matrix (basis_functions grp) (unit_nodes grp))) in
  freeze a.

Definition reference_inverse_mass_matrix (element_group : ElementGroup)
  : Actx array_obj :=
  keyed_memoize_in fn_reference_inverse_mass_matrix
    (λ grp, OneKey (discretization_key grp))
    get_ref_inv_mass_mat element_group.

(** [1./a] on a [DOFArray] *)
Definition dof_reciprocal (a : DOFArray) : DOFArray :=
  {| entry_dtype := entry_dtype a;
     dof_data := map (map (map (λ y, / y))) (dof_data a) |}.

Definition _apply_inverse_mass_operator (dcoll : DiscretizationCollection)
    (dd_out dd_in : DOFDesc) (vec : value) : Actx value :=
  if negb (bool_decide (dd_out = dd_in)) then
    raise (ValueError
      ("Cannot compute inverse of a mass matrix mapping " ++
       "between different element groups; inverse is not " ++
       "guaranteed to be well-defined"))
  else
    let discr := discr_from_dd dcoll dd_in in
    let use_wadg := negb (forallb is_affine (groups discr)) in
    let* vec := lift (array_context vec) in
    let inv_area_elements := dof_reciprocal (area_element dcoll dd_in) in
    if use_wadg then
      let grps := groups discr in
      let* data :=
        mapM (λ '(grp, jac_inv, x),
                let* ref_mass := reference_mass_matrix grp grp in
                let* ref_mass_inv := reference_inverse_mass_matrix grp in
                let* Minv := lift (as_matrix (payload ref_mass_inv)) in
                let* Mref := lift (as_matrix (payload ref_mass)) in
                ret (einsum_ik_km_em_mj_ej__ei Minv Mref jac_inv Minv x))
             (zip3 grps (dof_data inv_area_elements) (dof_data vec)) in
      ret (DOF {| entry_dtype := entry_dtype vec; dof_data := data |})
    else
      let* data :=
        mapM (λ '(grp, iae_i, vec_i),
                let* mass_inv_mat := reference_inverse_mass_matrix grp in
                let* Minv := lift (as_matrix (payload mass_inv_mat)) in
                ret (einsum_ij_ej_ej__ei Minv iae_i vec_i))
             (zip3 (groups discr) (dof_data inv_area_elements) (dof_data vec)) in
      ret (DOF {| entry_dtype := entry_dtype vec; dof_data := data |}).

Fixpoint inverse_mass (dcoll : DiscretizationCollection) (vec : value) : Actx value :=
  match vec with
  | ObjArray shape items => vectorize_items (inverse_mass dcoll) shape items
  | _ => _apply_inverse_mass_operator dcoll DD_VOLUME DD_VOLUME vec
  end.

(** *** Face mass operator *)

(** The body of the loop over the faces of the reference element: the
    face quadrature, the two accuracy checks, and the face mass matrix
    of that face. *)
Definition face_mass_matrix_for_face (face_grp vol_grp : ElementGroup) (face : Face)
  : result matrix :=
  let n := order vol_grp in
  let m := order face_grp in
  let? face_quadrature :=
    if is_QuadratureSimplexElementGroup face_grp then
      let face_quadrature := quadrature_rule face_grp in
      if (exact_to face_quadrature <? m)%nat then
        Raise (ValueError "The face quadrature rule is not exact for the face degree")
      else Ok face_quadrature
    else
      Ok (quadrature_for_space face (2 * Nat.max n m)) in
  if is_ElementGroupWithBasis face_grp
     && Nat.eqb (space_dim face_grp) (nunit_dofs face_grp) then
    if (exact_to face_quadrature <? m + n)%nat then
      Raise (ValueError "The face quadrature rule is not exact for the combined degree")
    else
      Ok (nodal_mass_matrix_for_face face face_quadrature
            (basis_functions face_grp) (basis_functions vol_grp)
            (unit_nodes vol_grp) (unit_nodes face_grp))
  else
    Ok (nodal_quad_mass_matrix_for_face face face_quadrature
          (basis_functions vol_grp) (unit_nodes vol_grp)).

Definition get_ref_face_mass_mat (dtype_ : dtype) (face_grp vol_grp : ElementGroup)
  : Actx array_obj :=
  let nfaces := mesh_nfaces vol_grp in
  if negb (Nat.eqb (nelements face_grp) (nfaces * nelements vol_grp)) then
    raise AssertionError
  else
    let* per_face :=
      lift (map_result (face_mass_matrix_for_face face_grp vol_grp)
              (shape_faces vol_grp)) in
    (* matrix[:, iface, :] = ... for each face *)
    let matrix :=
      tabulate3 (nunit_dofs vol_grp) nfaces (nunit_dofs face_grp)
        (λ v iface j, at3 per_face iface v j) in
    let* a := from_numpy (Array3 matrix) in
    freeze a.

Definition reference_face_mass_matrix
    (face_element_group vol_element_group : ElementGroup) (dtype_ : dtype)
  : Actx array_obj :=
  keyed_memoize_in fn_reference_mass_matrix key_of_pair
    (λ grps, get_ref_face_mass_mat dtype_ grps.1 grps.2)
    (face_element_group, vol_element_group).

(** [a.reshape(n0, n1, n2)] of a two-dimensional array *)
Definition reshape3 (a : matrix) (n0 n1 n2 : nat) : result tensor3 :=
  let flat := concat a in
  if Nat.eqb (length flat) (n0 * n1 * n2) then
    Ok (tabulate3 n0 n1 n2 (λ f e j, at1 flat ((f * n1 + e) * n2 + j)))
  else Raise (ValueError "cannot reshape array")
.

(** The kernel ["face_mass"]:
    [result[iel,idof] = sum(f, sum(j, mat[idof,f,j] * jac_surf[f,iel,j]
    * vec[f,iel,j]))]. *)
Definition face_mass_knl (nelements nvol_nodes nfaces nface_nodes : nat)
    (mat jac_surf vec : tensor3) : matrix :=
  tabulate2 nelements nvol_nodes
    (λ iel idof, sum_over nfaces (λ f, sum_over nface_nodes (λ j,
       at3 mat idof f j * at3 jac_surf f iel j * at3 vec f iel j))).

Definition getitem {A} (l : list A) (i : nat) : result A :=
  match l !! i with
  | Some x => Ok x
  | None => Raise IndexError
  end.

(** [for x in l: acc = body(acc, x)] *)
Definition for_each {S A B} (body : B → A → M S B) : list A → B → M S B :=
  fix go (l : list A) (acc : B) : M S B :=
    match l with
    | [] => ret acc
    | x :: xs => let* acc' := body acc x in go xs acc'
    end.

Definition _apply_face_mass_operator (dcoll : DiscretizationCollection)
    (dd : DOFDesc) (vec : value) : Actx value :=
  let volm_discr := discr_from_dd dcoll DD_VOLUME in
  let face_discr := discr_from_dd dcoll dd in
  let* vec_dtype := lift (entry_dtype_of vec) in
  let dtype_ := entry_dtype vec_dtype in
  let* vec := lift (array_context vec) in
  let surf_area_elements := area_element dcoll dd in
  (* result = volm_discr.empty(actx, dtype=dtype) *)
  let result : list matrix :=
    map (λ grp, tabulate2 (nelements grp) (nunit_dofs grp) (λ _ _, 0))
        (groups volm_discr) in
  if negb (Nat.eqb (length (groups face_discr)) (length (groups volm_discr))) then
    raise AssertionError
  else
    let* result :=
      for_each
        (λ (result : list matrix) '(afgrp, volgrp),
           let nfaces := mesh_nfaces volgrp in
           let* matrix_obj := reference_face_mass_matrix afgrp volgrp dtype_ in
           let* vec_grp := lift (getitem (dof_data vec) (index afgrp)) in
           let* input_view :=
             lift (reshape3 vec_grp nfaces (nelements volgrp) (nunit_dofs afgrp)) in
           let* jac_grp := lift (getitem (dof_data surf_area_elements) (index afgrp)) in
           let* jac_surf :=
             lift (reshape3 jac_grp nfaces (nelements volgrp) (nunit_dofs afgrp)) in
           let* _ := lift (getitem result (index volgrp)) in
           let* mat := lift (as_tensor3 (payload matrix_obj)) in
           ret (<[index volgrp :=
                    face_mass_knl (nelements volgrp) (nunit_dofs volgrp)
                      nfaces (nunit_dofs afgrp) mat jac_surf input_view]> result))
        (zip (groups face_discr) (groups volm_discr)) result in
    ret (DOF {| entry_dtype := dtype_; dof_data := result |}).

Fixpoint face_mass_dd (dcoll : DiscretizationCollection) (dd : DOFDesc) (vec : value)
  : Actx value :=
  match vec with
  | ObjArray shape items => vectorize_items (face_mass_dd dcoll dd) shape items
  | _ => _apply_face_mass_operator dcoll dd vec
  end.

Definition face_mass (dcoll : DiscretizationCollection) (args : star_args) : Actx value :=
  match args with
  | args_vec vec => face_mass_dd dcoll (mkDOFDesc FACE_RESTR_ALL QTAG_NONE) vec
  | args_dd_vec dd vec => face_mass_dd dcoll dd vec
  | args_other _ => raise (TypeError "invalid number of arguments")
  end.

(** *** Nodal reductions *)

Definition unsupported_norm_order : exn := ValueError "unsupported norm order".

(** Modelled from the spec: the bound operator [_norm(dcoll, p, dd)], that
    is [bind(dcoll, sym.norm(p, sym.var("arg", dd=dd), dd=dd))], whose
    definition ([grudge/symbolic/primitives.py] and the execution of bound
    operators) is not among the sources. The spec: the reductions are
    parameterized by norm order, support order 2 and order infinity
    explicitly, and other orders are a fatal "unsupported" error. *)
Definition _norm (dcoll : DiscretizationCollection) (p : norm_order) (dd : DOFDesc)
    (arg : value) : result Qc :=
  match p with
  | np_inf => Ok (nodal_norm_inf dcoll dd arg)
  | p_num q =>
      if bool_decide (q = Py.int 2) then Ok (nodal_norm_2 dcoll dd arg)
      else Raise unsupported_norm_order
  end.

(** The builtin [max] of a sequence of numbers. *)
Definition builtin_max (xs : list Qc) : result Qc :=
  match xs with
  | [] => Raise (ValueError "max() arg is an empty sequence")
  | x :: rest => Ok (foldl (λ a b, if bool_decide (a < b) then b else a) x rest)
  end.

(** [norm] once [dd] is a descriptor; the recursive calls on the entries
    of an object array pass [dd=dd]. *)
Fixpoint norm_dd (dcoll : DiscretizationCollection) (vec : value) (p : norm_order)
    (dd : DOFDesc) : result Qc :=
  match vec with
  | ObjArray shape items =>
      match p with
      | p_num q =>
          if bool_decide (q = Py.int 2) then
            let? norms := map_result (λ v, norm_dd dcoll v p dd) items in
            Ok (sqrt (foldl (λ acc n, acc + n * n) 0 norms))
          else Raise unsupported_norm_order
      | np_inf =>
          let? norms := map_result (λ v, norm_dd dcoll v np_inf dd) items in
          builtin_max norms
      end
  | _ => _norm dcoll p dd vec
  end.

Definition norm (dcoll : DiscretizationCollection) (vec : value) (p : norm_order)
    (dd : option dd_like) : result Qc :=
  let dd := match dd with None => OfString "vol" | Some dd => dd end in
  let? dd := as_dofdesc dd in
  norm_dd dcoll vec p dd.

(** *** Distributed-memory functionality *)

Definition connected_ranks (dcoll : DiscretizationCollection) : list nat :=
  get_connected_partitions dcoll.

Record TracePair := {
  tp_dd : DOFDesc;
  interior : value;
  exterior : value
}.

(** [interior_trace_pair(dcoll, vec)]. The connection
    [dcoll.opposite_face_connection()] is code of
    [grudge/discretization.py], which is not among the sources: it is the
    parameter [opposite_face_connection], a function on values that may
    raise. *)
Definition get_opposite_face (opposite_face_connection : value → result value)
    (el : value) : result value :=
  match el with
  | Num _ => Ok el
  | _ => opposite_face_connection el
  end.

(** [as_dofdesc("int_faces")] *)
Definition DD_INTERIOR_FACES : DOFDesc := mkDOFDesc FACE_RESTR_INTERIOR QTAG_NONE.

Definition interior_trace_pair (dcoll : DiscretizationCollection)
    (opposite_face_connection : value → result value) (vec : value) : result TracePair :=
  let? i := project dcoll (OfString "vol") (OfString "int_faces") vec in
  let? e :=
    fst (obj_array_vectorize (S:=unit)
           (λ el, lift (get_opposite_face opposite_face_connection el)) i tt) in
  Ok {| tp_dd := DD_INTERIOR_FACES; interior := i; exterior := e |}.

(** What the communicator records: the non-blocking operations posted,
    with their peer and tag, and the waits. [incoming] is what the peers
    send: the data a receive from a rank with a tag completes with. *)
Inductive mpi_event :=
| Isend (data : vector) (dest : nat) (tag : Z)
| Irecv (source : nat) (tag : Z)
| Wait (request : nat).

Record Communicator := {
  posted : list mpi_event;
  incoming : nat → Z → vector
}.

Abbreviation Exchange := (M Communicator).

(** Posting an operation returns its request, the position of the
    operation in [posted]. *)
Definition post (ev : mpi_event) : Exchange nat :=
  λ comm, (Ok (length (posted comm)),
           {| posted := posted comm ++ [ev]; incoming := incoming comm |}).

Definition wait (request : nat) : Exchange unit :=
  λ comm, (Ok tt,
           {| posted := posted comm ++ [Wait request]; incoming := incoming comm |}).

Definition receive_buffer (source : nat) (tag : Z) : Exchange vector :=
  λ comm, (Ok (incoming comm source tag), comm).

(** [flatten(ary)] and [unflatten(actx, discr, ary)] of meshmode *)
Definition dof_flatten (a : DOFArray) : vector := concat (concat (dof_data a)).

Fixpoint unflatten_groups (grps : list ElementGroup) (flat : vector) : list matrix :=
  match grps with
  | [] => []
  | grp :: rest =>
      let n := (nelements grp * nunit_dofs grp)%nat in
      tabulate2 (nelements grp) (nunit_dofs grp)
        (λ e j, at1 flat (e * nunit_dofs grp + j))
      :: unflatten_groups rest (drop n flat)
  end.

Definition unflatten (dt : dtype) (discr : Discretization) (flat : vector) : DOFArray :=
  {| entry_dtype := dt; dof_data := unflatten_groups (groups discr) flat |}.

Definition base_tag : Z := 1273.

(** The state of a [_RankBoundaryCommunication] object after
    [__init__]. *)
Record _RankBoundaryCommunication := {
  rbc_tag : Z;
  remote_rank_of : nat;
  remote_btag : boundary_tag;
  bdry_discr : Discretization;
  local_dof_array : DOFArray;
  send_req : nat;
  recv_req : nat
}.

Definition _RankBoundaryCommunication__init__ (dcoll : DiscretizationCollection)
    (remote_rank : nat) (vol_field : value) (tag : option Z)
  : Exchange _RankBoundaryCommunication :=
  let self_tag := base_tag in
  let self_tag :=
    match tag with
    | Some t => (self_tag + t)%Z
    | None => self_tag
    end in
  let* _ := lift (array_context vol_field) in
  let remote_btag := BTAG_PARTITION remote_rank in
  let bdry_discr := discr_from_dd dcoll (mkDOFDesc (DTAG_BOUNDARY remote_btag) QTAG_NONE) in
  let* projected :=
    lift (project dcoll (OfString "vol") (OfBoundaryTag remote_btag) vol_field) in
  let* local_dof_array := lift (array_context projected) in
  let local_data := dof_flatten local_dof_array in
  let* send_req := post (Isend local_data remote_rank self_tag) in
  let* recv_req := post (Irecv remote_rank self_tag) in
  ret {| rbc_tag := self_tag;
         remote_rank_of := remote_rank;
         remote_btag := remote_btag;
         bdry_discr := bdry_discr;
         local_dof_array := local_dof_array;
         send_req := send_req;
         recv_req := recv_req |}.

Definition finish (dcoll : DiscretizationCollection) (self : _RankBoundaryCommunication)
  : Exchange TracePair :=
  let* _ := wait (recv_req self) in
  let* remote_data_host := receive_buffer (remote_rank_of self) (rbc_tag self) in
  let remote_dof_array :=
    unflatten (entry_dtype (local_dof_array self)) (bdry_discr self) remote_data_host in
  let swapped_remote_dof_array :=
    get_distributed_boundary_swap_connection dcoll
      (mkDOFDesc (DTAG_BOUNDARY (remote_btag self)) QTAG_NONE) remote_dof_array in
  let* _ := wait (send_req self) in
  ret {| tp_dd := mkDOFDesc (DTAG_BOUNDARY (remote_btag self)) QTAG_NONE;
         interior := DOF (local_dof_array self);
         exterior := DOF swapped_remote_dof_array |}.

Definition _cross_rank_trace_pairs_scalar_field (dcoll : DiscretizationCollection)
    (vec : value) (tag : option Z) : Exchange (list TracePair) :=
  match vec with
  | Num _ =>
      ret (map (λ remote_rank,
                  {| tp_dd := mkDOFDesc (DTAG_BOUNDARY (BTAG_PARTITION remote_rank))
                                QTAG_NONE;
                     interior := vec;
                     exterior := vec |})
               (connected_ranks dcoll))
  | _ =>
      let* rbcomms :=
        mapM (λ remote_rank,
                _RankBoundaryCommunication__init__ dcoll remote_rank vec tag)
             (connected_ranks dcoll) in
      mapM (finish dcoll) rbcomms
  end.

(** [result[remote_rank, i]] *)
Definition dict_getitem (d : gmap (nat * nat) TracePair) (k : nat * nat)
  : result TracePair :=
  match d !! k with
  | Some v => Ok v
  | None => Raise KeyError
  end.

Definition cross_rank_trace_pairs (dcoll : DiscretizationCollection)
    (ary : value) (tag : option Z) : Exchange (list TracePair) :=
  match ary with
  | ObjArray oshape items =>
      let comm_vec := flatten items in
      let n := length comm_vec in
      let* result :=
        for_each
          (λ (result : gmap (nat * nat) TracePair) '(ivec, component),
             let* rank_tpairs :=
               _cross_rank_trace_pairs_scalar_field dcoll component None in
             for_each
               (λ (result : gmap (nat * nat) TracePair) rank_tpair,
                  match domain_tag_of (tp_dd rank_tpair) with
                  | DTAG_BOUNDARY (BTAG_PARTITION part_nr) =>
                      ret (<[(part_nr, ivec) := rank_tpair]> result)
                  | _ => raise AssertionError
                  end)
               rank_tpairs result)
          (enumerate comm_vec) ∅ in
      lift (map_result
        (λ remote_rank,
           let? ints :=
             map_result (λ i, let? tp := dict_getitem result (remote_rank, i) in
                              Ok (interior tp)) (seq 0 n) in
           let? exts :=
             map_result (λ i, let? tp := dict_getitem result (remote_rank, i) in
                              Ok (exterior tp)) (seq 0 n) in
           Ok {| tp_dd := mkDOFDesc (DTAG_BOUNDARY (BTAG_PARTITION remote_rank))
                            QTAG_NONE;
                 interior := reshape oshape ints;
                 exterior := reshape oshape exts |})
        (connected_ranks dcoll))
  | _ => _cross_rank_trace_pairs_scalar_field dcoll ary tag
  end.

End WithLibraries.

End op.

(** ** Symbolic expressions *)

Module sym.

(** Modelled from the spec: the operator nodes of
    [grudge/symbolic/operators.py], which is not among the sources. An
    operator is one of a fixed set of variants and carries an input and an
    output descriptor and its own parameters (an axis, a flux, a boundary
    tag, a quadrature tag). The variants are those the mappers name. *)
Inductive op_class :=
| MassOperator
| InverseMassOperator
| FaceMassOperator
| StiffnessOperator (xyz_axis : nat)
| DiffOperator (xyz_axis : nat)
| StiffnessTOperator (xyz_axis : nat)
| MInvSTOperator (xyz_axis : nat)
| DifferentiationOperator (xyz_axis : nat)
| RefMassOperator
| RefInverseMassOperator
| RefFaceMassOperator
| RefDiffOperator (rst_axis : nat)
| RefStiffnessTOperator (rst_axis : nat)
| FluxOperator (flux : string) (is_lift : bool)
| BoundaryFluxOperator (flux : string) (boundary : boundary_tag) (is_lift : bool)
| InterpolationOperator
| NodalSum
| NodalMax
| NodalMin
| QuadratureGridUpsampler (quadrature : quadrature_tag).

Record Operator := mkOperator {
  class_of : op_class;
  dd_in : DOFDesc;
  dd_out : DOFDesc
}.

(** An operator built without descriptors acts on the volume. *)
Definition default_operator (c : op_class) : Operator :=
  mkOperator c DD_VOLUME DD_VOLUME.

(** Expression nodes: a number, a named field on a descriptor, sums,
    products and quotients, and an operator bound to a field. *)
Inductive expr :=
| Constant (c : Qc)
| Var (name : string) (dd : DOFDesc)
| Sum (children : list expr)
| Product (children : list expr)
| Quotient (numerator denominator : expr)
| OperatorBinding (op : Operator) (field : expr).

(** [grudge.tools.is_zero]: a scalar equal to zero. *)
Definition is_zero (x : expr) : bool :=
  match x with
  | Constant c => bool_decide (c = 0)
  | _ => false
  end.

Definition is_one (x : expr) : bool :=
  match x with
  | Constant c => bool_decide (c = 1)
  | _ => false
  end.

(** Modelled from the spec: [Operator.__call__] of
    [grudge/symbolic/operators.py], which is not among the sources.
    Applying an operator to a field gives the operator-binding node of the
    two; an identically-zero field is returned as it is (the spec: an
    operator applied to an identically-zero field yields exactly zero). *)
Definition call (op : Operator) (field : expr) : expr :=
  if is_zero field then field else OperatorBinding op field.

(** *** Arithmetic of pymbolic expressions: [a * b], [a + b], [-a],
    [1/a] as the overloaded operators of [pymbolic.primitives] build
    them *)

Definition mul (a b : expr) : expr :=
  match a, b with
  | Constant x, Constant y => Constant (x * y)
  | Constant _, Product bs =>
      if is_zero a then Constant 0
      else if is_one a then b
      else Product (a :: bs)
  | Constant _, _ =>
      if is_one a then b
      else if is_zero a then Constant 0
      else Product [a; b]
  | Product as_, Product bs => Product (as_ ++ bs)
  | Product as_, _ =>
      if is_zero b then Constant 0
      else if is_one b then a
      else Product (as_ ++ [b])
  | _, _ =>
      if is_one b then a
      else if is_zero b then Constant 0
      else Product [a; b]
  end.

Definition add (a b : expr) : expr :=
  match a, b with
  | Constant x, Constant y => Constant (x + y)
  | Constant _, Sum bs => if is_zero a then b else Sum (a :: bs)
  | Constant _, _ => if is_zero a then b else Sum [a; b]
  | Sum as_, Sum bs => Sum (as_ ++ bs)
  | Sum as_, _ => if is_zero b then a else Sum (as_ ++ [b])
  | _, Sum bs => Sum (a :: bs)
  | _, _ => if is_zero b then a else Sum [a; b]
  end.

Definition neg (a : expr) : expr := mul (Constant (Py.int (-1))) a.

(** [1/a] *)
Definition reciprocal (a : expr) : expr :=
  match a with
  | Constant x => Constant (/ x)
  | _ => Quotient (Constant 1) a
  end.

(** The builtin [sum] of a sequence of expressions. *)
Definition builtin_sum (terms : list expr) : expr :=
  foldl add (Constant 0) terms.

(** The number of nodes of an expression. *)
Fixpoint size (e : expr) : nat :=
  match e with
  | Constant _ | Var _ _ => 1
  | Sum cs | Product cs => S (foldr (λ c n, size c + n) 0 cs)
  | Quotient a b => S (size a + size b)
  | OperatorBinding _ f => S (size f)
  end%nat.

Definition size_list (es : list expr) : nat := foldr (λ c n, size c + n)%nat 0%nat es.

(** [pymbolic.primitives.flattened_sum]: the loop
    [[
      while queue:
          item = queue.pop(0)
          if is_zero(item): continue
          if isinstance(item, Sum): queue += item.children
          else: done.append(item)
    ]]
    Every turn removes a node from the queue, so the number of nodes in
    the queue bounds the number of turns. *)
Fixpoint flattened_sum_loop (turns : nat) (queue : list expr) : list expr :=
  match turns with
  | O => []
  | S turns' =>
      match queue with
      | [] => []
      | item :: queue' =>
          if is_zero item then flattened_sum_loop turns' queue'
          else
            match item with
            | Sum children => flattened_sum_loop turns' (queue' ++ children)
            | _ => item :: flattened_sum_loop turns' queue'
            end
      end
  end.

Definition flattened_sum (terms : list expr) : expr :=
  match flattened_sum_loop (S (size_list terms)) terms with
  | [] => Constant 0
  | [item] => item
  | done => Sum done
  end.

(** [pymbolic.primitives.flattened_product]: as above, except that a zero
    factor makes the product zero and a factor one is dropped. [None]
    stands for the early [return 0]. *)
Fixpoint flattened_product_loop (turns : nat) (queue : list expr) : option (list expr) :=
  match turns with
  | O => Some []
  | S turns' =>
      match queue with
      | [] => Some []
      | item :: queue' =>
          if is_zero item then None
          else if is_one item then flattened_product_loop turns' queue'
          else
            match item with
            | Product children => flattened_product_loop turns' (queue' ++ children)
            | _ => cons item <$> flattened_product_loop turns' queue'
            end
      end
  end.

Definition flattened_product (terms : list expr) : expr :=
  match flattened_product_loop (S (size_list terms)) terms with
  | None => Constant 0
  | Some [] => Constant 1
  | Some [item] => item
  | Some done => Product done
  end.

End sym.

Import sym.

(** ** [grudge/symbolic/mappers/__init__.py] *)

Module mappers.

(** [dd.with_qtag(qtag)] *)
Definition with_qtag (dd : DOFDesc) (qtag : quadrature_tag) : DOFDesc :=
  mkDOFDesc (domain_tag_of dd) qtag.

(** *** DependencyMapper

    The set of dependencies, as the list of its elements (possibly
    repeated); its users only test it for emptiness. Operators have no
    dependencies ([map_operator]). *)
Fixpoint DependencyMapper (include_operator_bindings : bool) (e : expr) : list expr :=
  match e with
  | Constant _ => []
  | Var _ _ => [e]
  | Sum children | Product children =>
      concat (map (DependencyMapper include_operator_bindings) children)
  | Quotient a b =>
      DependencyMapper include_operator_bindings a
      ++ DependencyMapper include_operator_bindings b
  | OperatorBinding op field =>
      if include_operator_bindings then [e]
      else [] ++ DependencyMapper include_operator_bindings field
  end.

(** *** GlobalToReferenceMapper *)

Section GlobalToReference.

(** [sym.area_element(ambient_dim, dim, dd)] and
    [sym.inverse_metric_derivative(rst_axis, xyz_axis, ambient_dim, dim)]
    of [grudge/symbolic/primitives.py], which is not among the sources:
    the expressions of the geometric factors are parameters. *)
Context (area_element : nat → Z → DOFDesc → expr).
Context (inverse_metric_derivative : nat → nat → nat → nat → expr).

(** [self.ambient_dim] and [self.dim] *)
Context (ambient_dim dim : nat).

(** [rewrite_derivative], given [self.rec(field)]; [ref_class(rst_axis,
    dd_in=dd_in)] outputs on the nodal grid of its input domain. *)
Definition rewrite_derivative (xyz_axis : nat) (ref_class : nat → op_class)
    (rec_field : expr) (dd_in : DOFDesc) (with_jacobian : bool) : expr :=
  let jac_tag := area_element ambient_dim (Z.of_nat dim) dd_in in
  let rec_field := if with_jacobian then mul jac_tag rec_field else rec_field in
  builtin_sum
    (map (λ rst_axis,
            mul (inverse_metric_derivative rst_axis xyz_axis ambient_dim dim)
                (call (mkOperator (ref_class rst_axis) dd_in (with_qtag dd_in QTAG_NONE))
                      rec_field))
         (seq 0 dim)).

(** [map_operator_binding], given [self.rec(expr.field)]. Two branches
    re-enter the mapper on a binding that they build over [expr.field];
    the branch of the mapper that this binding takes is written in place
    (an identically-zero field is returned by the operator call as it is,
    and the mapper leaves a number unchanged). *)
Definition map_operator_binding (op : Operator) (field rec_field : expr) : expr :=
  let jac_in := area_element ambient_dim (Z.of_nat dim) (dd_in op) in
  let jac_noquad :=
    area_element ambient_dim (Z.of_nat dim) (with_qtag (dd_in op) QTAG_NONE) in
  match class_of op with
  | MassOperator =>
      call (mkOperator RefMassOperator (dd_in op) (dd_out op))
           (mul jac_in rec_field)
  | InverseMassOperator =>
      call (mkOperator RefInverseMassOperator (dd_in op) (dd_out op))
           (mul (reciprocal jac_in) rec_field)
  | FaceMassOperator =>
      let jac_in_surf :=
        neg (area_element ambient_dim (Z.of_nat dim - 1) (dd_in op)) in
      call (mkOperator RefFaceMassOperator (dd_in op) (dd_out op))
           (mul jac_in_surf rec_field)
  | StiffnessOperator xyz_axis =>
      (* self.rec(op.DiffOperator(xyz_axis)(expr.field)) *)
      let rec_diff :=
        if is_zero field then field
        else rewrite_derivative xyz_axis RefDiffOperator rec_field DD_VOLUME false in
      call (default_operator RefMassOperator) (mul jac_noquad rec_diff)
  | DiffOperator xyz_axis =>
      rewrite_derivative xyz_axis RefDiffOperator rec_field (dd_in op) false
  | StiffnessTOperator xyz_axis =>
      rewrite_derivative xyz_axis RefStiffnessTOperator rec_field (dd_in op) true
  | MInvSTOperator xyz_axis =>
      (* self.rec(op.InverseMassOperator()(op.StiffnessTOperator(xyz_axis)(expr.field))) *)
      if is_zero field then field
      else
        call (mkOperator RefInverseMassOperator DD_VOLUME DD_VOLUME)
             (mul (reciprocal (area_element ambient_dim (Z.of_nat dim) DD_VOLUME))
                  (rewrite_derivative xyz_axis RefStiffnessTOperator rec_field
                     DD_VOLUME true))
  | _ => OperatorBinding op rec_field
  end.

Fixpoint GlobalToReferenceMapper (e : expr) : expr :=
  match e with
  | Constant _ | Var _ _ => e
  | Sum children => Sum (map GlobalToReferenceMapper children)
  | Product children => Product (map GlobalToReferenceMapper children)
  | Quotient a b => Quotient (GlobalToReferenceMapper a) (GlobalToReferenceMapper b)
  | OperatorBinding op field =>
      map_operator_binding op field (GlobalToReferenceMapper field)
  end.

End GlobalToReference.

(** *** CommutativeConstantFoldingMapper *)

(** [pymbolic.evaluate] of an expression without context: an unknown
    variable and an unsupported node are [ValueError]s. *)
Fixpoint pymbolic_evaluate (e : expr) : result Qc :=
  match e with
  | Constant c => Ok c
  | Var _ _ => Raise (ValueError "unknown variable")
  | Sum children =>
      let? values := map_result pymbolic_evaluate children in
      Ok (foldl Qcplus 0 values)
  | Product children =>
      let? values := map_result pymbolic_evaluate children in
      Ok (foldl Qcmult 1 values)
  | Quotient a b =>
      let? x := pymbolic_evaluate a in
      let? y := pymbolic_evaluate b in
      if bool_decide (y = 0) then Raise ZeroDivisionError else Ok (x / y)
  | OperatorBinding _ _ => Raise (ValueError "unsupported expression")
  end.

(** [ConstantFoldingMapperBase.evaluate]: the value, or [None] when the
    evaluation raises a [ValueError]. *)
Definition evaluate (e : expr) : result (option Qc) :=
  match pymbolic_evaluate e with
  | Ok v => Ok (Some v)
  | Raise (ValueError _) => Ok None
  | Raise err => Raise err
  end.

(** [is_constant]: [not bool(self.dep_mapper(expr))] with
    [self.dep_mapper = DependencyMapper()]. *)
Definition is_constant (e : expr) : bool :=
  match DependencyMapper true e with
  | [] => true
  | _ => false
  end.

(** The two instances of [fold]: on sums and on products. *)
Inductive fold_class := SumClass | ProductClass.

Definition children_of_class (klass : fold_class) (e : expr) : option (list expr) :=
  match klass, e with
  | SumClass, Sum children => Some children
  | ProductClass, Product children => Some children
  | _, _ => None
  end.

Definition fold_operator (klass : fold_class) : Qc → Qc → Qc :=
  match klass with
  | SumClass => Qcplus
  | ProductClass => Qcmult
  end.

Definition fold_constructor (klass : fold_class) : list expr → expr :=
  match klass with
  | SumClass => flattened_sum
  | ProductClass => flattened_product
  end.

(** [reduce(op, constants)] of a non-empty list *)
Definition reduce (op : Qc → Qc → Qc) (first : Qc) (others : list Qc) : Qc :=
  foldl op first others.

(** A partial computation: [None] when the bound on the number of steps
    is exhausted. *)
Definition bounded (A : Type) : Type := option (result A).

(** The loop of [ConstantFoldingMapperBase.fold]:
    [[
      while queue:
          child = self.rec(queue.pop(0))
          if isinstance(child, klass):
              queue = list(child.children) + queue
          else:
              if self.is_constant(child):
                  value = self.evaluate(child)
                  if value is None: nonconstants.append(child)
                  else: constants.append(value)
              else:
                  nonconstants.append(child)
    ]]
    followed by the construction of the result. *)
Fixpoint fold_loop (rec : expr → bounded expr) (klass : fold_class) (turns : nat)
    (queue : list expr) (constants : list Qc) (nonconstants : list expr)
  : bounded expr :=
  match turns with
  | O => None
  | S turns' =>
      match queue with
      | [] =>
          match constants with
          | c :: cs =>
              let constant := reduce (fold_operator klass) c cs in
              Some (Ok (fold_constructor klass (Constant constant :: nonconstants)))
          | [] => Some (Ok (fold_constructor klass nonconstants))
          end
      | item :: queue' =>
          match rec item with
          | None => None
          | Some (Raise err) => Some (Raise err)
          | Some (Ok child) =>
              match children_of_class klass child with
              | Some children =>
                  fold_loop rec klass turns' (children ++ queue') constants nonconstants
              | None =>
                  if is_constant child then
                    match evaluate child with
                    | Raise err => Some (Raise err)
                    | Ok None =>
                        fold_loop rec klass turns' queue' constants
                          (nonconstants ++ [child])
                    | Ok (Some value) =>
                        fold_loop rec klass turns' queue' (constants ++ [value])
                          nonconstants
                    end
                  else
                    fold_loop rec klass turns' queue' constants (nonconstants ++ [child])
              end
          end
      end
  end.

(** The mapper, with a bound on the depth of the calls and on the turns
    of each loop. Sums and products are folded; a quotient is rebuilt from
    its mapped parts; an operator binding is mapped by
    [map_operator_binding] of the class. *)
Fixpoint CommutativeConstantFoldingMapper (fuel : nat) (e : expr) : bounded expr :=
  match fuel with
  | O => None
  | S fuel' =>
      let rec := CommutativeConstantFoldingMapper fuel' in
      match e with
      | Constant _ | Var _ _ => Some (Ok e)
      | Sum children => fold_loop rec SumClass fuel' children [] []
      | Product children => fold_loop rec ProductClass fuel' children [] []
      | Quotient a b =>
          match rec a with
          | None => None
          | Some (Raise err) => Some (Raise err)
          | Some (Ok a') =>
              match rec b with
              | None => None
              | Some (Raise err) => Some (Raise err)
              | Some (Ok b') => Some (Ok (Quotient a' b'))
              end
          end
      | OperatorBinding op field =>
          match rec field with
          | None => None
          | Some (Raise err) => Some (Raise err)
          | Some (Ok field') =>
              if is_zero field' then Some (Ok (Constant 0))
              else Some (Ok (call op field'))
          end
      end
  end.

(** *** InverseMassContractor *)

(** [is_scalar] of [_InnerInverseMassContractor.map_product] *)
Definition is_scalar (e : expr) : bool :=
  match e with
  | Constant _ => true
  | _ => false
  end.

(** The inner mapper counts in [self.extra_operator_count]: it is a
    computation over the counter. *)
Abbreviation Counting := (M nat).

Definition increment_extra_operator_count : Counting unit :=
  λ count, (Ok tt, S count).

(** The two mappers call each other: the outer one runs a fresh inner
    mapper on the field of an inverse mass binding, the inner one calls
    the outer one on the expression it was given or on a part of it. Both
    results are computed together, by recursion on the expression:
    [contract e] is the pair of [InverseMassContractor()(e)] and of
    [_InnerInverseMassContractor(outer)(e)]. A method receives the
    results of the calls it may make on the parts of its expression and
    uses the ones it makes. *)

(** [_InnerInverseMassContractor.map_constant] *)
Definition inner_map_constant (e : expr) (outer_e : result expr) : Counting expr :=
  if is_zero e then ret (Constant 0)
  else
    let* outer_e := lift outer_e in
    ret (OperatorBinding (default_operator InverseMassOperator) outer_e).

(** [_InnerInverseMassContractor.map_algebraic_leaf] *)
Definition inner_map_algebraic_leaf (outer_e : result expr) : Counting expr :=
  let* outer_e := lift outer_e in
  ret (OperatorBinding (default_operator InverseMassOperator) outer_e).

(** [_InnerInverseMassContractor.map_operator_binding] *)
Definition inner_map_operator_binding (op : Operator) (field : expr)
    (outer_binding outer_field : result expr) : Counting expr :=
  match class_of op with
  | MassOperator => ret field
  | StiffnessOperator xyz_axis =>
      let* outer_field := lift outer_field in
      ret (call (default_operator (DifferentiationOperator xyz_axis)) outer_field)
  | StiffnessTOperator xyz_axis =>
      let* outer_field := lift outer_field in
      ret (call (default_operator (MInvSTOperator xyz_axis)) outer_field)
  | FluxOperator flux is_lift =>
      if is_lift then raise AssertionError
      else
        let* outer_field := lift outer_field in
        ret (call (default_operator (FluxOperator flux true)) outer_field)
  | BoundaryFluxOperator flux boundary is_lift =>
      if is_lift then raise AssertionError
      else
        let* outer_field := lift outer_field in
        ret (call (default_operator (BoundaryFluxOperator flux boundary true))
                  outer_field)
  | _ =>
      let* _ := increment_extra_operator_count in
      let* outer_binding := lift outer_binding in
      ret (call (default_operator InverseMassOperator) outer_binding)
  end.

(** [_InnerInverseMassContractor.map_sum] *)
Definition inner_map_sum (inner_children : list (Counting expr)) : Counting expr :=
  let* children := mapM (λ c, c) inner_children in
  ret (Sum children).

(** [_InnerInverseMassContractor.map_product] *)
Definition inner_map_product (children : list expr)
    (inner_children : list (Counting expr)) (outer_e : result expr) : Counting expr :=
  let nonscalar_count := length (filter (λ ch, is_scalar ch = false) children) in
  if (1 <? nonscalar_count)%nat then
    (* too complicated, don't touch it *)
    let* _ := increment_extra_operator_count in
    let* outer_e := lift outer_e in
    ret (call (default_operator InverseMassOperator) outer_e)
  else
    let* children :=
      mapM (λ '(child, inner_child), if is_scalar child then ret child else inner_child)
           (zip children inner_children) in
    ret (Product children).

(** [InverseMassContractor.map_operator_binding] *)
Definition outer_map_operator_binding (op : Operator)
    (inner_field : Counting expr) (outer_field : result expr) : result expr :=
  match class_of op with
  | InverseMassOperator =>
      (* iimc = _InnerInverseMassContractor(self)
         proposed_result = iimc(binding.field) *)
      match inner_field 0%nat with
      | (Ok proposed_result, extra_operator_count) =>
          if (1 <? extra_operator_count)%nat then
            (* We're introducing more work than we're saving. *)
            let? outer_field := outer_field in
            Ok (call op outer_field)
          else Ok proposed_result
      | (Raise err, _) => Raise err
      end
  | _ =>
      let? outer_field := outer_field in
      Ok (call op outer_field)
  end.

Fixpoint contract (e : expr) : result expr * Counting expr :=
  match e with
  | Constant _ => (Ok e, inner_map_constant e (Ok e))
  | Var _ _ => (Ok e, inner_map_algebraic_leaf (Ok e))
  | Sum children =>
      let both := map contract children in
      let outer_e :=
        let? children := map_result fst both in
        Ok (Sum children) in
      (outer_e, inner_map_sum (map snd both))
  | Product children =>
      let both := map contract children in
      let outer_e :=
        let? children := map_result fst both in
        Ok (Product children) in
      (outer_e, inner_map_product children (map snd both) outer_e)
  | Quotient a b =>
      let outer_e :=
        let? a := fst (contract a) in
        let? b := fst (contract b) in
        Ok (Quotient a b) in
      (outer_e, inner_map_algebraic_leaf outer_e)
  | OperatorBinding op field =>
      let '(outer_field, inner_field) := contract field in
      let outer_e := outer_map_operator_binding op inner_field outer_field in
      (outer_e, inner_map_operator_binding op field outer_e outer_field)
  end.

Definition InverseMassContractor (e : expr) : result expr := fst (contract e).

Definition _InnerInverseMassContractor (e : expr) : Counting expr := snd (contract e).

(** *** QuadratureUpsamplerRemover

    The classes of the upsampling operators and their attribute
    [quadrature_tag] are code of [grudge/symbolic/operators.py], which is
    not among the sources: [upsampler_quadrature_tag op] is the tag of [op]
    when [op] is an instance of one of the three upsampler classes the
    mapper tests for. [quad_min_degrees] is the dictionary the mapper is
    built with; the state is the list of the tags the mapper has warned
    about. As for the mappers above, the operator of a binding is a leaf
    of the traversal. *)

#[global] Instance quadrature_tag_countable : Countable quadrature_tag.
Proof.
  refine (inj_countable'
    (λ t, match t with QTAG_NONE => None | QTAG_named name => Some name end)
    (λ o, match o with None => QTAG_NONE | Some name => QTAG_named name end) _).
  by intros [].
Defined.

(** [warn("No minimum degree for quadrature tag '%s' specified--falling
    back to nodal evaluation" % quadrature_tag)] *)
Definition warn (quadrature : quadrature_tag) : M (list quadrature_tag) unit :=
  λ warnings, (Ok tt, warnings ++ [quadrature]).

Section QuadratureUpsamplerRemover.
Context (upsampler_quadrature_tag : Operator → option quadrature_tag).

Fixpoint QuadratureUpsamplerRemover (quad_min_degrees : gmap quadrature_tag (option nat))
    (do_warn : bool) (e : expr) : M (list quadrature_tag) expr :=
  let rec := QuadratureUpsamplerRemover quad_min_degrees do_warn in
  match e with
  | Constant _ | Var _ _ => ret e
  | Sum children =>
      let* children := mapM rec children in
      ret (Sum children)
  | Product children =>
      let* children := mapM rec children in
      ret (Product children)
  | Quotient a b =>
      let* a := rec a in
      let* b := rec b in
      ret (Quotient a b)
  | OperatorBinding op field =>
      match upsampler_quadrature_tag op with
      | Some quadrature =>
          match quad_min_degrees !! quadrature with
          | None =>
              let* _ := if do_warn then warn quadrature else ret tt in
              rec field
          | Some None => rec field
          | Some (Some _) =>
              let* field := rec field in
              ret (call op field)
          end
      | None =>
          let* field := rec field in
          ret (OperatorBinding op field)
      end
  end.

End QuadratureUpsamplerRemover.

(** *** EmptyFluxKiller

    [DOFDesc.is_boundary] ([grudge/dof_desc.py]) and
    [meshmode.mesh.is_boundary_tag_empty] on the mesh of the mapper are not
    among the sources: they are the parameters [is_boundary] and
    [is_boundary_tag_empty]. *)

Section EmptyFluxKiller.
Context (is_boundary : DOFDesc → bool) (is_boundary_tag_empty : domain_tag → bool).

(** The test of [map_operator_binding] *)
Definition interpolates_to_empty_boundary (op : Operator) : bool :=
  match class_of op with
  | InterpolationOperator =>
      is_boundary (dd_out op)
      && negb (bool_decide (domain_tag_of (dd_out op) ∈ [FACE_RESTR_ALL; FACE_RESTR_INTERIOR]))
      && is_boundary_tag_empty (domain_tag_of (dd_out op))
  | _ => false
  end.

Fixpoint EmptyFluxKiller (e : expr) : expr :=
  match e with
  | Constant _ | Var _ _ => e
  | Sum children => Sum (map EmptyFluxKiller children)
  | Product children => Product (map EmptyFluxKiller children)
  | Quotient a b => Quotient (EmptyFluxKiller a) (EmptyFluxKiller b)
  | OperatorBinding op field =>
      if interpolates_to_empty_boundary op then Constant 0
      else OperatorBinding op (EmptyFluxKiller field)
  end.

End EmptyFluxKiller.

(** *** ErrorChecker

    The mapper is built with a mesh or with [None]; of the mesh it reads
    [mesh.dim]. The class [DiffOperatorBase] and the attribute [xyz_axis]
    of its instances are code of [grudge/symbolic/operators.py], which is
    not among the sources: [DiffOperatorBase_xyz_axis op] is the axis of
    [op] when [op] is an instance of [DiffOperatorBase]. (The expressions
    here have no normal vectors, the other node the mapper checks.) *)

Record Mesh := { mesh_dim : nat }.

Definition nonexistent_axis : exn :=
  ValueError "optemplate tries to differentiate along a non-existent axis (e.g. Z in 2D)".

Section ErrorChecker.
Context (DiffOperatorBase_xyz_axis : Operator → option nat).

(** The check of [map_operator_binding] *)
Definition check_axis (mesh : option Mesh) (op : Operator) : result unit :=
  match DiffOperatorBase_xyz_axis op with
  | Some xyz_axis =>
      match mesh with
      | Some mesh => if (mesh_dim mesh <=? xyz_axis)%nat then Raise nonexistent_axis else Ok tt
      | None => Ok tt
      end
  | None => Ok tt
  end.

Fixpoint ErrorChecker (mesh : option Mesh) (e : expr) : result expr :=
  match e with
  | Constant _ | Var _ _ => Ok e
  | Sum children =>
      let? children := map_result (ErrorChecker mesh) children in
      Ok (Sum children)
  | Product children =>
      let? children := map_result (ErrorChecker mesh) children in
      Ok (Product children)
  | Quotient a b =>
      let? a := ErrorChecker mesh a in
      let? b := ErrorChecker mesh b in
      Ok (Quotient a b)
  | OperatorBinding op field =>
      let? _ := check_axis mesh op in
      let? field := ErrorChecker mesh field in
      Ok (OperatorBinding op field)
  end.

End ErrorChecker.

(** *** BoundOperatorCollector

    [op_class_test op] is [isinstance(op, self.op_class)]. The set the
    mapper returns is held as the list of its elements: [combine] is the
    concatenation, a leaf and the operator of a binding give the empty
    set. *)

Section BoundOperatorCollector.
Context (op_class_test : Operator → bool).

Fixpoint BoundOperatorCollector (e : expr) : list expr :=
  match e with
  | Constant _ | Var _ _ => []
  | Sum children | Product children => concat (map BoundOperatorCollector children)
  | Quotient a b => BoundOperatorCollector a ++ BoundOperatorCollector b
  | OperatorBinding op field =>
      (if op_class_test op then [e] else []) ++ ([] ++ BoundOperatorCollector field)
  end.

End BoundOperatorCollector.

End mappers.

Import op mappers.

(** ** The operator layer in the words of its specification *)

Module op_spec.

Section WithLibraries.
Context {num_lib : NumericLibrary} {elt_lib : ElementLibrary}.

(** The affine case: on every element, the reference inverse mass matrix
    applied to the field scaled by the reciprocal area element. *)
Definition apply_inverse_mass_affine (ref_Minv : matrix) (jac_inv x : matrix) : matrix :=
  imap (λ e x_e, matvec ref_Minv (hadamard (row jac_inv e) x_e)) x.

(** The weight-adjusted case: on every element,
    [ref_Minv · ref_M · (1/jac) · ref_Minv] applied to the field. *)
Definition apply_inverse_mass_wadg (ref_Minv ref_M : matrix) (jac_inv x : matrix)
  : matrix :=
  imap (λ e x_e,
          matvec ref_Minv (matvec ref_M (hadamard (row jac_inv e) (matvec ref_Minv x_e))))
       x.

Definition inverse_mass_affine (dcoll : DiscretizationCollection) (vec : DOFArray)
  : Actx value :=
  let discr := discr_from_dd dcoll DD_VOLUME in
  let jac_inv := dof_reciprocal (area_element dcoll DD_VOLUME) in
  let* data :=
    mapM (λ '(grp, jac_inv_i, vec_i),
            let* ref_Minv := reference_inverse_mass_matrix grp in
            let* ref_Minv := lift (as_matrix (payload ref_Minv)) in
            ret (apply_inverse_mass_affine ref_Minv jac_inv_i vec_i))
         (zip3 (groups discr) (dof_data jac_inv) (dof_data vec)) in
  ret (DOF {| entry_dtype := entry_dtype vec; dof_data := data |}).

Definition inverse_mass_wadg (dcoll : DiscretizationCollection) (vec : DOFArray)
  : Actx value :=
  let discr := discr_from_dd dcoll DD_VOLUME in
  let jac_inv := dof_reciprocal (area_element dcoll DD_VOLUME) in
  let* data :=
    mapM (λ '(grp, jac_inv_i, vec_i),
            let* ref_M := reference_mass_matrix grp grp in
            let* ref_Minv := reference_inverse_mass_matrix grp in
            let* ref_Minv := lift (as_matrix (payload ref_Minv)) in
            let* ref_M := lift (as_matrix (payload ref_M)) in
            ret (apply_inverse_mass_wadg ref_Minv ref_M jac_inv_i vec_i))
         (zip3 (groups discr) (dof_data jac_inv) (dof_data vec)) in
  ret (DOF {| entry_dtype := entry_dtype vec; dof_data := data |}).

(** The reductions that [norm] returns: the root of the sum of the
    squared norms of the entries, and the largest norm of the entries. *)
Fixpoint norm_2 (dcoll : DiscretizationCollection) (dd : DOFDesc) (vec : value) : Qc :=
  match vec with
  | ObjArray _ items =>
      sqrt (foldl (λ acc n, acc + n * n) 0 (map (norm_2 dcoll dd) items))
  | _ => nodal_norm_2 dcoll dd vec
  end.

Definition max_of (xs : list Qc) : Qc :=
  match xs with
  | [] => 0
  | x :: rest => foldl (λ a b, if bool_decide (a < b) then b else a) x rest
  end.

Fixpoint norm_inf (dcoll : DiscretizationCollection) (dd : DOFDesc) (vec : value) : Qc :=
  match vec with
  | ObjArray _ items => max_of (map (norm_inf dcoll dd) items)
  | _ => nodal_norm_inf dcoll dd vec
  end.

(** A field: a [DOFArray], a number, or an object array of fields that
    has at least one entry. *)
Fixpoint is_field (vec : value) : Prop :=
  match vec with
  | ObjArray _ items =>
      items ≠ [] ∧ foldr (λ item rest, is_field item ∧ rest) True items
  | _ => True
  end.

End WithLibraries.

End op_spec.

(** ** A small instance: two linear elements on an interval *)

Module Example.

Definition q (z : Z) : Qc := Py.int z.

(** The inverse of a matrix with one or two rows. *)
Definition inv_2x2 (m : matrix) : result matrix :=
  match m with
  | [[a]] =>
      if bool_decide (a = 0) then Raise (ValueError "Singular matrix")
      else Ok [[/ a]]
  | [[a; b]; [c; d]] =>
      let det := a * d - b * c in
      if bool_decide (det = 0) then Raise (ValueError "Singular matrix")
      else Ok [[d / det; - b / det]; [- c / det; a / det]]
  | _ => Raise (ValueError "matrix too large for this instance")
  end.

(** The square root of a rational need not be rational: the instance
    leaves its argument as it is. *)
Definition numeric : NumericLibrary :=
  {| linalg_inv := inv_2x2; sqrt := λ x, x |}.

(** The mass, inverse mass and differentiation matrices of the linear
    element on [[-1, 1]] with nodes [-1] and [1]. *)
Definition M_ref : matrix := [[q 2 / q 3; q 1 / q 3]; [q 1 / q 3; q 2 / q 3]].
Definition Minv_ref : matrix := [[q 2; q (-1)]; [q (-1); q 2]].
Definition D_ref : matrix := [[q (-1) / q 2; q 1 / q 2]; [q (-1) / q 2; q 1 / q 2]].

Definition element : ElementLibrary :=
  {| mass_matrix := λ _, M_ref;
     diff_matrices := λ _, [D_ref];
     inverse_mass_matrix := λ _ _, Minv_ref;
     quadrature_for_space := λ _ degree, {| weights := [q 2]; exact_to := degree |};
     nodal_mass_matrix_for_face := λ _ _ _ _ _ _, [[q 1]; [q 0]];
     nodal_quad_mass_matrix_for_face := λ _ _ _ _, [[q 1]; [q 0]] |}.

Definition coordinate (x : node) : Qc := at1 x 0.

(** The basis [1 - x], [x] is nodal on the nodes [0] and [1]. *)
Definition hat_functions : list (node → Qc) :=
  [λ x, 1 - coordinate x; λ x, coordinate x].

Definition make_group (ident : nat) (key : discretization_key_t) (affine : bool)
    (nodes : list node) (w : vector) : ElementGroup :=
  {| grp_ident := ident;
     discretization_key := key;
     index := 0;
     is_affine := affine;
     order := 1;
     nelements := 1;
     nunit_dofs := 2;
     unit_nodes := nodes;
     basis_functions := hat_functions;
     basis_gradients := [ScalarValued (λ _, q (-1)); ScalarValued (λ _, q 1)];
     quadrature_rule := {| weights := w; exact_to := 2 |};
     mesh_nfaces := 2;
     shape_faces := [{| face_index := 0 |}; {| face_index := 1 |}];
     is_QuadratureSimplexElementGroup := false;
     is_ElementGroupWithBasis := true;
     space_dim := 2 |}.

Definition out_group : ElementGroup :=
  make_group 1 ("PolynomialWarpAndBlendElementGroup", 1, 1)%nat true
    [[q 0]; [q 1]] [q 1 / q 2; q 1 / q 2].

Definition in_group : ElementGroup :=
  make_group 2 ("QuadratureSimplexElementGroup", 1, 2)%nat true
    [[q 1]; [q 2]] [q 3; q 5].

Definition curved_group : ElementGroup :=
  make_group 3 ("PolynomialWarpAndBlendElementGroup", 1, 1)%nat false
    [[q 0]; [q 1]] [q 1 / q 2; q 1 / q 2].

(** The group of the two end points of the element, as a face group. *)
Definition face_group : ElementGroup :=
  {| grp_ident := 4;
     discretization_key := ("PolynomialWarpAndBlendElementGroup", 0, 1)%nat;
     index := 0;
     is_affine := true;
     order := 1;
     nelements := 2;
     nunit_dofs := 1;
     unit_nodes := [[]];
     basis_functions := [λ _, q 1];
     basis_gradients := [];
     quadrature_rule := {| weights := [q 1]; exact_to := 2 |};
     mesh_nfaces := 0;
     shape_faces := [];
     is_QuadratureSimplexElementGroup := false;
     is_ElementGroupWithBasis := true;
     space_dim := 1 |}.

Definition empty_actx : ArrayContext :=
  {| _pytools_keyed_memoize_in_dict := ∅; next_obj_id := 0 |}.

Definition field (a b : Z) : DOFArray :=
  {| entry_dtype := float64; dof_data := [[[q a; q b]]] |}.

Definition collection (grp : ElementGroup) (ranks : list nat) : DiscretizationCollection :=
  {| dim := 1;
     ambient_dim := 1;
     discr_from_dd := λ _, {| groups := [grp] |};
     connection_from_dds := λ _ _ d, d;
     area_element := λ _, field 2 4;
     inverse_surface_metric_derivative := λ _ _ _, field 1 1;
     get_connected_partitions := ranks;
     get_distributed_boundary_swap_connection := λ _ d, d;
     nodal_norm_2 := λ _ _, q 5;
     nodal_norm_inf := λ _ _, q 4 |}.

Definition quiet : Communicator :=
  {| posted := []; incoming := λ _ _, [q 7; q 9] |}.

Definition geometry_area (ambient_dim : nat) (dim : Z) (dd : DOFDesc) : expr :=
  Var "area_element" dd.
Definition geometry_imd (rst_axis xyz_axis ambient_dim dim : nat) : expr :=
  Var "inverse_metric_derivative" DD_VOLUME.

Definition u : expr := Var "u" DD_VOLUME.
Definition v : expr := Var "v" DD_VOLUME.

(** A group whose two nodes coincide: its Vandermonde matrix is singular. *)
Definition degenerate_group : ElementGroup :=
  make_group 5 ("PolynomialWarpAndBlendElementGroup", 1, 3)%nat true
    [[q 0]; [q 0]] [q 1 / q 2; q 1 / q 2].

(** A face group on a quadrature grid whose rule is exact to degree [exact]. *)
Definition quadrature_face_group (exact : nat) : ElementGroup :=
  {| grp_ident := 6;
     discretization_key := ("QuadratureSimplexElementGroup", 0, 1)%nat;
     index := 0;
     is_affine := true;
     order := 1;
     nelements := 2;
     nunit_dofs := 1;
     unit_nodes := [[]];
     basis_functions := [λ _, q 1];
     basis_gradients := [];
     quadrature_rule := {| weights := [q 1]; exact_to := exact |};
     mesh_nfaces := 0;
     shape_faces := [];
     is_QuadratureSimplexElementGroup := true;
     is_ElementGroupWithBasis := true;
     space_dim := 1 |}.

(** The collection of one element of the group [grp] whose area element is
    [2] at both nodes, in [ambient] dimensions. *)
Definition constant_jacobian_collection (grp : ElementGroup) (ambient : nat)
  : DiscretizationCollection :=
  {| dim := 1;
     ambient_dim := ambient;
     discr_from_dd := λ _, {| groups := [grp] |};
     connection_from_dds := λ _ _ d, d;
     area_element := λ _, field 2 2;
     inverse_surface_metric_derivative := λ _ _ _, field 1 1;
     get_connected_partitions := [];
     get_distributed_boundary_swap_connection := λ _ d, d;
     nodal_norm_2 := λ _ _, q 5;
     nodal_norm_inf := λ _ _, q 4 |}.

End Example.


(** ** Vocabulary of the properties *)

(** The tag of a posted operation, if it has one, is [tag]. *)
Definition uses_tag (tag : Z) (ev : mpi_event) : Prop :=
  match ev with
  | Isend _ _ t | Irecv _ t => t = tag
  | Wait _ => True
  end.

(** [m] only appends to the posted operations, and what it appends uses
    [tag]. *)
Definition posts_with_tag {A} (tag : Z) (m : M Communicator A) : Prop :=
  ∀ comm r comm', m comm = (r, comm') →
    ∃ new, posted comm' = posted comm ++ new ∧ Forall (uses_tag tag) new.

(** [rec] returns on the expressions of size below [bound], and does not
    grow them. *)
Definition returns_below (rec : expr → bounded expr) (bound : nat) : Prop :=
  ∀ item, (size item < bound)%nat →
    ∃ x, rec item = Some x ∧ ∀ r, x = Ok r → (size r ≤ size item)%nat.

(** What a fold leaves among the non-constants: an expression that is not
    of the class being folded and that is not constant or cannot be
    evaluated. *)
Definition residual (klass : fold_class) (e : expr) : Prop :=
  children_of_class klass e = None ∧ (is_constant e = false ∨ evaluate e = Ok None).

(** The constant that the constructor of the class keeps in front. *)
Definition kept_constant (klass : fold_class) (c : Qc) : Prop :=
  match klass with
  | SumClass => c ≠ 0
  | ProductClass => c ≠ 0 ∧ c ≠ 1
  end.

(** The children of a folded sum or product: at least two, residual except
    for a constant that may come first. *)
Definition folded (klass : fold_class) (items : list expr) : Prop :=
  (2 ≤ length items)%nat
  ∧ ((∃ c rest, items = Constant c :: rest ∧ kept_constant klass c
                ∧ Forall (residual klass) rest)
     ∨ Forall (residual klass) items).

(** The expressions that constant folding produces. *)
Inductive folded_form : expr → Prop :=
| folded_Constant c : folded_form (Constant c)
| folded_Var name dd : folded_form (Var name dd)
| folded_Quotient a b : folded_form a → folded_form b → folded_form (Quotient a b)
| folded_OperatorBinding op field :
    folded_form field → is_zero field = false → folded_form (OperatorBinding op field)
| folded_Sum items :
    folded SumClass items → Forall folded_form items → folded_form (Sum items)
| folded_Product items :
    folded ProductClass items → Forall folded_form items → folded_form (Product items).


(** The bindings of an expression: every operator that is bound in it with
    the field it is bound to, the outer bindings first. *)
Fixpoint bindings (e : expr) : list (Operator * expr) :=
  match e with
  | Constant _ | Var _ _ => []
  | Sum children | Product children => concat (map bindings children)
  | Quotient a b => bindings a ++ bindings b
  | OperatorBinding op field => (op, field) :: bindings field
  end.

(** The operator classes that [GlobalToReferenceMapper] rewrites. *)
Definition is_global (c : op_class) : bool :=
  match c with
  | MassOperator | InverseMassOperator | FaceMassOperator
  | StiffnessOperator _ | DiffOperator _ | StiffnessTOperator _ | MInvSTOperator _ => true
  | _ => false
  end.

(** An expression in which no such operator is bound. *)
Definition reference_form (e : expr) : Prop :=
  Forall (λ binding, is_global (class_of binding.1) = false) (bindings e).

(** The flux operators that lift. *)
Definition is_lifting_flux (c : op_class) : bool :=
  match c with
  | FluxOperator _ true | BoundaryFluxOperator _ _ true => true
  | _ => false
  end.

(** A computation over the counter that returns, and does not decrease the
    counter. *)
Definition counts_up {A} (m : Counting A) : Prop :=
  ∀ n, ∃ r n', m n = (Ok r, n') ∧ (n ≤ n')%nat.

(** The value of an expression, given the values [ρ] of the variables and
    the action [φ] of the operators on values. *)
Fixpoint denote (ρ : string → DOFDesc → Qc) (φ : Operator → Qc → Qc) (e : expr) : Qc :=
  match e with
  | Constant c => c
  | Var name dd => ρ name dd
  | Sum children => foldr (λ c acc, denote ρ φ c + acc) 0 children
  | Product children => foldr (λ c acc, denote ρ φ c * acc) 1 children
  | Quotient a b => denote ρ φ a / denote ρ φ b
  | OperatorBinding op field => φ op (denote ρ φ field)
  end.

(** The value of the terms of a sum, or of the factors of a product. *)
Definition class_unit (klass : fold_class) : Qc :=
  match klass with SumClass => 0 | ProductClass => 1 end.

Definition denote_all (ρ : string → DOFDesc → Qc) (φ : Operator → Qc → Qc)
    (klass : fold_class) (items : list expr) : Qc :=
  foldr (λ c acc, fold_operator klass (denote ρ φ c) acc) (class_unit klass) items.

(** The value of the constants that a fold accumulates. *)
Definition constants_value (klass : fold_class) (cs : list Qc) : Qc :=
  foldr (fold_operator klass) (class_unit klass) cs.

(** What folding returns on an expression without variables and bindings:
    a division by zero, or an expression without them (a number, for a sum
    or a product). *)
Definition folds_closed (x : result expr) : Prop :=
  x = Raise ZeroDivisionError ∨ ∃ r, x = Ok r ∧ is_constant r = true.

Definition folds_to_number (x : result expr) : Prop :=
  x = Raise ZeroDivisionError ∨ ∃ c, x = Ok (Constant c).

(** The axis of a binding of a differentiation operator exists on the
    mesh. *)
Definition axis_exists (DiffOperatorBase_xyz_axis : Operator → option nat)
    (mesh : Mesh) (binding : Operator * expr) : Prop :=
  ∀ xyz_axis, DiffOperatorBase_xyz_axis binding.1 = Some xyz_axis →
    (xyz_axis < mesh_dim mesh)%nat.

Section RemoverVocabulary.
Context (upsampler_quadrature_tag : Operator → option quadrature_tag).
Context (quad_min_degrees : gmap quadrature_tag (option nat)).

(** A binding that is no upsampler, or an upsampler whose tag has a
    minimum degree. *)
Definition has_min_degree (binding : Operator * expr) : Prop :=
  ∀ quadrature, upsampler_quadrature_tag binding.1 = Some quadrature →
    ∃ min_degree, quad_min_degrees !! quadrature = Some (Some min_degree).

(** The tags of the upsamplers of an expression that the dictionary does
    not know, in the order of the bindings. *)
Definition missing_quadrature_tags (e : expr) : list quadrature_tag :=
  omap (λ binding : Operator * expr,
          match upsampler_quadrature_tag binding.1 with
          | Some quadrature =>
              match quad_min_degrees !! quadrature with
              | None => Some quadrature
              | Some _ => None
              end
          | None => None
          end)
       (bindings e).

(** The mapper returns [r] on [e], having warned about the unknown tags of
    [e] when it warns at all, and [r] keeps only upsamplers with a minimum
    degree. *)
Definition removes_to (e r : expr) : Prop :=
  (∀ do_warn warnings,
     QuadratureUpsamplerRemover upsampler_quadrature_tag quad_min_degrees do_warn e warnings
     = (Ok r, if do_warn then warnings ++ missing_quadrature_tags e else warnings))
  ∧ Forall has_min_degree (bindings r).

End RemoverVocabulary.

(** The descriptor of the boundary shared with rank [r]. *)
Definition partition_dd (r : nat) : DOFDesc :=
  mkDOFDesc (DTAG_BOUNDARY (BTAG_PARTITION r)) QTAG_NONE.

(** The tag of the messages of an exchange called with [tag]. *)
Definition exchange_tag (tag : option Z) : Z :=
  match tag with Some t => (base_tag + t)%Z | None => base_tag end.

(** The field [d] on the boundary shared with rank [r]. *)
Definition local_trace (dcoll : DiscretizationCollection) (d : DOFArray) (r : nat)
  : DOFArray :=
  connection_from_dds dcoll DD_VOLUME (partition_dd r) d.

(** The communication object of the [i]-th connected rank [r], when the
    first request of the exchange is [first_request]. *)
Definition communication (dcoll : DiscretizationCollection) (d : DOFArray)
    (tag : option Z) (first_request : nat) (i r : nat) : _RankBoundaryCommunication :=
  {| rbc_tag := exchange_tag tag;
     remote_rank_of := r;
     remote_btag := BTAG_PARTITION r;
     bdry_discr := discr_from_dd dcoll (partition_dd r);
     local_dof_array := local_trace dcoll d r;
     send_req := first_request + 2 * i;
     recv_req := first_request + 2 * i + 1 |}.

(** The trace pair with rank [r]: the local trace inside, and outside what
    rank [r] sent, swapped onto the local boundary. *)
Definition exchanged_pair (dcoll : DiscretizationCollection) (d : DOFArray)
    (tag : option Z) (incoming : nat → Z → vector) (r : nat) : TracePair :=
  {| tp_dd := partition_dd r;
     interior := DOF (local_trace dcoll d r);
     exterior :=
       DOF (get_distributed_boundary_swap_connection dcoll (partition_dd r)
              (unflatten (entry_dtype (local_trace dcoll d r))
                 (discr_from_dd dcoll (partition_dd r))
                 (incoming r (exchange_tag tag)))) |}.

(** The trace pair of a value that is not exchanged: the value on both
    sides. *)
Definition local_pair (x : value) (r : nat) : TracePair :=
  {| tp_dd := partition_dd r; interior := x; exterior := x |}.

Definition is_number (v : value) : Prop := ∃ x, v = Num x.

(** The dictionary [result] of [cross_rank_trace_pairs] after the pairs of
    entry [ivec] for the ranks [rs], and after those of the entries
    [items] from index [ivec] on, when no entry is exchanged. *)
Definition record_entry (ivec : nat) (x : value) (rs : list nat)
    (result : gmap (nat * nat) TracePair) : gmap (nat * nat) TracePair :=
  foldl (λ result r, <[(r, ivec) := local_pair x r]> result) result rs.

Fixpoint record_entries (ivec : nat) (items : list value) (rs : list nat)
    (result : gmap (nat * nat) TracePair) : gmap (nat * nat) TracePair :=
  match items with
  | [] => result
  | x :: items' => record_entries (S ivec) items' rs (record_entry ivec x rs result)
  end.

(** The inverse mass matrix of the reference element of a group. *)
Definition reference_inverse_of (g : ElementGroup) `{ElementLibrary} : matrix :=
  inverse_mass_matrix (basis_functions g) (unit_nodes g).

(** What the memoization dictionaries hold for the groups of [G]: the
    mass matrix and the inverse mass matrix of the group. *)
Definition cache_agrees `{ElementLibrary} (G : list ElementGroup) (actx : ArrayContext) : Prop :=
  ∀ g, g ∈ G →
    (∀ obj, cache_lookup fn_reference_mass_matrix
              (KeyTuple (discretization_key g) (discretization_key g)) actx = Some obj →
            payload obj = Array2 (mass_matrix g))
    ∧ (∀ obj, cache_lookup fn_reference_inverse_mass_matrix
                (OneKey (discretization_key g)) actx = Some obj →
              payload obj = Array2 (reference_inverse_of g)).

(** The matrices of two groups with the same key are the same. *)
Definition matrices_by_key `{ElementLibrary} (G : list ElementGroup) : Prop :=
  ∀ g h, g ∈ G → h ∈ G → discretization_key g = discretization_key h →
    mass_matrix g = mass_matrix h ∧ reference_inverse_of g = reference_inverse_of h.

(** The data of a field on a group and the area element there: every element
    has [nunit_dofs] values, and the area element is one nonzero number on
    the element. *)
Definition on_affine_group (g : ElementGroup) (jac_g u_g : matrix) : Prop :=
  ∀ e x, u_g !! e = Some x →
    length x = nunit_dofs g
    ∧ ∃ J, J ≠ 0 ∧ ∀ j, (j < nunit_dofs g)%nat → at2 jac_g e j = J.

(** Two fields with the same numbers of groups, elements and values. *)
Definition same_shape (u v : DOFArray) : Prop :=
  Forall2 (Forall2 (λ x y : vector, length x = length y)) (dof_data u) (dof_data v).

Section MassVocabulary.
Context {num_lib : NumericLibrary} {elt_lib : ElementLibrary}.

(** The step of [_apply_mass_operator] on one group. *)
Definition mass_step (item : ElementGroup * ElementGroup * matrix * matrix)
  : Actx matrix :=
  let '(in_grp, out_grp, ae_i, vec_i) := item in
  let* mass_mat := reference_mass_matrix out_grp in_grp in
  let* mass_mat := lift (as_matrix (payload mass_mat)) in
  ret (einsum_ij_ej_ej__ei mass_mat ae_i vec_i).

End MassVocabulary.


(** * Properties *)

(** Two computed structures are compared part by part; two rationals in
    canonical form are equal when their fractions are. *)
Ltac compare_computed :=
  vm_compute;
  repeat first [reflexivity | apply Qc_is_canon; reflexivity | f_equal].

(** ** Arrays and contractions *)

Section ArrayFacts.

Lemma at1_tabulate n (f : nat → Qc) i : (i < n)%nat → at1 (tabulate n f) i = f i.
Proof.
  intros Hi. unfold at1, tabulate.
  rewrite list_lookup_fmap, lookup_seq_lt by done. done.
Qed.

Lemma length_tabulate {A} n (f : nat → A) : length (tabulate n f) = n.
Proof. unfold tabulate. by rewrite length_fmap, length_seq. Qed.

Lemma row_tabulate2 r c f i : (i < r)%nat → row (tabulate2 r c f) i = tabulate c (f i).
Proof.
  intros Hi. unfold row, tabulate2. unfold tabulate at 1.
  rewrite list_lookup_fmap, lookup_seq_lt by done. done.
Qed.

Lemma at2_tabulate2 r c f i j :
  (i < r)%nat → (j < c)%nat → at2 (tabulate2 r c f) i j = f i j.
Proof.
  intros Hi Hj. unfold at2. fold (row (tabulate2 r c f) i).
  rewrite row_tabulate2 by done. by apply at1_tabulate.
Qed.

Lemma tabulate_ext {A} n (f g : nat → A) :
  (∀ i, (i < n)%nat → f i = g i) → tabulate n f = tabulate n g.
Proof.
  intros Hfg. unfold tabulate. apply list_eq. intros i.
  rewrite !list_lookup_fmap.
  destruct (decide (i < n)%nat) as [Hi|Hi].
  - rewrite lookup_seq_lt by done. simpl. by rewrite Hfg.
  - rewrite lookup_seq_ge by lia. done.
Qed.

Lemma sum_over_ext n f g :
  (∀ i, (i < n)%nat → f i = g i) → sum_over n f = sum_over n g.
Proof.
  induction n as [|n IH]; intros Hfg; simpl; [done|].
  rewrite IH, Hfg by (intros; try apply Hfg; lia). done.
Qed.

Lemma sum_over_mul_l n a f : a * sum_over n f = sum_over n (λ i, a * f i).
Proof. induction n as [|n IH]; simpl; [ring|]. rewrite <- IH. ring. Qed.

Lemma at1_matvec A v i :
  (i < nrows A)%nat → at1 (matvec A v) i = sum_over (length v) (λ j, at2 A i j * at1 v j).
Proof. intros Hi. unfold matvec. by rewrite at1_tabulate. Qed.

Lemma length_matvec A v : length (matvec A v) = nrows A.
Proof. apply length_tabulate. Qed.

Lemma at1_hadamard u v j :
  (j < length v)%nat → at1 (hadamard u v) j = at1 u j * at1 v j.
Proof. intros Hj. unfold hadamard. by rewrite at1_tabulate. Qed.

Lemma length_hadamard u v : length (hadamard u v) = length v.
Proof. apply length_tabulate. Qed.

(** The contraction ["ij,ej,ej->ei"] applies the matrix, on every element,
    to the entrywise product of the two rows. *)
Lemma einsum_affine_rows A u v :
  einsum_ij_ej_ej__ei A u v = op_spec.apply_inverse_mass_affine A u v.
Proof.
  unfold einsum_ij_ej_ej__ei, op_spec.apply_inverse_mass_affine.
  apply imap_ext. intros e v_e _. simpl.
  unfold matvec. rewrite length_hadamard. apply tabulate_ext. intros i Hi.
  apply sum_over_ext. intros j Hj. rewrite at1_hadamard by done.
  unfold at2 at 2, row. ring.
Qed.

(** The contraction ["ik,km,em,mj,ej->ei"] is the composition of three
    matrix-vector products around an entrywise scaling. *)
Lemma einsum_wadg_rows A B c x :
  einsum_ik_km_em_mj_ej__ei A B c A x = op_spec.apply_inverse_mass_wadg A B c x.
Proof.
  unfold einsum_ik_km_em_mj_ej__ei, op_spec.apply_inverse_mass_wadg.
  apply imap_ext. intros e x_e _. simpl.
  unfold matvec at 1. rewrite length_matvec. apply tabulate_ext. intros i Hi.
  apply sum_over_ext. intros k Hk.
  rewrite at1_matvec by done. rewrite length_hadamard, length_matvec.
  rewrite sum_over_mul_l. apply sum_over_ext. intros m Hm.
  rewrite at1_hadamard by (by rewrite length_matvec).
  rewrite at1_matvec by done.
  rewrite !sum_over_mul_l. apply sum_over_ext. intros j Hj.
  unfold at2 at 3, row. ring.
Qed.

End ArrayFacts.

(** ** Computations that raise *)

Section MonadFacts.

Lemma bind_ext {S A B} (m : M S A) (k k' : A → M S B) s :
  (∀ a s', k a s' = k' a s') → Py.bind m k s = Py.bind m k' s.
Proof. intros Hk. unfold Py.bind. destruct (m s) as [[a|e] s']; [apply Hk|done]. Qed.

Lemma bind_ext_l {S A B} (m m' : M S A) (k : A → M S B) s :
  m s = m' s → Py.bind m k s = Py.bind m' k s.
Proof. intros Hm. unfold Py.bind. by rewrite Hm. Qed.

Lemma mapM_ext {S A B} (f g : A → M S B) l :
  (∀ a s, f a s = g a s) → ∀ s, mapM f l s = mapM g l s.
Proof.
  intros Hfg. induction l as [|x xs IH]; intros s; simpl; [done|].
  unfold Py.bind. rewrite Hfg. destruct (g x s) as [[y|e] s']; [|done].
  rewrite IH. done.
Qed.

Lemma mapM_raises_at_head {S A B} (f : A → M S B) x xs s e :
  f x s = (Raise e, s) → mapM f (x :: xs) s = (Raise e, s).
Proof. intros Hf. simpl. unfold Py.bind. by rewrite Hf. Qed.

Lemma map_result_all_ok {A B} (f : A → result B) (g : A → B) l :
  Forall (λ a, f a = Ok (g a)) l → map_result f l = Ok (map g l).
Proof.
  induction 1 as [|a l Ha _ IH]; simpl; [done|].
  by rewrite Ha, IH.
Qed.

(** Induction on values, with the hypothesis on every entry of an object
    array. *)
Lemma value_ind_entries (P : value → Prop) :
  (∀ x, P (Num x)) →
  (∀ d, P (DOF d)) →
  (∀ shape items, Forall P items → P (ObjArray shape items)) →
  ∀ v, P v.
Proof.
  intros HNum HDOF HArr.
  fix IH 1. intros [x|d|shape items].
  - apply HNum.
  - apply HDOF.
  - apply HArr. induction items as [|item items IHitems]; constructor.
    + apply IH.
    + apply IHitems.
Qed.

End MonadFacts.

(** ** The reference matrices and their memoization *)

Section Memoization.
Context {num_lib : NumericLibrary} {elt_lib : ElementLibrary}.

Lemma keyed_memoize_in_miss {A} identifier (key : A → memo_key) inner args actx r actx' :
  cache_lookup identifier (key args) actx = None →
  inner args actx = (Ok r, actx') →
  keyed_memoize_in identifier key inner args actx
  = (Ok r, cache_store identifier (key args) r actx').
Proof. intros Hmiss Hinner. unfold keyed_memoize_in. by rewrite Hmiss, Hinner. Qed.

Lemma keyed_memoize_in_hit {A} identifier (key : A → memo_key) inner args actx cached :
  cache_lookup identifier (key args) actx = Some cached →
  keyed_memoize_in identifier key inner args actx = (Ok cached, actx).
Proof. intros Hhit. unfold keyed_memoize_in. by rewrite Hhit. Qed.

Lemma cache_lookup_store identifier key v actx :
  cache_lookup identifier key (cache_store identifier key v actx) = Some v.
Proof.
  unfold cache_lookup, cache_store. simpl.
  rewrite lookup_insert_eq. simpl. by rewrite lookup_insert_eq.
Qed.

(** The dictionaries of two identifiers do not interfere. *)
Lemma cache_lookup_store_other_identifier identifier identifier' key key' v actx :
  identifier ≠ identifier' →
  cache_lookup identifier' key' (cache_store identifier key v actx)
  = cache_lookup identifier' key' actx.
Proof.
  intros Hne. unfold cache_lookup, cache_store. simpl.
  by rewrite lookup_insert_ne.
Qed.

(** A successful memoized call leaves its result in the cache. *)
Lemma keyed_memoize_in_cached {A} identifier (key : A → memo_key) inner args actx r actx' :
  keyed_memoize_in identifier key inner args actx = (Ok r, actx') →
  cache_lookup identifier (key args) actx' = Some r.
Proof.
  unfold keyed_memoize_in.
  destruct (cache_lookup identifier (key args) actx) as [cached|] eqn:Hlook.
  - intros [= <- <-]. done.
  - destruct (inner args actx) as [[r'|e] actx''] eqn:Hinner; [|done].
    intros [= <- <-]. apply cache_lookup_store.
Qed.

(** A later request with an equal key returns the identical object and
    computes nothing: the array context is left as it was. *)
Lemma keyed_memoize_in_again {A} identifier (key : A → memo_key) inner inner'
    args args' actx r actx' :
  keyed_memoize_in identifier key inner args actx = (Ok r, actx') →
  key args' = key args →
  keyed_memoize_in identifier key inner' args' actx' = (Ok r, actx').
Proof.
  intros Hfirst Hkey. apply keyed_memoize_in_hit. rewrite Hkey.
  by eapply keyed_memoize_in_cached.
Qed.

Lemma reference_mass_matrix_again out_grp in_grp out_grp' in_grp' actx r actx' :
  reference_mass_matrix out_grp in_grp actx = (Ok r, actx') →
  discretization_key out_grp' = discretization_key out_grp →
  discretization_key in_grp' = discretization_key in_grp →
  reference_mass_matrix out_grp' in_grp' actx' = (Ok r, actx').
Proof.
  intros Hfirst Hout Hin. unfold reference_mass_matrix in *.
  eapply keyed_memoize_in_again; [exact Hfirst|].
  unfold key_of_pair. simpl. by rewrite Hout, Hin.
Qed.

Lemma reference_inverse_mass_matrix_again grp grp' actx r actx' :
  reference_inverse_mass_matrix grp actx = (Ok r, actx') →
  discretization_key grp' = discretization_key grp →
  reference_inverse_mass_matrix grp' actx' = (Ok r, actx').
Proof.
  intros Hfirst Hkey. unfold reference_inverse_mass_matrix in *.
  eapply keyed_memoize_in_again; [exact Hfirst|]. simpl. by rewrite Hkey.
Qed.

Lemma reference_stiffness_transpose_matrix_again
    out_grp in_grp out_grp' in_grp' actx r actx' :
  reference_stiffness_transpose_matrix out_grp in_grp actx = (Ok r, actx') →
  discretization_key out_grp' = discretization_key out_grp →
  discretization_key in_grp' = discretization_key in_grp →
  reference_stiffness_transpose_matrix out_grp' in_grp' actx' = (Ok r, actx').
Proof.
  intros Hfirst Hout Hin. unfold reference_stiffness_transpose_matrix in *.
  eapply keyed_memoize_in_again; [exact Hfirst|].
  unfold key_of_pair. simpl. by rewrite Hout, Hin.
Qed.

(** The face mass matrix is looked up in the dictionary of the mass matrix:
    after a request for the mass matrix of two groups, a request for the
    face mass matrix of groups with the same keys returns that mass
    matrix. *)
Lemma reference_face_mass_matrix_after_mass_matrix
    out_grp in_grp face_grp vol_grp dtype_ actx r actx' :
  reference_mass_matrix out_grp in_grp actx = (Ok r, actx') →
  discretization_key face_grp = discretization_key out_grp →
  discretization_key vol_grp = discretization_key in_grp →
  reference_face_mass_matrix face_grp vol_grp dtype_ actx' = (Ok r, actx').
Proof.
  intros Hfirst Hout Hin. unfold reference_mass_matrix, reference_face_mass_matrix in *.
  eapply keyed_memoize_in_again; [exact Hfirst|].
  unfold key_of_pair. simpl. by rewrite Hout, Hin.
Qed.

(** Two groups with different keys are different objects. *)
Lemma grp_eqb_false g h :
  (grp_ident g = grp_ident h → g = h) →
  discretization_key g ≠ discretization_key h →
  grp_eqb g h = false.
Proof.
  intros Hobj Hkey. unfold grp_eqb. apply Nat.eqb_neq. intros Hid.
  apply Hkey. by rewrite (Hobj Hid).
Qed.

(** C1 (as amended). For two element groups with differing discretization
    keys, the reference mass matrix that [reference_mass_matrix] computes
    (no entry being cached for the pair of keys) is the projection mass
    matrix [M[i,j] = Σ_k weights[j] · vand_inv_t[i,k] · other_vand[j,k]]:
    the weight is that of node [j] of the input group. [vand_inv_t] is the
    transposed inverse of the Vandermonde matrix of the basis of the output
    group at its own nodes, [other_vand] the Vandermonde matrix of that
    basis at the nodes of the input group, [weights] the quadrature weights
    of the input group. *)
Theorem reference_mass_matrix_projection (out_grp in_grp : ElementGroup)
    (actx : ArrayContext) (vand_inv : matrix) :
  (grp_ident out_grp = grp_ident in_grp → out_grp = in_grp) →
  discretization_key out_grp ≠ discretization_key in_grp →
  cache_lookup fn_reference_mass_matrix
    (KeyTuple (discretization_key out_grp) (discretization_key in_grp)) actx = None →
  linalg_inv (vandermonde (basis_functions out_grp) (unit_nodes out_grp)) = Ok vand_inv →
  let vand_inv_t := transpose vand_inv in
  let other_vand := vandermonde (basis_functions out_grp) (unit_nodes in_grp) in
  let weights := weights (quadrature_rule in_grp) in
  ∃ (M : matrix) (actx' : ArrayContext),
    reference_mass_matrix out_grp in_grp actx
    = (Ok {| obj_id := next_obj_id actx; frozen := true; payload := Array2 M |}, actx')
    ∧ nrows M = nrows vand_inv_t
    ∧ ∀ i j, (i < nrows vand_inv_t)%nat → (j < length weights)%nat →
        length (row M i) = length weights
        ∧ at2 M i j
          = sum_over (ncols vand_inv_t)
              (λ k, at1 weights j * at2 vand_inv_t i k * at2 other_vand j k).
Proof.
  intros Hobj Hkey Hmiss Hinv vand_inv_t other_vand w.
  eexists _, _. split; [|split].
  - unfold reference_mass_matrix.
    erewrite keyed_memoize_in_miss; [reflexivity|exact Hmiss|].
    simpl. unfold get_ref_mass_mat.
    rewrite (grp_eqb_false _ _ Hobj Hkey).
    unfold Py.bind, lift. rewrite Hinv. reflexivity.
  - unfold einsum_j_ik_jk__ij, tabulate2, nrows. by rewrite length_tabulate.
  - intros i j Hi Hj. unfold einsum_j_ik_jk__ij. split.
    + rewrite row_tabulate2 by done. by rewrite length_tabulate.
    + by rewrite at2_tabulate2.
Qed.

End Memoization.

Lemma reference_mass_matrix_projection_witness :
  ∃ (M : matrix) (actx' : ArrayContext),
    reference_mass_matrix (num_lib:=Example.numeric) (elt_lib:=Example.element)
      Example.out_group Example.in_group Example.empty_actx
    = (Ok {| obj_id := 0; frozen := true; payload := Array2 M |}, actx')
    ∧ at2 M 0 1 = Example.q (-5).
Proof.
  destruct (reference_mass_matrix_projection
              (num_lib:=Example.numeric) (elt_lib:=Example.element)
              Example.out_group Example.in_group Example.empty_actx
              [[Example.q 1; Example.q 0]; [Example.q 0; Example.q 1]])
    as (M & actx' & Hcall & Hrows & Hentries).
  - intros Hid. vm_compute in Hid. discriminate.
  - intros Hk. vm_compute in Hk. discriminate.
  - reflexivity.
  - vm_compute. reflexivity.
  - exists M, actx'. split; [exact Hcall|].
    destruct (Hentries 0%nat 1%nat) as [_ ->]; [vm_compute; lia..|].
    vm_compute. reflexivity.
Defined.

(** The formula with the weight indexed by the summation index [k] does not
    describe the computed matrix: on the two example groups the entry
    [(0, 1)] is [-5], and the formula gives [-3]. *)
Lemma reference_mass_matrix_weights_by_k_counterexample :
  let out_grp := Example.out_group in
  let in_grp := Example.in_group in
  let vand_inv_t :=
    transpose [[Example.q 1; Example.q 0]; [Example.q 0; Example.q 1]] in
  let other_vand := vandermonde (basis_functions out_grp) (unit_nodes in_grp) in
  let weights := weights (quadrature_rule in_grp) in
  Example.inv_2x2 (vandermonde (basis_functions out_grp) (unit_nodes out_grp))
  = Ok [[Example.q 1; Example.q 0]; [Example.q 0; Example.q 1]]
  ∧ ∃ (M : matrix) (actx' : ArrayContext),
      reference_mass_matrix (num_lib:=Example.numeric) (elt_lib:=Example.element)
        out_grp in_grp Example.empty_actx
      = (Ok {| obj_id := 0; frozen := true; payload := Array2 M |}, actx')
      ∧ at2 M 0 1
        ≠ sum_over (ncols vand_inv_t)
            (λ k, at1 weights k * at2 vand_inv_t 0 k * at2 other_vand 1 k).
Proof.
  split; [vm_compute; reflexivity|].
  eexists _, _. split; [vm_compute; reflexivity|].
  vm_compute. intros Heq. discriminate Heq.
Qed.

(** C5 (the code departs from the claim). On the example groups, a request
    for the face mass matrix on a fresh array context computes an array
    with three axes; after the mass matrix of the same two groups was
    requested, the request for the face mass matrix returns the cached mass
    matrix, because both kinds are memoized under the identifier
    [reference_mass_matrix]. *)
Theorem reference_face_mass_matrix_returns_mass_matrix :
  let face_grp := Example.face_group in
  let vol_grp := Example.out_group in
  let mass_request :=
    reference_mass_matrix (num_lib:=Example.numeric) (elt_lib:=Example.element)
      face_grp vol_grp Example.empty_actx in
  let face_mass_request :=
    reference_face_mass_matrix (elt_lib:=Example.element)
      face_grp vol_grp float64 (snd mass_request) in
  fst (reference_face_mass_matrix (elt_lib:=Example.element)
         face_grp vol_grp float64 Example.empty_actx)
  = Ok {| obj_id := 0; frozen := true;
          payload := Array3 [[[Example.q 1]; [Example.q 1]];
                             [[Example.q 0]; [Example.q 0]]] |}
  ∧ fst mass_request
    = Ok {| obj_id := 0; frozen := true;
            payload := Array2 [[Example.q 1 / Example.q 2; Example.q 1 / Example.q 2]] |}
  ∧ fst face_mass_request = fst mass_request.
Proof. vm_compute. repeat split. Qed.

(** ** The inverse mass operator *)

Section InverseMass.
Context {num_lib : NumericLibrary} {elt_lib : ElementLibrary}.

(** C2. On a field, [inverse_mass] applies on every element the reference
    inverse mass matrix to the field scaled by the reciprocal area element
    when every element group of the volume discretization is affine, and
    otherwise applies [ref_Minv · ref_M · (1/jac) · ref_Minv]. *)
Theorem inverse_mass_affine_or_wadg (dcoll : DiscretizationCollection)
    (vec : DOFArray) (actx : ArrayContext) :
  inverse_mass dcoll (DOF vec) actx
  = if forallb is_affine (groups (discr_from_dd dcoll DD_VOLUME))
    then op_spec.inverse_mass_affine dcoll vec actx
    else op_spec.inverse_mass_wadg dcoll vec actx.
Proof.
  simpl. unfold _apply_inverse_mass_operator.
  rewrite bool_decide_eq_true_2 by done. simpl.
  destruct (forallb is_affine (groups (discr_from_dd dcoll DD_VOLUME))); simpl.
  - unfold op_spec.inverse_mass_affine.
    unfold Py.bind at 1. simpl.
    apply bind_ext_l. apply mapM_ext. intros [[grp iae_i] vec_i] s.
    apply bind_ext. intros ref_Minv s'. apply bind_ext. intros Minv s''.
    by rewrite einsum_affine_rows.
  - unfold op_spec.inverse_mass_wadg.
    unfold Py.bind at 1. simpl.
    apply bind_ext_l. apply mapM_ext. intros [[grp jac_inv] x] s.
    apply bind_ext. intros ref_M s'. apply bind_ext. intros ref_Minv s''.
    apply bind_ext. intros Minv s3. apply bind_ext. intros Mref s4.
    by rewrite einsum_wadg_rows.
Qed.

End InverseMass.

(** The two cases on the example element: a field [(1, 2)] with area
    element [(2, 4)]. *)
Example inverse_mass_affine_example :
  fst (inverse_mass (num_lib:=Example.numeric) (elt_lib:=Example.element)
         (Example.collection Example.out_group []) (DOF (Example.field 1 2))
         Example.empty_actx)
  = Ok (DOF {| entry_dtype := float64;
               dof_data := [[[Example.q 1 / Example.q 2; Example.q 1 / Example.q 2]]] |}).
Proof. compare_computed. Qed.

Example inverse_mass_wadg_example :
  fst (inverse_mass (num_lib:=Example.numeric) (elt_lib:=Example.element)
         (Example.collection Example.curved_group []) (DOF (Example.field 1 2))
         Example.empty_actx)
  = Ok (DOF {| entry_dtype := float64;
               dof_data := [[[Example.q 0; Example.q 3 / Example.q 4]]] |}).
Proof. compare_computed. Qed.

(** ** Numbers and object arrays *)

Section NumbersAndArrays.
Context {num_lib : NumericLibrary} {elt_lib : ElementLibrary}.

Lemma _compute_local_gradient_not_dofarray dcoll vec xyz_axis actx :
  (∀ d, vec ≠ DOF d) →
  _compute_local_gradient dcoll vec xyz_axis actx
  = (Raise (AttributeError "array_context"), actx).
Proof. intros Hvec. destruct vec; [done|by destruct (Hvec d)|done]. Qed.

Lemma _apply_stiffness_transpose_operator_not_dofarray dcoll dd_out dd_in vec xyz_axis actx :
  (∀ d, vec ≠ DOF d) →
  _apply_stiffness_transpose_operator dcoll dd_out dd_in vec xyz_axis actx
  = (Raise (AttributeError "array_context"), actx).
Proof. intros Hvec. destruct vec; [done|by destruct (Hvec d)|done]. Qed.

Lemma local_grad_not_dofarray dcoll vec actx :
  (∀ d, vec ≠ DOF d) →
  local_grad dcoll vec actx
  = match dim dcoll with
    | O => (Ok (ObjArray [0%nat] []), actx)
    | S _ => (Raise (AttributeError "array_context"), actx)
    end.
Proof.
  intros Hvec. unfold local_grad. destruct (dim dcoll) as [|n]; [done|].
  unfold Py.bind at 1. rewrite <- cons_seq.
  erewrite mapM_raises_at_head; [done|].
  unfold Py.bind. by rewrite _compute_local_gradient_not_dofarray.
Qed.

Lemma weak_local_grad_not_dofarray dcoll dd vec actx :
  (∀ d, vec ≠ DOF d) →
  weak_local_grad dcoll (args_dd_vec dd vec) actx
  = match dim dcoll with
    | O => (Ok (ObjArray [0%nat] []), actx)
    | S _ => (Raise (AttributeError "array_context"), actx)
    end.
Proof.
  intros Hvec. unfold weak_local_grad. destruct (dim dcoll) as [|n]; [done|].
  unfold Py.bind at 1. rewrite <- cons_seq.
  erewrite mapM_raises_at_head; [done|].
  unfold Py.bind. by rewrite _apply_stiffness_transpose_operator_not_dofarray.
Qed.

(** What [obj_array_vectorize] returns when the function succeeds on every
    entry: an object array of the same shape that holds the results in
    order. *)
Lemma vectorize_items_ok {S} (f : value → M S value) shape items results s s' :
  mapM f items s = (Ok results, s') →
  vectorize_items f shape items s = (Ok (ObjArray shape results), s').
Proof. intros Hmap. unfold vectorize_items, Py.bind. by rewrite Hmap. Qed.

(** C6 (as amended). [mass], [inverse_mass] and [face_mass] map the entries
    of an object array; no operator passes a plain number through: [mass],
    [inverse_mass] and [face_mass] raise an attribute error on it, the two
    divergences a type error, and the two gradients an attribute error (in
    a positive dimension); the gradients raise on an object array too. *)
Theorem operators_on_arrays_and_scalars (dcoll : DiscretizationCollection) (dd : DOFDesc) :
  (∀ shape items,
     mass dcoll (args_dd_vec dd (ObjArray shape items))
     = vectorize_items (λ el, mass dcoll (args_dd_vec dd el)) shape items
     ∧ inverse_mass dcoll (ObjArray shape items)
       = vectorize_items (inverse_mass dcoll) shape items
     ∧ face_mass dcoll (args_dd_vec dd (ObjArray shape items))
       = vectorize_items (λ el, face_mass dcoll (args_dd_vec dd el)) shape items)
  ∧ (∀ x actx,
       mass dcoll (args_dd_vec dd (Num x)) actx
       = (Raise (AttributeError "array_context"), actx)
       ∧ inverse_mass dcoll (Num x) actx = (Raise (AttributeError "array_context"), actx)
       ∧ face_mass dcoll (args_dd_vec dd (Num x)) actx
         = (Raise (AttributeError "entry_dtype"), actx)
       ∧ local_div dcoll (Num x) actx
         = (Raise (TypeError "argument must be an object array"), actx)
       ∧ weak_local_div dcoll (args_dd_vec dd (Num x)) actx
         = (Raise (TypeError "argument must be an object array"), actx)
       ∧ ((0 < dim dcoll)%nat →
            local_grad dcoll (Num x) actx = (Raise (AttributeError "array_context"), actx)
            ∧ weak_local_grad dcoll (args_dd_vec dd (Num x)) actx
              = (Raise (AttributeError "array_context"), actx)))
  ∧ (∀ shape items actx, (0 < dim dcoll)%nat →
       local_grad dcoll (ObjArray shape items) actx
       = (Raise (AttributeError "array_context"), actx)
       ∧ weak_local_grad dcoll (args_dd_vec dd (ObjArray shape items)) actx
         = (Raise (AttributeError "array_context"), actx)).
Proof.
  split; [|split].
  - intros shape items. repeat split.
  - intros x actx. repeat split; try reflexivity.
    + rewrite local_grad_not_dofarray by done. destruct (dim dcoll); [lia|done].
    + rewrite weak_local_grad_not_dofarray by done. destruct (dim dcoll); [lia|done].
  - intros shape items actx Hdim. split.
    + rewrite local_grad_not_dofarray by done. destruct (dim dcoll); [lia|done].
    + rewrite weak_local_grad_not_dofarray by done. destruct (dim dcoll); [lia|done].
Qed.

End NumbersAndArrays.

Lemma operators_on_arrays_and_scalars_witness :
  let dcoll := Example.collection Example.out_group [] in
  local_grad (elt_lib:=Example.element) dcoll (Num (Example.q 3)) Example.empty_actx
  = (Raise (AttributeError "array_context"), Example.empty_actx)
  ∧ mass (num_lib:=Example.numeric) (elt_lib:=Example.element) dcoll
      (args_dd_vec DD_VOLUME (Num (Example.q 3))) Example.empty_actx
    = (Raise (AttributeError "array_context"), Example.empty_actx).
Proof.
  intros dcoll.
  destruct (operators_on_arrays_and_scalars (num_lib:=Example.numeric)
              (elt_lib:=Example.element) dcoll DD_VOLUME) as (_ & Hnum & _).
  destruct (Hnum (Example.q 3) Example.empty_actx) as (Hmass & _ & _ & _ & _ & Hgrad).
  split; [|exact Hmass].
  apply Hgrad. simpl. lia.
Defined.

(** [mass] does not return the number [3] that it is given. *)
Lemma mass_of_number_counterexample :
  fst (mass (num_lib:=Example.numeric) (elt_lib:=Example.element)
         (Example.collection Example.out_group [])
         (args_vec (Num (Example.q 3))) Example.empty_actx)
  ≠ Ok (Num (Example.q 3)).
Proof. vm_compute. discriminate. Qed.

(** On an object array of two fields, [mass] returns the array of the two
    results. *)
Example mass_of_object_array :
  fst (mass (num_lib:=Example.numeric) (elt_lib:=Example.element)
         (Example.collection Example.out_group [])
         (args_vec (ObjArray [2%nat] [DOF (Example.field 1 2); DOF (Example.field 0 0)]))
         Example.empty_actx)
  = Ok (ObjArray [2%nat]
          [DOF {| entry_dtype := float64;
                  dof_data := [[[Example.q 4; Example.q 6]]] |};
           DOF {| entry_dtype := float64;
                  dof_data := [[[Example.q 0; Example.q 0]]] |}]).
Proof. compare_computed. Qed.

(** ** Projection *)

Section Projection.

Lemma project_dofdesc_same dcoll dd vec : project_dofdesc dcoll dd dd vec = vec.
Proof. destruct vec; simpl; by rewrite decide_True. Qed.

Lemma project_dofdesc_number dcoll src tgt x :
  project_dofdesc dcoll src tgt (Num x) = Num x.
Proof. simpl. by destruct (decide (src = tgt)). Qed.

(** C10. When the two descriptors normalize to the same descriptor,
    [project] returns its input (a [DOFArray], an object array or a number)
    unchanged; and it returns a plain number unchanged whatever the two
    descriptors are. *)
Theorem project_same_descriptor_or_number (dcoll : DiscretizationCollection)
    (src tgt : dd_like) (src_dd tgt_dd : DOFDesc) :
  as_dofdesc src = Ok src_dd →
  as_dofdesc tgt = Ok tgt_dd →
  (src_dd = tgt_dd → ∀ vec, project dcoll src tgt vec = Ok vec)
  ∧ (∀ x, project dcoll src tgt (Num x) = Ok (Num x)).
Proof.
  intros Hsrc Htgt. unfold project. rewrite Hsrc, Htgt.
  cbn [result_bind]. split.
  - intros -> vec. by rewrite project_dofdesc_same.
  - intros x. by rewrite project_dofdesc_number.
Qed.

End Projection.

Lemma project_same_descriptor_or_number_witness :
  project (Example.collection Example.out_group []) (OfString "vol") (OfDomainTag DTAG_VOLUME_ALL)
    (ObjArray [2%nat] [DOF (Example.field 1 2); Num (Example.q 3)])
  = Ok (ObjArray [2%nat] [DOF (Example.field 1 2); Num (Example.q 3)])
  ∧ project (Example.collection Example.out_group []) (OfString "vol") (OfString "all_faces")
      (Num (Example.q 3))
    = Ok (Num (Example.q 3)).
Proof.
  split.
  - apply (project_same_descriptor_or_number _ (OfString "vol") (OfDomainTag DTAG_VOLUME_ALL)
             DD_VOLUME DD_VOLUME); reflexivity.
  - apply (project_same_descriptor_or_number _ (OfString "vol") (OfString "all_faces")
             DD_VOLUME (mkDOFDesc FACE_RESTR_ALL QTAG_NONE)); reflexivity.
Defined.

(** ** Norms *)

Section Norms.
Context {num_lib : NumericLibrary} {elt_lib : ElementLibrary}.

Lemma norm_dd_unsupported dcoll vec p dd :
  p ≠ p_num (Py.int 2) → p ≠ np_inf → norm_dd dcoll vec p dd = Raise unsupported_norm_order.
Proof.
  intros H2 Hinf. destruct p as [q|]; [|done].
  assert (q ≠ Py.int 2) as Hq by congruence.
  destruct vec; cbn [norm_dd]; unfold _norm; by rewrite bool_decide_eq_false_2.
Qed.

Lemma norm_dd_2 dcoll vec dd :
  norm_dd dcoll vec (p_num (Py.int 2)) dd = Ok (op_spec.norm_2 dcoll dd vec).
Proof.
  induction vec as [x|d|shape items IH] using value_ind_entries;
    [cbn [norm_dd op_spec.norm_2]; unfold _norm; by rewrite bool_decide_eq_true_2..|].
  cbn [norm_dd op_spec.norm_2]. rewrite bool_decide_eq_true_2 by done.
  by rewrite (map_result_all_ok _ (op_spec.norm_2 dcoll dd)).
Qed.

Lemma is_field_entries shape items :
  op_spec.is_field (ObjArray shape items) →
  items ≠ [] ∧ Forall op_spec.is_field items.
Proof.
  simpl. intros [Hne Hall]. split; [done|].
  clear Hne. induction items as [|item items IH]; constructor; simpl in Hall; tauto.
Qed.

Lemma norm_dd_inf dcoll vec dd :
  op_spec.is_field vec →
  norm_dd dcoll vec np_inf dd = Ok (op_spec.norm_inf dcoll dd vec).
Proof.
  induction vec as [x|d|shape items IH] using value_ind_entries; [done..|].
  intros [Hne Hfields]%is_field_entries.
  cbn [norm_dd op_spec.norm_inf].
  rewrite (map_result_all_ok _ (op_spec.norm_inf dcoll dd)).
  - simpl. destruct items; [done|]. done.
  - rewrite list.Forall_forall in *. intros item Hin. apply IH; auto.
Qed.

(** C9. [norm] raises the "unsupported norm order" error for every order
    other than 2 and infinity, and returns the corresponding reduction of
    the field for the order 2 and for the order infinity. *)
Theorem norm_supported_orders (dcoll : DiscretizationCollection) (vec : value)
    (p : norm_order) (dd : option dd_like) (dd' : DOFDesc) :
  as_dofdesc (match dd with None => OfString "vol" | Some dd => dd end) = Ok dd' →
  (p ≠ p_num (Py.int 2) → p ≠ np_inf →
     norm dcoll vec p dd = Raise (ValueError "unsupported norm order"))
  ∧ (p = p_num (Py.int 2) → norm dcoll vec p dd = Ok (op_spec.norm_2 dcoll dd' vec))
  ∧ (p = np_inf → op_spec.is_field vec →
       norm dcoll vec p dd = Ok (op_spec.norm_inf dcoll dd' vec)).
Proof.
  intros Hdd. unfold norm. rewrite Hdd. cbn [result_bind]. split; [|split].
  - apply norm_dd_unsupported.
  - intros ->. apply norm_dd_2.
  - intros ->. apply norm_dd_inf.
Qed.

End Norms.

Lemma norm_supported_orders_witness :
  let dcoll := Example.collection Example.out_group [] in
  let vec := ObjArray [2%nat] [DOF (Example.field 3 4); DOF (Example.field 1 2)] in
  norm (num_lib:=Example.numeric) dcoll vec (p_num (Example.q 3)) None
  = Raise (ValueError "unsupported norm order")
  ∧ norm (num_lib:=Example.numeric) dcoll vec (p_num (Example.q 2)) None = Ok (Example.q 50)
  ∧ norm (num_lib:=Example.numeric) dcoll vec np_inf None = Ok (Example.q 4).
Proof.
  intros dcoll vec.
  destruct (norm_supported_orders (num_lib:=Example.numeric) dcoll vec (p_num (Example.q 3))
              None DD_VOLUME eq_refl) as (Hother & _ & _).
  destruct (norm_supported_orders (num_lib:=Example.numeric) dcoll vec (p_num (Example.q 2))
              None DD_VOLUME eq_refl) as (_ & Htwo & _).
  destruct (norm_supported_orders (num_lib:=Example.numeric) dcoll vec np_inf
              None DD_VOLUME eq_refl) as (_ & _ & Hinf).
  split; [|split].
  - apply Hother; intros Heq; vm_compute in Heq; discriminate Heq.
  - rewrite Htwo by reflexivity. vm_compute. reflexivity.
  - rewrite Hinf; [vm_compute; reflexivity|reflexivity|].
    simpl. split; [discriminate|tauto].
Defined.

(** ** The exchange of trace pairs across ranks *)

Section Exchange.

Lemma posts_with_tag_ret {A} tag (a : A) : posts_with_tag tag (ret a).
Proof. intros comm r comm' [= <- <-]. exists []. by rewrite app_nil_r. Qed.

Lemma posts_with_tag_raise {A} tag e : posts_with_tag tag (raise (A:=A) e).
Proof. intros comm r comm' [= <- <-]. exists []. by rewrite app_nil_r. Qed.

Lemma posts_with_tag_lift {A} tag (x : result A) : posts_with_tag tag (lift x).
Proof. intros comm r comm' [= <- <-]. exists []. by rewrite app_nil_r. Qed.

Lemma posts_with_tag_bind {A B} tag (m : M Communicator A) (k : A → M Communicator B) :
  posts_with_tag tag m → (∀ a, posts_with_tag tag (k a)) →
  posts_with_tag tag (Py.bind m k).
Proof.
  intros Hm Hk comm r comm'. unfold Py.bind.
  destruct (m comm) as [[a|e] comm1] eqn:Hrun.
  - intros Hrun'. destruct (Hm _ _ _ Hrun) as (new1 & Hp1 & Hall1).
    destruct (Hk a _ _ _ Hrun') as (new2 & Hp2 & Hall2).
    exists (new1 ++ new2). split.
    + by rewrite Hp2, Hp1, app_assoc.
    + by apply Forall_app.
  - intros [= <- <-]. by apply (Hm _ _ _ Hrun).
Qed.

Lemma posts_with_tag_mapM {A B} tag (f : A → M Communicator B) l :
  (∀ a, posts_with_tag tag (f a)) → posts_with_tag tag (mapM f l).
Proof.
  intros Hf. induction l as [|x xs IH]; simpl.
  - apply posts_with_tag_ret.
  - apply posts_with_tag_bind; [apply Hf|]. intros y.
    apply posts_with_tag_bind; [apply IH|]. intros ys. apply posts_with_tag_ret.
Qed.

Lemma posts_with_tag_post tag ev : uses_tag tag ev → posts_with_tag tag (post ev).
Proof.
  intros Hev comm r comm' [= <- <-]. exists [ev]. simpl. split; [done|].
  by constructor.
Qed.

Lemma posts_with_tag_wait tag request : posts_with_tag tag (wait request).
Proof.
  intros comm r comm' [= <- <-]. exists [Wait request]. simpl. split; [done|].
  by constructor.
Qed.

Lemma posts_with_tag_receive_buffer tag source t :
  posts_with_tag tag (receive_buffer source t).
Proof. intros comm r comm' [= <- <-]. exists []. by rewrite app_nil_r. Qed.

Lemma _RankBoundaryCommunication__init___tag dcoll remote_rank vol_field tag :
  posts_with_tag (match tag with Some t => base_tag + t | None => base_tag end)%Z
    (_RankBoundaryCommunication__init__ dcoll remote_rank vol_field tag).
Proof.
  unfold _RankBoundaryCommunication__init__.
  apply posts_with_tag_bind; [apply posts_with_tag_lift|]. intros _.
  apply posts_with_tag_bind; [apply posts_with_tag_lift|]. intros projected.
  apply posts_with_tag_bind; [apply posts_with_tag_lift|]. intros local.
  apply posts_with_tag_bind; [by apply posts_with_tag_post|]. intros send.
  apply posts_with_tag_bind; [by apply posts_with_tag_post|]. intros recv.
  apply posts_with_tag_ret.
Qed.

Lemma finish_tag dcoll self tag : posts_with_tag tag (finish dcoll self).
Proof.
  unfold finish.
  apply posts_with_tag_bind; [apply posts_with_tag_wait|]. intros _.
  apply posts_with_tag_bind; [apply posts_with_tag_receive_buffer|]. intros buf.
  apply posts_with_tag_bind; [apply posts_with_tag_wait|]. intros _.
  apply posts_with_tag_ret.
Qed.

Lemma _cross_rank_trace_pairs_scalar_field_tag dcoll vec tag :
  posts_with_tag (match tag with Some t => base_tag + t | None => base_tag end)%Z
    (_cross_rank_trace_pairs_scalar_field dcoll vec tag).
Proof.
  assert (posts_with_tag (match tag with Some t => base_tag + t | None => base_tag end)%Z
            (let* rbcomms :=
               mapM (λ remote_rank,
                       _RankBoundaryCommunication__init__ dcoll remote_rank vec tag)
                    (connected_ranks dcoll) in
             mapM (finish dcoll) rbcomms)) as Hcomm.
  { apply posts_with_tag_bind.
    - apply posts_with_tag_mapM. intros rank.
      apply _RankBoundaryCommunication__init___tag.
    - intros rbcomms. apply posts_with_tag_mapM. intros self. apply finish_tag. }
  destruct vec; [apply posts_with_tag_ret|exact Hcomm..].
Qed.

(** A field that is not an object array is exchanged under the base tag
    offset by the tag of the caller. *)
Lemma cross_rank_trace_pairs_single_field_tag dcoll vec t :
  (∀ shape items, vec ≠ ObjArray shape items) →
  posts_with_tag (1273 + t)%Z (cross_rank_trace_pairs dcoll vec (Some t)).
Proof.
  intros Hvec. destruct vec as [x|d|shape items].
  - apply (_cross_rank_trace_pairs_scalar_field_tag dcoll (Num x) (Some t)).
  - apply (_cross_rank_trace_pairs_scalar_field_tag dcoll (DOF d) (Some t)).
  - by destruct (Hvec shape items).
Qed.

End Exchange.

(** C8 (the code departs from the claim). With one neighbouring rank and
    the tag [5], the exchange of a single field uses the tag [1278], and
    the exchange of an object array with that field as its only entry uses
    the base tag [1273]: the tag of the caller is not handed on to the
    exchange of the entries. *)
Theorem cross_rank_trace_pairs_object_array_drops_tag :
  let dcoll := Example.collection Example.out_group [1%nat] in
  let u := DOF (Example.field 1 2) in
  posted (snd (cross_rank_trace_pairs dcoll (ObjArray [1%nat] [u]) (Some 5%Z) Example.quiet))
  = [Isend [Example.q 1; Example.q 2] 1 1273; Irecv 1 1273; Wait 1; Wait 0]
  ∧ posted (snd (cross_rank_trace_pairs dcoll u (Some 5%Z) Example.quiet))
    = [Isend [Example.q 1; Example.q 2] 1 1278; Irecv 1 1278; Wait 1; Wait 0].
Proof. split; compare_computed. Qed.

(** ** The mapper from global to reference operators, and the contraction
    of inverse mass operators *)

Section GlobalToReference.
Context (area_element : nat → Z → DOFDesc → expr).
Context (inverse_metric_derivative : nat → nat → nat → nat → expr).
Context (ambient_dim dim : nat).

Abbreviation G2R := (GlobalToReferenceMapper area_element inverse_metric_derivative ambient_dim dim).

(** The mapper on the bindings that two of its branches build and re-enter. *)
Lemma GlobalToReferenceMapper_diff_of_field xyz_axis field :
  G2R (call (default_operator (DiffOperator xyz_axis)) field)
  = if is_zero field then field
    else rewrite_derivative area_element inverse_metric_derivative ambient_dim dim
           xyz_axis RefDiffOperator (G2R field) DD_VOLUME false.
Proof.
  unfold call. destruct (is_zero field) eqn:Hz; [|done].
  by destruct field.
Qed.

Lemma GlobalToReferenceMapper_minv_st_of_field xyz_axis field :
  G2R (call (default_operator InverseMassOperator)
         (call (default_operator (StiffnessTOperator xyz_axis)) field))
  = map_operator_binding area_element inverse_metric_derivative ambient_dim dim
      (default_operator (MInvSTOperator xyz_axis)) field (G2R field).
Proof.
  destruct field as [c| | | | |]; try reflexivity.
  unfold call, map_operator_binding. cbn [class_of default_operator is_zero].
  destruct (bool_decide (c = 0)) eqn:Hz; cbn [is_zero]; rewrite ?Hz; reflexivity.
Qed.

(** C4. The mapper rewrites the binding of a face mass operator to a field
    to the reference face mass operator applied to the product of the
    negated area element of co-dimension one, on the input descriptor of
    the operator, and the rewritten field. *)
Theorem GlobalToReferenceMapper_face_mass (op : Operator) (field : expr) :
  class_of op = FaceMassOperator →
  G2R (OperatorBinding op field)
  = call (mkOperator RefFaceMassOperator (dd_in op) (dd_out op))
      (mul (neg (area_element ambient_dim (Z.of_nat dim - 1) (dd_in op))) (G2R field)).
Proof.
  intros Hclass. cbn [GlobalToReferenceMapper].
  unfold map_operator_binding. by rewrite Hclass.
Qed.

(** The nodes of that expression when the area element is a named
    quantity and the rewritten field is neither a number nor a product:
    the factors [-1], the area element and the field under one product. *)
Lemma GlobalToReferenceMapper_face_mass_nodes (op : Operator) (field : expr) name dd :
  class_of op = FaceMassOperator →
  area_element ambient_dim (Z.of_nat dim - 1) (dd_in op) = Var name dd →
  (∀ c, G2R field ≠ Constant c) →
  (∀ children, G2R field ≠ Product children) →
  G2R (OperatorBinding op field)
  = OperatorBinding (mkOperator RefFaceMassOperator (dd_in op) (dd_out op))
      (Product [Constant (Py.int (-1)); Var name dd; G2R field]).
Proof.
  intros Hclass Harea Hnumber Hproduct.
  cbn [GlobalToReferenceMapper]. unfold map_operator_binding. rewrite Hclass, Harea.
  destruct (G2R field) as [c| | |children| |];
    try reflexivity; [by destruct (Hnumber c)|by destruct (Hproduct children)].
Qed.

End GlobalToReference.

Lemma GlobalToReferenceMapper_face_mass_witness :
  let all_faces := mkDOFDesc FACE_RESTR_ALL QTAG_NONE in
  GlobalToReferenceMapper Example.geometry_area Example.geometry_imd 3 3
    (OperatorBinding (mkOperator FaceMassOperator all_faces DD_VOLUME) (Var "flux" all_faces))
  = OperatorBinding (mkOperator RefFaceMassOperator all_faces DD_VOLUME)
      (Product [Constant (Py.int (-1)); Var "area_element" all_faces; Var "flux" all_faces]).
Proof.
  intros all_faces.
  rewrite (GlobalToReferenceMapper_face_mass Example.geometry_area Example.geometry_imd 3 3
             (mkOperator FaceMassOperator all_faces DD_VOLUME) (Var "flux" all_faces) eq_refl).
  reflexivity.
Defined.

Section Contractor.

Lemma InverseMassContractor_binding op field :
  InverseMassContractor (OperatorBinding op field)
  = outer_map_operator_binding op (_InnerInverseMassContractor field)
      (InverseMassContractor field).
Proof.
  unfold InverseMassContractor, _InnerInverseMassContractor. simpl.
  by destruct (contract field).
Qed.

Lemma _InnerInverseMassContractor_binding op field :
  _InnerInverseMassContractor (OperatorBinding op field)
  = inner_map_operator_binding op field
      (InverseMassContractor (OperatorBinding op field)) (InverseMassContractor field).
Proof.
  unfold InverseMassContractor, _InnerInverseMassContractor. simpl.
  by destruct (contract field).
Qed.

Lemma InverseMassContractor_sum children :
  InverseMassContractor (Sum children)
  = (let? children := map_result InverseMassContractor children in Ok (Sum children)).
Proof.
  unfold InverseMassContractor. simpl. f_equal.
  induction children as [|c cs IH]; simpl; [done|]. by rewrite IH.
Qed.

Lemma _InnerInverseMassContractor_sum children :
  _InnerInverseMassContractor (Sum children)
  = inner_map_sum (map _InnerInverseMassContractor children).
Proof.
  unfold _InnerInverseMassContractor. simpl. by rewrite map_map.
Qed.

Lemma InverseMassContractor_product children :
  InverseMassContractor (Product children)
  = (let? children := map_result InverseMassContractor children in Ok (Product children)).
Proof.
  unfold InverseMassContractor. simpl. f_equal.
  induction children as [|c cs IH]; simpl; [done|]. by rewrite IH.
Qed.

Lemma _InnerInverseMassContractor_product children :
  _InnerInverseMassContractor (Product children)
  = inner_map_product children (map _InnerInverseMassContractor children)
      (InverseMassContractor (Product children)).
Proof.
  unfold _InnerInverseMassContractor, InverseMassContractor. simpl. by rewrite map_map.
Qed.


End Contractor.


Example InverseMassContractor_cancels_mass :
  InverseMassContractor
    (OperatorBinding (default_operator InverseMassOperator)
       (OperatorBinding (default_operator MassOperator) Example.u))
  = Ok Example.u.
Proof. reflexivity. Qed.

Example InverseMassContractor_stiffness_t :
  InverseMassContractor
    (OperatorBinding (default_operator InverseMassOperator)
       (OperatorBinding (default_operator (StiffnessTOperator 1)) Example.u))
  = Ok (OperatorBinding (default_operator (MInvSTOperator 1)) Example.u).
Proof. reflexivity. Qed.

(** ** Constant folding *)

Lemma size_pos e : (0 < size e)%nat.
Proof. destruct e; simpl; lia. Qed.

#[local] Arguments size_list : simpl never.
#[local] Arguments size : simpl never.

Section Sizes.

Lemma size_list_nil : size_list [] = 0%nat.
Proof. reflexivity. Qed.

Lemma size_list_cons e es : size_list (e :: es) = (size e + size_list es)%nat.
Proof. reflexivity. Qed.

Lemma size_list_app es es' : size_list (es ++ es') = (size_list es + size_list es')%nat.
Proof.
  induction es as [|e es IH]; [done|].
  rewrite <- app_comm_cons, !size_list_cons, IH. lia.
Qed.

Lemma size_Constant c : size (Constant c) = 1%nat.
Proof. reflexivity. Qed.

Lemma size_Sum children : size (Sum children) = S (size_list children).
Proof. reflexivity. Qed.

Lemma size_Product children : size (Product children) = S (size_list children).
Proof. reflexivity. Qed.

Lemma length_le_size_list es : (length es ≤ size_list es)%nat.
Proof.
  induction es as [|e es IH]; [rewrite size_list_nil; simpl; lia|].
  rewrite size_list_cons. pose proof (size_pos e). simpl. lia.
Qed.

Lemma size_list_elem e es : e ∈ es → (size e ≤ size_list es)%nat.
Proof.
  induction 1 as [e es|e e' es _ IH]; rewrite size_list_cons; lia.
Qed.

Lemma flattened_sum_loop_size turns queue :
  (size_list (flattened_sum_loop turns queue) ≤ size_list queue)%nat.
Proof.
  revert queue. induction turns as [|turns IH]; intros queue; simpl.
  { rewrite size_list_nil. lia. }
  destruct queue as [|item queue]; [done|].
  rewrite size_list_cons.
  destruct (is_zero item).
  { specialize (IH queue). lia. }
  destruct item; try (rewrite size_list_cons; specialize (IH queue); lia).
  specialize (IH (queue ++ children)). rewrite size_list_app in IH.
  rewrite size_Sum. lia.
Qed.

Lemma flattened_sum_size terms : (size (flattened_sum terms) ≤ S (size_list terms))%nat.
Proof.
  unfold flattened_sum.
  pose proof (flattened_sum_loop_size (S (size_list terms)) terms) as Hle.
  destruct (flattened_sum_loop (S (size_list terms)) terms) as [|item [|item' done]].
  - rewrite size_Constant. lia.
  - rewrite size_list_cons, size_list_nil in Hle. lia.
  - rewrite size_Sum. lia.
Qed.

Lemma flattened_product_loop_size turns queue done :
  flattened_product_loop turns queue = Some done →
  (size_list done ≤ size_list queue)%nat.
Proof.
  revert queue done. induction turns as [|turns IH]; intros queue done; simpl.
  { intros [= <-]. rewrite size_list_nil. lia. }
  destruct queue as [|item queue]; [by intros [= <-]|].
  rewrite size_list_cons.
  destruct (is_zero item); [done|].
  destruct (is_one item).
  { intros Hloop. specialize (IH _ _ Hloop). lia. }
  destruct item;
    try (intros (done' & Hloop & ->)%fmap_Some; rewrite size_list_cons;
         specialize (IH _ _ Hloop); lia).
  intros Hloop. specialize (IH _ _ Hloop). rewrite size_list_app in IH.
  rewrite size_Product. lia.
Qed.

Lemma flattened_product_size terms :
  (size (flattened_product terms) ≤ S (size_list terms))%nat.
Proof.
  unfold flattened_product.
  destruct (flattened_product_loop (S (size_list terms)) terms)
    as [[|item [|item' done]]|] eqn:Hloop; try (rewrite size_Constant; lia).
  - apply flattened_product_loop_size in Hloop.
    rewrite size_list_cons, size_list_nil in Hloop. lia.
  - apply flattened_product_loop_size in Hloop. rewrite size_Product. lia.
Qed.

Lemma fold_constructor_size klass terms :
  (size (fold_constructor klass terms) ≤ S (size_list terms))%nat.
Proof. destruct klass; [apply flattened_sum_size|apply flattened_product_size]. Qed.

Lemma children_of_class_size klass e children :
  children_of_class klass e = Some children → size e = S (size_list children).
Proof. destruct klass, e; simpl; intros [= <-]; done. Qed.

End Sizes.

Section Termination.

Lemma size_Quotient a b : size (Quotient a b) = S (size a + size b).
Proof. reflexivity. Qed.

Lemma size_OperatorBinding op f : size (OperatorBinding op f) = S (size f).
Proof. reflexivity. Qed.

Lemma size_call op f : (size (call op f) ≤ S (size f))%nat.
Proof. unfold call. destruct (is_zero f); [lia|]. rewrite size_OperatorBinding. lia. Qed.

Lemma fold_loop_terminates rec klass bound :
  returns_below rec bound →
  ∀ turns queue constants nonconstants,
    (size_list queue < turns)%nat →
    Forall (λ item, (size item < bound)%nat) queue →
    ∃ x, fold_loop rec klass turns queue constants nonconstants = Some x
         ∧ ∀ r, x = Ok r →
             (size r ≤ S (size_list queue + length constants + size_list nonconstants))%nat.
Proof.
  intros Hrec. induction turns as [|turns IH]; intros queue constants nonconstants Hturns Hqueue;
    [lia|].
  cbn [fold_loop]. destruct queue as [|item queue].
  - destruct constants as [|c cs]; eexists; (split; [reflexivity|]); intros r [= <-].
    + pose proof (fold_constructor_size klass nonconstants). rewrite size_list_nil. lia.
    + pose proof (fold_constructor_size klass (Constant (reduce (fold_operator klass) c cs)
                                                 :: nonconstants)) as Hsize.
      rewrite size_list_cons, size_Constant in Hsize. simpl. lia.
  - rewrite size_list_cons in Hturns. apply list.Forall_cons in Hqueue as [Hitem Hqueue].
    destruct (Hrec item Hitem) as (x & -> & Hx).
    destruct x as [child|err]; [|eexists; split; [reflexivity|done]].
    specialize (Hx child eq_refl).
    destruct (children_of_class klass child) as [children|] eqn:Hclass.
    + apply children_of_class_size in Hclass.
      destruct (IH (children ++ queue) constants nonconstants) as (x & Hloop & Hbound).
      * rewrite size_list_app. lia.
      * apply Forall_app. split; [|done]. apply list.Forall_forall. intros c Hc.
        apply size_list_elem in Hc. lia.
      * exists x. split; [done|]. intros r Hr. specialize (Hbound r Hr).
        rewrite size_list_app in Hbound. rewrite size_list_cons. lia.
    + pose proof (size_pos item) as Hpos.
      assert (∃ x, fold_loop rec klass turns queue constants (nonconstants ++ [child]) = Some x
                   ∧ ∀ r, x = Ok r →
                       (size r ≤ S (size_list (item :: queue) + length constants
                                    + size_list nonconstants))%nat) as Hnonconstant.
      { destruct (IH queue constants (nonconstants ++ [child])) as (x & Hloop & Hbound);
          [lia|done|].
        exists x. split; [done|]. intros r Hr. specialize (Hbound r Hr).
        rewrite size_list_app, size_list_cons, size_list_nil in Hbound.
        rewrite size_list_cons. lia. }
      destruct (is_constant child); [|exact Hnonconstant].
      destruct (evaluate child) as [[value|]|err]; [|exact Hnonconstant|by eexists].
      destruct (IH queue (constants ++ [value]) nonconstants) as (x & Hloop & Hbound);
        [lia|done|].
      exists x. split; [done|]. intros r Hr. specialize (Hbound r Hr).
      rewrite length_app in Hbound. simpl in Hbound. rewrite size_list_cons. lia.
Qed.

Lemma CommutativeConstantFoldingMapper_terminates fuel :
  returns_below (CommutativeConstantFoldingMapper fuel) fuel.
Proof.
  induction fuel as [|fuel IH]; intros e Hsize; [lia|].
  cbn [CommutativeConstantFoldingMapper]. destruct e as [c|name dd|children|children|a b|op field].
  - eexists. split; [reflexivity|]. by intros r [= <-].
  - eexists. split; [reflexivity|]. by intros r [= <-].
  - rewrite size_Sum in Hsize.
    destruct (fold_loop_terminates _ SumClass fuel IH fuel children [] []) as (x & Hloop & Hbound).
    + lia.
    + apply list.Forall_forall. intros c Hc. apply size_list_elem in Hc. lia.
    + exists x. split; [done|]. intros r Hr. specialize (Hbound r Hr).
      rewrite size_Sum. rewrite size_list_nil in Hbound. simpl in Hbound. lia.
  - rewrite size_Product in Hsize.
    destruct (fold_loop_terminates _ ProductClass fuel IH fuel children [] [])
      as (x & Hloop & Hbound).
    + lia.
    + apply list.Forall_forall. intros c Hc. apply size_list_elem in Hc. lia.
    + exists x. split; [done|]. intros r Hr. specialize (Hbound r Hr).
      rewrite size_Product. rewrite size_list_nil in Hbound. simpl in Hbound. lia.
  - rewrite size_Quotient in Hsize.
    destruct (IH a ltac:(lia)) as (xa & -> & Ha).
    destruct xa as [a'|err]; [|eexists; split; [reflexivity|done]].
    destruct (IH b ltac:(lia)) as (xb & -> & Hb).
    destruct xb as [b'|err]; [|eexists; split; [reflexivity|done]].
    eexists. split; [reflexivity|]. intros r [= <-].
    specialize (Ha a' eq_refl). specialize (Hb b' eq_refl). rewrite !size_Quotient. lia.
  - rewrite size_OperatorBinding in Hsize.
    destruct (IH field ltac:(lia)) as (x & -> & Hfield).
    destruct x as [field'|err]; [|eexists; split; [reflexivity|done]].
    specialize (Hfield field' eq_refl).
    destruct (is_zero field'); eexists; (split; [reflexivity|]); intros r [= <-].
    + rewrite size_Constant. pose proof (size_pos (OperatorBinding op field)). lia.
    + pose proof (size_call op field'). rewrite size_OperatorBinding. lia.
Qed.

End Termination.


Section NormalForms.

Lemma residual_not_constant klass e : residual klass e → ∀ c, e ≠ Constant c.
Proof. intros [_ [Hc|He]] c ->; [done|]. by vm_compute in He. Qed.

Lemma residual_is_zero klass e : residual klass e → is_zero e = false.
Proof. intros Hres. destruct e; try done. by destruct (residual_not_constant _ _ Hres c). Qed.

Lemma residual_is_one klass e : residual klass e → is_one e = false.
Proof. intros Hres. destruct e; try done. by destruct (residual_not_constant _ _ Hres c). Qed.

Lemma flattened_sum_loop_residual turns items :
  Forall (residual SumClass) items → (length items < turns)%nat →
  flattened_sum_loop turns items = items.
Proof.
  revert items. induction turns as [|turns IH]; intros items Hres Hlen; [lia|].
  destruct items as [|item items]; [done|].
  apply list.Forall_cons in Hres as [Hitem Hres]. simpl in Hlen.
  cbn [flattened_sum_loop]. rewrite (residual_is_zero _ _ Hitem).
  rewrite (IH items Hres) by lia.
  destruct Hitem as [Hclass _]. by destruct item.
Qed.

Lemma flattened_product_loop_residual turns items :
  Forall (residual ProductClass) items → (length items < turns)%nat →
  flattened_product_loop turns items = Some items.
Proof.
  revert items. induction turns as [|turns IH]; intros items Hres Hlen; [lia|].
  destruct items as [|item items]; [done|].
  apply list.Forall_cons in Hres as [Hitem Hres]. simpl in Hlen.
  cbn [flattened_product_loop].
  rewrite (residual_is_zero _ _ Hitem), (residual_is_one _ _ Hitem).
  rewrite (IH items Hres) by lia.
  destruct Hitem as [Hclass _]. by destruct item.
Qed.

Lemma flattened_sum_residual items :
  Forall (residual SumClass) items →
  flattened_sum items
  = match items with [] => Constant 0 | [item] => item | _ => Sum items end.
Proof.
  intros Hres. unfold flattened_sum.
  pose proof (length_le_size_list items).
  rewrite flattened_sum_loop_residual by (done || lia).
  by destruct items as [|? [|? ?]].
Qed.

Lemma flattened_product_residual items :
  Forall (residual ProductClass) items →
  flattened_product items
  = match items with [] => Constant 1 | [item] => item | _ => Product items end.
Proof.
  intros Hres. unfold flattened_product.
  pose proof (length_le_size_list items).
  rewrite flattened_product_loop_residual by (done || lia).
  by destruct items as [|? [|? ?]].
Qed.

Lemma flattened_sum_loop_constant turns c queue :
  flattened_sum_loop (S turns) (Constant c :: queue)
  = if bool_decide (c = 0) then flattened_sum_loop turns queue
    else Constant c :: flattened_sum_loop turns queue.
Proof. reflexivity. Qed.

Lemma flattened_product_loop_constant turns c queue :
  flattened_product_loop (S turns) (Constant c :: queue)
  = if bool_decide (c = 0) then None
    else if bool_decide (c = 1) then flattened_product_loop turns queue
    else cons (Constant c) <$> flattened_product_loop turns queue.
Proof. reflexivity. Qed.

Lemma flattened_sum_constant c items :
  Forall (residual SumClass) items →
  flattened_sum (Constant c :: items)
  = if bool_decide (c = 0) then flattened_sum items
    else match items with [] => Constant c | _ => Sum (Constant c :: items) end.
Proof.
  intros Hres. unfold flattened_sum at 1.
  rewrite size_list_cons, size_Constant.
  change (S (1 + size_list items)) with (S (S (size_list items))).
  rewrite flattened_sum_loop_constant.
  pose proof (length_le_size_list items) as Hlen.
  rewrite (flattened_sum_loop_residual _ items) by (done || lia).
  destruct (bool_decide (c = 0)).
  - rewrite flattened_sum_residual by done. by destruct items as [|? [|? ?]].
  - by destruct items.
Qed.

Lemma flattened_product_constant c items :
  Forall (residual ProductClass) items →
  flattened_product (Constant c :: items)
  = if bool_decide (c = 0) then Constant 0
    else if bool_decide (c = 1) then flattened_product items
    else match items with [] => Constant c | _ => Product (Constant c :: items) end.
Proof.
  intros Hres. unfold flattened_product at 1.
  rewrite size_list_cons, size_Constant.
  change (S (1 + size_list items)) with (S (S (size_list items))).
  rewrite flattened_product_loop_constant.
  pose proof (length_le_size_list items) as Hlen.
  rewrite (flattened_product_loop_residual _ items) by (done || lia).
  destruct (bool_decide (c = 0)); [done|].
  destruct (bool_decide (c = 1)).
  - rewrite flattened_product_residual by done. by destruct items as [|? [|? ?]].
  - by destruct items.
Qed.

End NormalForms.

Section Folding.

Lemma fold_constructor_residuals klass items :
  Forall (residual klass) items → Forall folded_form items →
  folded_form (fold_constructor klass items).
Proof.
  intros Hres Hforms. destruct klass; cbn [fold_constructor].
  - rewrite flattened_sum_residual by done.
    destruct items as [|item [|item' items]].
    + constructor.
    + by apply list.Forall_cons in Hforms as [? _].
    + constructor; [|done]. split; [simpl; lia|by right].
  - rewrite flattened_product_residual by done.
    destruct items as [|item [|item' items]].
    + constructor.
    + by apply list.Forall_cons in Hforms as [? _].
    + constructor; [|done]. split; [simpl; lia|by right].
Qed.

Lemma fold_constructor_constant klass c items :
  Forall (residual klass) items → Forall folded_form items →
  folded_form (fold_constructor klass (Constant c :: items)).
Proof.
  intros Hres Hforms.
  pose proof (fold_constructor_residuals klass items Hres Hforms) as Hitems.
  destruct klass; cbn [fold_constructor] in *.
  - rewrite flattened_sum_constant by done.
    destruct (bool_decide (c = 0)) eqn:Hzero; [done|].
    apply bool_decide_eq_false in Hzero.
    destruct items as [|item items]; [constructor|].
    constructor.
    + split; [simpl; lia|]. left. by exists c, (item :: items).
    + constructor; [constructor|done].
  - rewrite flattened_product_constant by done.
    destruct (bool_decide (c = 0)) eqn:Hzero; [constructor|].
    destruct (bool_decide (c = 1)) eqn:Hone; [done|].
    apply bool_decide_eq_false in Hzero, Hone.
    destruct items as [|item items]; [constructor|].
    constructor.
    + split; [simpl; lia|]. left. by exists c, (item :: items).
    + constructor; [constructor|done].
Qed.

Lemma fold_loop_folded rec klass :
  (∀ e r, rec e = Some (Ok r) → folded_form r) →
  ∀ turns queue constants nonconstants r,
    Forall (residual klass) nonconstants → Forall folded_form nonconstants →
    fold_loop rec klass turns queue constants nonconstants = Some (Ok r) →
    folded_form r.
Proof.
  intros Hrec. induction turns as [|turns IH];
    intros queue constants nonconstants r Hres Hforms; [done|].
  cbn [fold_loop]. destruct queue as [|item queue].
  - destruct constants as [|c cs]; intros [= <-].
    + by apply fold_constructor_residuals.
    + by apply fold_constructor_constant.
  - destruct (rec item) as [[child|err]|] eqn:Hitem; [|done..].
    apply Hrec in Hitem.
    destruct (children_of_class klass child) as [children|] eqn:Hclass.
    { by apply IH. }
    assert (residual klass child →
            fold_loop rec klass turns queue constants (nonconstants ++ [child]) = Some (Ok r) →
            folded_form r) as Hnonconstant.
    { intros Hchild. apply IH; apply Forall_app; split; try done; by constructor. }
    destruct (is_constant child) eqn:Hconstant.
    + destruct (evaluate child) as [[value|]|err] eqn:Hvalue; [|..|done].
      * by apply IH.
      * apply Hnonconstant. split; [done|by right].
    + apply Hnonconstant. split; [done|by left].
Qed.

(** Every result of the mapper is in folded form. *)
Lemma CommutativeConstantFoldingMapper_folded fuel e r :
  CommutativeConstantFoldingMapper fuel e = Some (Ok r) → folded_form r.
Proof.
  revert e r. induction fuel as [|fuel IH]; intros e r; [done|].
  cbn [CommutativeConstantFoldingMapper].
  destruct e as [c|name dd|children|children|a b|op field].
  - intros [= <-]. constructor.
  - intros [= <-]. constructor.
  - by apply fold_loop_folded.
  - by apply fold_loop_folded.
  - destruct (CommutativeConstantFoldingMapper fuel a) as [[a'|err]|] eqn:Ha; [|done..].
    destruct (CommutativeConstantFoldingMapper fuel b) as [[b'|err]|] eqn:Hb; [|done..].
    intros [= <-]. constructor; eauto.
  - destruct (CommutativeConstantFoldingMapper fuel field) as [[field'|err]|] eqn:Hfield;
      [|done..].
    destruct (is_zero field') eqn:Hzero; intros [= <-]; [constructor|].
    unfold call. rewrite Hzero. constructor; eauto.
Qed.

(** The loop on a queue of residual expressions that the mapper leaves
    unchanged moves them to the non-constants. *)
Lemma fold_loop_residuals rec klass turns queue constants nonconstants :
  Forall (residual klass) queue →
  Forall (λ item, rec item = Some (Ok item)) queue →
  fold_loop rec klass (length queue + turns) queue constants nonconstants
  = fold_loop rec klass turns [] constants (nonconstants ++ queue).
Proof.
  revert nonconstants. induction queue as [|item queue IH]; intros nonconstants Hres Hrec.
  { by rewrite app_nil_r. }
  apply list.Forall_cons in Hres as [[Hclass Hitem] Hres].
  apply list.Forall_cons in Hrec as [Hfix Hrec].
  cbn [length Nat.add fold_loop]. rewrite Hfix, Hclass.
  rewrite (cons_middle item nonconstants queue), app_assoc.
  destruct Hitem as [->|Hvalue]; [by apply IH|].
  destruct (is_constant item); [|by apply IH].
  rewrite Hvalue. by apply IH.
Qed.

Lemma folded_loop_result rec klass items turns :
  folded klass items →
  Forall (λ item, rec item = Some (Ok item)) items →
  (length items < turns)%nat →
  fold_loop rec klass turns items [] [] = Some (Ok (fold_constructor klass items)).
Proof.
  intros [Hlen Hitems] Hrec Hturns.
  replace turns with (length items + S (turns - length items - 1))%nat by lia.
  destruct Hitems as [(c & rest & -> & Hkept & Hres)|Hres].
  - apply list.Forall_cons in Hrec as [Hc Hrec].
    cbn [length Nat.add fold_loop]. rewrite Hc.
    replace (children_of_class klass (Constant c)) with (@None (list expr))
      by (by destruct klass).
    change (is_constant (Constant c)) with true.
    change (evaluate (Constant c)) with (Ok (Some c) : result (option Qc)).
    cbn iota. rewrite fold_loop_residuals by done. reflexivity.
  - rewrite fold_loop_residuals by done. reflexivity.
Qed.

Lemma fold_constructor_folded klass items :
  folded klass items →
  fold_constructor klass items
  = match klass with SumClass => Sum items | ProductClass => Product items end.
Proof.
  intros [Hlen Hitems].
  destruct Hitems as [(c & rest & -> & Hkept & Hres)|Hres].
  - destruct klass; cbn [fold_constructor kept_constant] in *.
    + rewrite flattened_sum_constant by done.
      rewrite bool_decide_eq_false_2 by done. destruct rest; [simpl in Hlen; lia|done].
    + rewrite flattened_product_constant by done. destruct Hkept.
      rewrite !bool_decide_eq_false_2 by done. destruct rest; [simpl in Hlen; lia|done].
  - destruct klass; cbn [fold_constructor].
    + rewrite flattened_sum_residual by done.
      destruct items as [|? [|? ?]]; simpl in Hlen; (lia || done).
    + rewrite flattened_product_residual by done.
      destruct items as [|? [|? ?]]; simpl in Hlen; (lia || done).
Qed.

(** The mapper leaves an expression in folded form as it is. *)
Lemma CommutativeConstantFoldingMapper_fixes_folded fuel r :
  folded_form r → (size r < fuel)%nat →
  CommutativeConstantFoldingMapper fuel r = Some (Ok r).
Proof.
  revert r. induction fuel as [|fuel IH]; intros r Hform Hsize; [lia|].
  cbn [CommutativeConstantFoldingMapper].
  assert (∀ items, Forall folded_form items → (S (size_list items) < S fuel)%nat →
            Forall (λ item, CommutativeConstantFoldingMapper fuel item = Some (Ok item)) items)
    as Hitems.
  { intros items Hforms Hlt. apply list.Forall_forall. intros item Hin.
    apply IH; [by eapply list.Forall_forall in Hforms|].
    apply size_list_elem in Hin. lia. }
  destruct Hform as [c|name dd|a b Ha Hb|op field Hfield Hzero|items Hfold Hforms
                    |items Hfold Hforms].
  - done.
  - done.
  - rewrite size_Quotient in Hsize. rewrite !IH by (done || lia). done.
  - rewrite size_OperatorBinding in Hsize. rewrite IH by (done || lia).
    rewrite Hzero. unfold call. by rewrite Hzero.
  - rewrite size_Sum in Hsize. pose proof (length_le_size_list items).
    rewrite folded_loop_result by (auto || lia).
    by rewrite fold_constructor_folded.
  - rewrite size_Product in Hsize. pose proof (length_le_size_list items).
    rewrite folded_loop_result by (auto || lia).
    by rewrite fold_constructor_folded.
Qed.

End Folding.

Section Fuel.

Lemma fold_loop_more rec rec' klass :
  (∀ e x, rec e = Some x → rec' e = Some x) →
  ∀ turns turns' queue constants nonconstants x,
    (turns ≤ turns')%nat →
    fold_loop rec klass turns queue constants nonconstants = Some x →
    fold_loop rec' klass turns' queue constants nonconstants = Some x.
Proof.
  intros Hrec. induction turns as [|turns IH];
    intros turns' queue constants nonconstants x Hle; [done|].
  destruct turns' as [|turns']; [lia|].
  cbn [fold_loop]. destruct queue as [|item queue]; [done|].
  destruct (rec item) as [y|] eqn:Hitem; [|done].
  rewrite (Hrec _ _ Hitem). destruct y as [child|err]; [|done].
  destruct (children_of_class klass child); [apply IH; lia|].
  destruct (is_constant child); [|apply IH; lia].
  destruct (evaluate child) as [[value|]|err]; [apply IH; lia..|done].
Qed.

(** A result does not depend on the bound once it is reached. *)
Lemma CommutativeConstantFoldingMapper_more fuel fuel' e x :
  (fuel ≤ fuel')%nat →
  CommutativeConstantFoldingMapper fuel e = Some x →
  CommutativeConstantFoldingMapper fuel' e = Some x.
Proof.
  revert fuel' e x. induction fuel as [|fuel IH]; intros fuel' e x Hle; [done|].
  destruct fuel' as [|fuel']; [lia|].
  assert (∀ e x, CommutativeConstantFoldingMapper fuel e = Some x →
                 CommutativeConstantFoldingMapper fuel' e = Some x) as Hrec.
  { intros e' x'. apply IH. lia. }
  cbn [CommutativeConstantFoldingMapper].
  destruct e as [c|name dd|children|children|a b|op field]; try done.
  - apply fold_loop_more; [done|lia].
  - apply fold_loop_more; [done|lia].
  - destruct (CommutativeConstantFoldingMapper fuel a) as [ya|] eqn:Ha; [|done].
    rewrite (Hrec _ _ Ha). destruct ya as [a'|err]; [|done].
    destruct (CommutativeConstantFoldingMapper fuel b) as [yb|] eqn:Hb; [|done].
    by rewrite (Hrec _ _ Hb).
  - destruct (CommutativeConstantFoldingMapper fuel field) as [y|] eqn:Hfield; [|done].
    by rewrite (Hrec _ _ Hfield).
Qed.

End Fuel.

(** C7. When the field of an operator binding simplifies to an
    identically-zero value, constant folding returns exactly zero; and
    constant folding returns on every expression (or raises, on a division
    by zero), and applied to its result it returns that result. *)
Theorem constant_folding_zero_field_and_idempotent :
  (∀ fuel op field field',
     CommutativeConstantFoldingMapper fuel field = Some (Ok field') →
     is_zero field' = true →
     CommutativeConstantFoldingMapper (S fuel) (OperatorBinding op field)
     = Some (Ok (Constant 0)))
  ∧ (∀ e fuel, (size e < fuel)%nat →
       (∃ err, CommutativeConstantFoldingMapper fuel e = Some (Raise err))
       ∨ (∃ r, CommutativeConstantFoldingMapper fuel e = Some (Ok r)
               ∧ CommutativeConstantFoldingMapper fuel r = Some (Ok r))).
Proof.
  split.
  - intros fuel op field field' Hfield Hzero.
    cbn [CommutativeConstantFoldingMapper]. by rewrite Hfield, Hzero.
  - intros e fuel Hsize.
    destruct (CommutativeConstantFoldingMapper_terminates fuel e Hsize) as (x & Hx & Hbound).
    destruct x as [r|err]; [right|left; by exists err].
    exists r. split; [done|].
    apply CommutativeConstantFoldingMapper_fixes_folded.
    + by eapply CommutativeConstantFoldingMapper_folded.
    + specialize (Hbound r eq_refl). lia.
Qed.

Lemma constant_folding_zero_field_and_idempotent_witness :
  let M := default_operator MassOperator in
  let e := Sum [Product [Constant (Example.q 2); Example.u; Constant (Example.q 3)];
                OperatorBinding M (Sum [Constant (Example.q 1); Constant (Example.q (-1))]);
                Sum [Example.v; Constant (Example.q 4)]] in
  let r := Sum [Constant (Example.q 4);
                Product [Constant (Example.q 6); Example.u];
                Example.v] in
  CommutativeConstantFoldingMapper 5
    (OperatorBinding M (Sum [Constant (Example.q 1); Constant (Example.q (-1))]))
  = Some (Ok (Constant 0))
  ∧ CommutativeConstantFoldingMapper 20 e = Some (Ok r)
  ∧ CommutativeConstantFoldingMapper 20 r = Some (Ok r).
Proof.
  intros M e r.
  destruct constant_folding_zero_field_and_idempotent as [Hzero Hidem].
  split.
  - apply (Hzero 4%nat M (Sum [Constant (Example.q 1); Constant (Example.q (-1))])
             (Constant 0)); vm_compute; reflexivity.
  - destruct (Hidem e 20%nat) as [[err Herr]|(r' & Hr & Hagain)].
    + vm_compute. lia.
    + vm_compute in Herr. discriminate Herr.
    + assert (r' = r) as ->.
      { vm_compute in Hr. injection Hr as <-. vm_compute. reflexivity. }
      split; assumption.
Defined.


(** ** Induction on expressions, and the bindings of an expression *)

Lemma expr_children_ind (P : expr → Prop) :
  (∀ c, P (Constant c)) →
  (∀ name dd, P (Var name dd)) →
  (∀ children, Forall P children → P (Sum children)) →
  (∀ children, Forall P children → P (Product children)) →
  (∀ a b, P a → P b → P (Quotient a b)) →
  (∀ op field, P field → P (OperatorBinding op field)) →
  ∀ e, P e.
Proof.
  intros HC HV HS HP HQ HO.
  fix IH 1. intros [c|name dd|children|children|a b|op field].
  - apply HC.
  - apply HV.
  - apply HS. induction children as [|c cs IHcs]; constructor; [apply IH|apply IHcs].
  - apply HP. induction children as [|c cs IHcs]; constructor; [apply IH|apply IHcs].
  - apply HQ; apply IH.
  - apply HO, IH.
Qed.

Section Bindings.
Context (P : Operator * expr → Prop).

Abbreviation ops_in e := (Forall P (bindings e)).

Lemma bindings_Sum children :
  ops_in (Sum children) ↔ Forall (λ c, ops_in c) children.
Proof.
  simpl. induction children as [|c cs IH]; simpl.
  - split; constructor.
  - rewrite Forall_app, list.Forall_cons, IH. tauto.
Qed.

Lemma bindings_Product children :
  ops_in (Product children) ↔ Forall (λ c, ops_in c) children.
Proof. apply bindings_Sum. Qed.

Lemma ops_in_mul a b : ops_in a → ops_in b → ops_in (mul a b).
Proof.
  intros Ha Hb.
  assert (Hnil : ops_in (Constant 0)) by constructor.
  assert (Hpair : ∀ x y, ops_in x → ops_in y → ops_in (Product [x; y])).
  { intros x y Hx Hy. apply bindings_Product. by repeat constructor. }
  assert (Hcons : ∀ x ys, ops_in x → ops_in (Product ys) → ops_in (Product (x :: ys))).
  { intros x ys Hx Hys. apply bindings_Product. constructor; [done|].
    by apply bindings_Product. }
  assert (Happ : ∀ xs ys, ops_in (Product xs) → ops_in (Product ys) →
                          ops_in (Product (xs ++ ys))).
  { intros xs ys Hx Hys. apply bindings_Product, Forall_app.
    split; by apply bindings_Product. }
  assert (Hsnoc : ∀ xs y, ops_in (Product xs) → ops_in y → ops_in (Product (xs ++ [y]))).
  { intros xs y Hx Hy. apply Happ; [done|]. apply bindings_Product.
    by repeat constructor. }
  destruct a, b; cbn [mul]; repeat case_match; auto.
Qed.

Lemma ops_in_add a b : ops_in a → ops_in b → ops_in (add a b).
Proof.
  intros Ha Hb.
  assert (Hpair : ∀ x y, ops_in x → ops_in y → ops_in (Sum [x; y])).
  { intros x y Hx Hy. apply bindings_Sum. by repeat constructor. }
  assert (Hcons : ∀ x ys, ops_in x → ops_in (Sum ys) → ops_in (Sum (x :: ys))).
  { intros x ys Hx Hys. apply bindings_Sum. constructor; [done|].
    by apply bindings_Sum. }
  assert (Happ : ∀ xs ys, ops_in (Sum xs) → ops_in (Sum ys) → ops_in (Sum (xs ++ ys))).
  { intros xs ys Hx Hys. apply bindings_Sum, Forall_app.
    split; by apply bindings_Sum. }
  assert (Hsnoc : ∀ xs y, ops_in (Sum xs) → ops_in y → ops_in (Sum (xs ++ [y]))).
  { intros xs y Hx Hy. apply Happ; [done|]. apply bindings_Sum.
    by repeat constructor. }
  destruct a, b; cbn [add]; repeat case_match; auto; constructor.
Qed.

Lemma ops_in_neg a : ops_in a → ops_in (neg a).
Proof. intros Ha. apply ops_in_mul; [constructor|done]. Qed.

Lemma ops_in_reciprocal a : ops_in a → ops_in (reciprocal a).
Proof.
  intros Ha. destruct a; cbn [reciprocal]; simpl in *; try done; constructor.
Qed.

Lemma ops_in_call op field : P (op, field) → ops_in field → ops_in (call op field).
Proof.
  intros Hop Hfield. unfold call. case_match; [done|]. by constructor.
Qed.

Lemma ops_in_builtin_sum terms :
  Forall (λ t, ops_in t) terms → ops_in (sym.builtin_sum terms).
Proof.
  unfold sym.builtin_sum.
  assert (H0 : ops_in (Constant 0)) by constructor.
  revert H0. generalize (Constant 0).
  induction terms as [|t ts IH]; intros acc Hacc Hts; simpl; [done|].
  inversion Hts; subst. apply IH; [by apply ops_in_add|done].
Qed.

End Bindings.

(** ** More on the mapper from global to reference operators *)

Section G2RFacts.
Context (area_element : nat → Z → DOFDesc → expr).
Context (inverse_metric_derivative : nat → nat → nat → nat → expr).
Context (ambient_dim dim : nat).

Abbreviation G2R := (GlobalToReferenceMapper area_element inverse_metric_derivative ambient_dim dim).

Lemma reference_form_rewrite_derivative xyz_axis ref_class rec_field dd_in with_jacobian :
  (∀ a d dd, reference_form (area_element a d dd)) →
  (∀ r x a d, reference_form (inverse_metric_derivative r x a d)) →
  (∀ r, is_global (ref_class r) = false) →
  reference_form rec_field →
  reference_form
    (rewrite_derivative area_element inverse_metric_derivative ambient_dim dim
       xyz_axis ref_class rec_field dd_in with_jacobian).
Proof.
  intros Hae Himd Hclass Hfield. unfold rewrite_derivative.
  apply ops_in_builtin_sum, Forall_map, list.Forall_forall. intros r _.
  apply ops_in_mul; [apply Himd|]. apply ops_in_call; [apply Hclass|].
  destruct with_jacobian; [apply ops_in_mul; [apply Hae|exact Hfield]|exact Hfield].
Qed.

Lemma GlobalToReferenceMapper_gives_reference_form :
  (∀ a d dd, reference_form (area_element a d dd)) →
  (∀ r x a d, reference_form (inverse_metric_derivative r x a d)) →
  ∀ e, reference_form (G2R e).
Proof.
  intros Hae Himd. induction e as [c|name dd|children IH|children IH|a b IHa IHb|op field IH]
    using expr_children_ind; unfold reference_form in *.
  - constructor.
  - constructor.
  - cbn [GlobalToReferenceMapper]. apply bindings_Sum, Forall_map. exact IH.
  - cbn [GlobalToReferenceMapper]. apply bindings_Product, Forall_map. exact IH.
  - cbn [GlobalToReferenceMapper]. simpl. by apply Forall_app.
  - cbn [GlobalToReferenceMapper]. unfold map_operator_binding.
    assert (Hrd : ∀ x rc ddi wj, (∀ r, is_global (rc r) = false) →
              reference_form (rewrite_derivative area_element inverse_metric_derivative
                                ambient_dim dim x rc (G2R field) ddi wj)).
    { intros. by apply reference_form_rewrite_derivative. }
    destruct (class_of op) eqn:Hclass;
      try (by constructor; [simpl; rewrite Hclass|exact IH]).
    + apply ops_in_call; [done|]. apply ops_in_mul; [apply Hae|exact IH].
    + apply ops_in_call; [done|].
      apply ops_in_mul; [apply ops_in_reciprocal, Hae|exact IH].
    + apply ops_in_call; [done|]. apply ops_in_mul; [apply ops_in_neg, Hae|exact IH].
    + apply ops_in_call; [done|]. apply ops_in_mul; [apply Hae|].
      case_match; [|by apply Hrd]. by destruct field.
    + by apply Hrd.
    + by apply Hrd.
    + case_match.
      * by destruct field.
      * apply ops_in_call; [done|].
        apply ops_in_mul; [apply ops_in_reciprocal, Hae|]. by apply Hrd.
Qed.

Lemma GlobalToReferenceMapper_keeps_reference_form e :
  reference_form e → G2R e = e.
Proof.
  induction e as [c|name dd|children IH|children IH|a b IHa IHb|op field IH]
    using expr_children_ind; unfold reference_form in *; intros Href.
  - done.
  - done.
  - cbn [GlobalToReferenceMapper]. f_equal.
    apply bindings_Sum in Href.
    induction children as [|c cs IHcs]; [done|].
    inversion IH; inversion Href; subst. simpl. f_equal; auto.
  - cbn [GlobalToReferenceMapper]. f_equal.
    apply bindings_Product in Href.
    induction children as [|c cs IHcs]; [done|].
    inversion IH; inversion Href; subst. simpl. f_equal; auto.
  - unfold reference_form in Href. simpl in Href. apply Forall_app in Href as [Ha Hb].
    cbn [GlobalToReferenceMapper]. by rewrite (IHa Ha), (IHb Hb).
  - unfold reference_form in Href. simpl in Href. inversion Href as [|? ? Hop Hfield]; subst.
    cbn [GlobalToReferenceMapper]. unfold map_operator_binding.
    rewrite (IH Hfield). simpl in Hop. by destruct (class_of op).
Qed.

(** X1. When the geometry expressions bind no global operator, the result
    of [GlobalToReferenceMapper] binds none of the operators the mapper
    rewrites (mass, inverse mass, face mass, stiffness, differentiation,
    transposed stiffness and their composition with the inverse mass), a
    second run of the mapper changes nothing, and the mapper returns an
    expression that binds none of them as it is. *)
Theorem GlobalToReferenceMapper_reference_form_idempotent :
  (∀ a d dd, reference_form (area_element a d dd)) →
  (∀ r x a d, reference_form (inverse_metric_derivative r x a d)) →
  (∀ e, reference_form (G2R e) ∧ G2R (G2R e) = G2R e)
  ∧ (∀ e, reference_form e → G2R e = e).
Proof.
  intros Hae Himd. split; [|apply GlobalToReferenceMapper_keeps_reference_form].
  intros e. split; [by apply GlobalToReferenceMapper_gives_reference_form|].
  by apply GlobalToReferenceMapper_keeps_reference_form,
    GlobalToReferenceMapper_gives_reference_form.
Qed.

End G2RFacts.

Section G2RComposition.
Context (area_element : nat → Z → DOFDesc → expr).
Context (inverse_metric_derivative : nat → nat → nat → nat → expr).
Context (ambient_dim dim : nat).

Abbreviation G2R := (GlobalToReferenceMapper area_element inverse_metric_derivative ambient_dim dim).


End G2RComposition.

(** ** More on the contraction of inverse mass operators *)

Section ContractorFacts.

Lemma inner_mass_binding m f n :
  class_of m = MassOperator →
  _InnerInverseMassContractor (OperatorBinding m f) n = (Ok f, n).
Proof.
  intros Hm. rewrite _InnerInverseMassContractor_binding.
  unfold inner_map_operator_binding. by rewrite Hm.
Qed.

Lemma mapM_inner_mass_bindings (pairs : list (Operator * expr)) n :
  Forall (λ p, class_of p.1 = MassOperator) pairs →
  mapM (λ c : Counting expr, c)
    (map _InnerInverseMassContractor (map (λ p, OperatorBinding p.1 p.2) pairs)) n
  = (Ok (map snd pairs), n).
Proof.
  induction 1 as [|[m f] ps Hm _ IH]; [done|].
  simpl. unfold Py.bind at 1. simpl in Hm. rewrite (inner_mass_binding m f n Hm).
  unfold Py.bind at 1. simpl in IH. rewrite IH. done.
Qed.

(** X3. [InverseMassContractor] cancels an inverse mass operator against
    the mass operators it reaches: bound to the binding of a mass operator
    it gives the field, bound to a sum of such bindings the sum of the
    fields, and bound to the product of a number with such a binding the
    product of the number with the field. *)
Theorem InverseMassContractor_cancels_mass_bindings (minv : Operator)
    (pairs : list (Operator * expr)) :
  class_of minv = InverseMassOperator →
  Forall (λ p, class_of p.1 = MassOperator) pairs →
  (∀ m f, (m, f) ∈ pairs →
     InverseMassContractor (OperatorBinding minv (OperatorBinding m f)) = Ok f)
  ∧ InverseMassContractor
      (OperatorBinding minv (Sum (map (λ p, OperatorBinding p.1 p.2) pairs)))
    = Ok (Sum (map snd pairs))
  ∧ (∀ m f c, (m, f) ∈ pairs →
       InverseMassContractor
         (OperatorBinding minv (Product [Constant c; OperatorBinding m f]))
       = Ok (Product [Constant c; f])).
Proof.
  intros Hminv Hpairs. split; [|split].
  - intros m f Hin. rewrite InverseMassContractor_binding.
    unfold outer_map_operator_binding. rewrite Hminv.
    rewrite inner_mass_binding; [done|].
    by apply (proj1 (list.Forall_forall _ _) Hpairs (m, f)).
  - rewrite InverseMassContractor_binding.
    unfold outer_map_operator_binding. rewrite Hminv.
    rewrite _InnerInverseMassContractor_sum. unfold inner_map_sum, Py.bind.
    by rewrite mapM_inner_mass_bindings.
  - intros m f c Hin. rewrite InverseMassContractor_binding.
    unfold outer_map_operator_binding. rewrite Hminv.
    rewrite _InnerInverseMassContractor_product. unfold inner_map_product.
    cbn [filter map length is_scalar zip mapM]. simpl.
    unfold Py.bind. simpl. rewrite inner_mass_binding; [done|].
    by apply (proj1 (list.Forall_forall _ _) Hpairs (m, f)).
Qed.

End ContractorFacts.

Section ContractorTotal.

Lemma counts_up_ret {A} (a : A) : counts_up (ret a).
Proof. intros n. by exists a, n. Qed.

Lemma counts_up_bind {A B} (m : Counting A) (k : A → Counting B) :
  counts_up m → (∀ a, counts_up (k a)) → counts_up (Py.bind m k).
Proof.
  intros Hm Hk n. destruct (Hm n) as (a & n1 & Hrun & Hle).
  destruct (Hk a n1) as (b & n2 & Hrun' & Hle').
  exists b, n2. unfold Py.bind. rewrite Hrun, Hrun'. split; [done|lia].
Qed.

Lemma counts_up_mapM {A B} (f : A → Counting B) l :
  Forall (λ a, counts_up (f a)) l → counts_up (mapM f l).
Proof.
  induction 1 as [|a l Ha _ IH]; [apply counts_up_ret|].
  apply counts_up_bind; [done|]. intros b.
  apply counts_up_bind; [done|]. intros bs. apply counts_up_ret.
Qed.

Lemma counts_up_increment : counts_up increment_extra_operator_count.
Proof. intros n. exists tt, (S n). split; [done|lia]. Qed.

Lemma counts_up_lift_Ok {A} (a : A) : counts_up (lift (Ok a)).
Proof. intros n. by exists a, n. Qed.

Lemma map_result_returns {A B} (f : A → result B) l :
  Forall (λ a, ∃ b, f a = Ok b) l → ∃ bs, map_result f l = Ok bs.
Proof.
  induction 1 as [|a l [b Hb] _ [bs IH]]; [by exists []|].
  exists (b :: bs). simpl. rewrite Hb. simpl. simpl in IH. by rewrite IH.
Qed.

Lemma InverseMassContractor_quotient a b :
  InverseMassContractor (Quotient a b)
  = (let? a := InverseMassContractor a in
     let? b := InverseMassContractor b in Ok (Quotient a b)).
Proof. done. Qed.

Lemma _InnerInverseMassContractor_quotient a b :
  _InnerInverseMassContractor (Quotient a b)
  = inner_map_algebraic_leaf (InverseMassContractor (Quotient a b)).
Proof. done. Qed.


(** X5. [InverseMassContractor] returns an expression unchanged when none
    of its bindings is one of the inverse mass operator and none binds an
    operator to zero. *)
Theorem InverseMassContractor_without_inverse_mass (e : expr) :
  Forall (λ binding, class_of binding.1 ≠ InverseMassOperator ∧ is_zero binding.2 = false)
    (bindings e) →
  InverseMassContractor e = Ok e.
Proof.
  induction e as [c|name dd|children IH|children IH|a b IHa IHb|op field IH]
    using expr_children_ind; intros Hall.
  - done.
  - done.
  - apply bindings_Sum in Hall. rewrite InverseMassContractor_sum.
    rewrite (map_result_all_ok _ id).
    + simpl. by rewrite map_id.
    + apply list.Forall_forall. intros c Hc.
      apply (proj1 (list.Forall_forall _ _) IH c Hc),
        (proj1 (list.Forall_forall _ _) Hall c Hc).
  - apply bindings_Product in Hall. rewrite InverseMassContractor_product.
    rewrite (map_result_all_ok _ id).
    + simpl. by rewrite map_id.
    + apply list.Forall_forall. intros c Hc.
      apply (proj1 (list.Forall_forall _ _) IH c Hc),
        (proj1 (list.Forall_forall _ _) Hall c Hc).
  - simpl in Hall. apply Forall_app in Hall as [Ha Hb].
    by rewrite InverseMassContractor_quotient, (IHa Ha), (IHb Hb).
  - simpl in Hall. inversion Hall as [|? ? [Hop Hzero] Hfield]; subst. simpl in *.
    rewrite InverseMassContractor_binding. unfold outer_map_operator_binding.
    rewrite (IH Hfield). simpl. unfold call. rewrite Hzero.
    by destruct (class_of op).
Qed.

End ContractorTotal.

(** ** The value of a folded expression *)

Section Values.
Context (ρ : string → DOFDesc → Qc) (φ : Operator → Qc → Qc).
Hypothesis φ_zero : ∀ op, φ op 0 = 0.

Abbreviation val := (denote ρ φ).
Abbreviation vals := (denote_all ρ φ).

Lemma fold_operator_assoc klass x y z :
  fold_operator klass x (fold_operator klass y z)
  = fold_operator klass (fold_operator klass x y) z.
Proof. destruct klass; simpl; ring. Qed.

Lemma fold_operator_comm klass x y : fold_operator klass x y = fold_operator klass y x.
Proof. destruct klass; simpl; ring. Qed.

Lemma fold_operator_unit klass x : fold_operator klass (class_unit klass) x = x.
Proof. destruct klass; simpl; ring. Qed.

Lemma fold_operator_unit_r klass x : fold_operator klass x (class_unit klass) = x.
Proof. destruct klass; simpl; ring. Qed.

Lemma vals_app klass xs ys :
  vals klass (xs ++ ys) = fold_operator klass (vals klass xs) (vals klass ys).
Proof.
  unfold denote_all. induction xs as [|x xs IH]; simpl.
  - by rewrite fold_operator_unit.
  - by rewrite IH, fold_operator_assoc.
Qed.

Lemma vals_cons klass x xs :
  vals klass (x :: xs) = fold_operator klass (val x) (vals klass xs).
Proof. done. Qed.

Lemma val_of_class klass e children :
  children_of_class klass e = Some children → val e = vals klass children.
Proof.
  destruct klass, e; simpl; intros [= <-]; done.
Qed.

Lemma val_Sum children : val (Sum children) = vals SumClass children.
Proof. done. Qed.

Lemma val_Product children : val (Product children) = vals ProductClass children.
Proof. done. Qed.

Lemma is_zero_val e : is_zero e = true → val e = 0.
Proof. destruct e; simpl; try done. by intros ?%bool_decide_eq_true. Qed.

Lemma is_one_val e : is_one e = true → val e = 1.
Proof. destruct e; simpl; try done. by intros ?%bool_decide_eq_true. Qed.


Lemma foldl_fold_operator klass c cs :
  foldl (fold_operator klass) c cs = fold_operator klass c (constants_value klass cs).
Proof.
  revert c. induction cs as [|x xs IH]; intros c; simpl.
  - by rewrite fold_operator_unit_r.
  - by rewrite IH, fold_operator_assoc.
Qed.

Lemma constants_value_app klass xs ys :
  constants_value klass (xs ++ ys)
  = fold_operator klass (constants_value klass xs) (constants_value klass ys).
Proof.
  unfold constants_value. induction xs as [|x xs IH]; simpl.
  - by rewrite fold_operator_unit.
  - by rewrite IH, fold_operator_assoc.
Qed.

Lemma pymbolic_evaluate_val e v : pymbolic_evaluate e = Ok v → val e = v.
Proof.
  revert v. induction e as [c|name dd|children IH|children IH|a b IHa IHb|op field IH]
    using expr_children_ind; intros v; simpl; try done.
  - by intros [= ->].
  - destruct (map_result pymbolic_evaluate children) as [values|] eqn:Hvalues; [|done].
    simpl. intros [= <-]. rewrite (foldl_fold_operator SumClass).
    simpl. rewrite Qcplus_0_l.
    revert values Hvalues. induction children as [|c cs IHcs]; intros values; simpl.
    + by intros [= <-].
    + inversion IH as [|? ? Hc Hcs]; subst.
      destruct (pymbolic_evaluate c) as [x|] eqn:Hx; [|done]. simpl.
      destruct (map_result pymbolic_evaluate cs) as [xs|] eqn:Hxs; [|done]. simpl.
      intros [= <-]. simpl. by rewrite (Hc x eq_refl), (IHcs Hcs xs eq_refl).
  - destruct (map_result pymbolic_evaluate children) as [values|] eqn:Hvalues; [|done].
    simpl. intros [= <-]. rewrite (foldl_fold_operator ProductClass).
    simpl. rewrite Qcmult_1_l.
    revert values Hvalues. induction children as [|c cs IHcs]; intros values; simpl.
    + by intros [= <-].
    + inversion IH as [|? ? Hc Hcs]; subst.
      destruct (pymbolic_evaluate c) as [x|] eqn:Hx; [|done]. simpl.
      destruct (map_result pymbolic_evaluate cs) as [xs|] eqn:Hxs; [|done]. simpl.
      intros [= <-]. simpl. by rewrite (Hc x eq_refl), (IHcs Hcs xs eq_refl).
  - destruct (pymbolic_evaluate a) as [x|]; [|done]. simpl.
    destruct (pymbolic_evaluate b) as [y|]; [|done]. simpl.
    case_bool_decide; [done|]. intros [= <-]. by rewrite (IHa x), (IHb y).
Qed.

Lemma evaluate_val e v : evaluate e = Ok (Some v) → val e = v.
Proof.
  unfold evaluate. destruct (pymbolic_evaluate e) as [x|err] eqn:Hx.
  - intros [= <-]. by apply pymbolic_evaluate_val.
  - by destruct err.
Qed.

Lemma flattened_sum_loop_val turns queue :
  (size_list queue < turns)%nat →
  vals SumClass (flattened_sum_loop turns queue) = vals SumClass queue.
Proof.
  revert queue. induction turns as [|turns IH]; intros queue Hturns; [lia|].
  destruct queue as [|item queue]; [done|].
  rewrite size_list_cons in Hturns. pose proof (size_pos item).
  cbn [flattened_sum_loop]. rewrite vals_cons.
  destruct (is_zero item) eqn:Hzero.
  - rewrite IH by lia. rewrite (is_zero_val item Hzero). simpl. ring.
  - destruct item as [c|name dd|children|children|a b|op field];
      try (rewrite vals_cons, IH by lia; done).
    rewrite IH.
    + rewrite vals_app, val_Sum. apply fold_operator_comm.
    + rewrite size_list_app. rewrite size_Sum in Hturns. lia.
Qed.

Lemma flattened_sum_val terms : val (flattened_sum terms) = vals SumClass terms.
Proof.
  unfold flattened_sum.
  rewrite <- (flattened_sum_loop_val (S (size_list terms)) terms) by lia.
  destruct (flattened_sum_loop (S (size_list terms)) terms) as [|item [|item' done]].
  - done.
  - unfold denote_all. simpl. ring.
  - done.
Qed.

Lemma flattened_product_loop_val turns queue :
  (size_list queue < turns)%nat →
  match flattened_product_loop turns queue with
  | None => vals ProductClass queue = 0
  | Some done => vals ProductClass done = vals ProductClass queue
  end.
Proof.
  revert queue. induction turns as [|turns IH]; intros queue Hturns; [lia|].
  destruct queue as [|item queue]; [done|].
  rewrite size_list_cons in Hturns. pose proof (size_pos item).
  cbn [flattened_product_loop]. rewrite vals_cons.
  destruct (is_zero item) eqn:Hzero.
  { rewrite (is_zero_val item Hzero). simpl. ring. }
  destruct (is_one item) eqn:Hone.
  { specialize (IH queue ltac:(lia)). rewrite (is_one_val item Hone).
    destruct (flattened_product_loop turns queue); rewrite IH; simpl; ring. }
  assert (Hother :
    match cons item <$> flattened_product_loop turns queue with
    | Some done => vals ProductClass done
                   = fold_operator ProductClass (val item) (vals ProductClass queue)
    | None => fold_operator ProductClass (val item) (vals ProductClass queue) = 0
    end).
  { specialize (IH queue ltac:(lia)).
    destruct (flattened_product_loop turns queue) as [done|].
    - change (vals ProductClass (item :: done)
              = fold_operator ProductClass (val item) (vals ProductClass queue)).
      by rewrite vals_cons, IH.
    - change (fold_operator ProductClass (val item) (vals ProductClass queue) = 0).
      rewrite IH. simpl. ring. }
  destruct item as [c|name dd|children|children|a b|op field]; try exact Hother.
  clear Hother.
  specialize (IH (queue ++ children)). rewrite size_list_app in IH.
  rewrite size_Product in Hturns. specialize (IH ltac:(lia)).
  rewrite vals_app in IH. rewrite val_Product.
  destruct (flattened_product_loop turns (queue ++ children)).
  - rewrite IH. apply fold_operator_comm.
  - by rewrite fold_operator_comm.
Qed.

Lemma flattened_product_val terms :
  val (flattened_product terms) = vals ProductClass terms.
Proof.
  unfold flattened_product.
  pose proof (flattened_product_loop_val (S (size_list terms)) terms ltac:(lia)) as H.
  destruct (flattened_product_loop (S (size_list terms)) terms) as [[|item [|item' done]]|].
  - by rewrite <- H.
  - rewrite <- H. unfold denote_all. simpl. ring.
  - by rewrite <- H.
  - by rewrite H.
Qed.

Lemma fold_constructor_val klass terms :
  val (fold_constructor klass terms) = vals klass terms.
Proof. destruct klass; [apply flattened_sum_val|apply flattened_product_val]. Qed.

Lemma fold_loop_val (rec : expr → bounded expr) klass :
  (∀ e r, rec e = Some (Ok r) → val r = val e) →
  ∀ turns queue constants nonconstants r,
    fold_loop rec klass turns queue constants nonconstants = Some (Ok r) →
    val r
    = fold_operator klass (constants_value klass constants)
        (fold_operator klass (vals klass queue) (vals klass nonconstants)).
Proof.
  intros Hrec. induction turns as [|turns IH]; intros queue constants nonconstants r;
    [done|].
  cbn [fold_loop]. destruct queue as [|item queue].
  - destruct constants as [|c cs]; intros [= <-]; rewrite fold_constructor_val.
    + unfold denote_all at 2. simpl. by rewrite !fold_operator_unit.
    + rewrite vals_cons. unfold reduce. rewrite foldl_fold_operator.
      unfold denote_all at 2. simpl. by rewrite fold_operator_unit.
  - destruct (rec item) as [[child|err]|] eqn:Hitem; [|done|done].
    specialize (Hrec _ _ Hitem). rewrite vals_cons, <- Hrec.
    destruct (children_of_class klass child) as [children|] eqn:Hclass.
    { intros Hr. rewrite (IH _ _ _ _ Hr), vals_app.
      by rewrite (val_of_class _ _ _ Hclass). }
    assert (Hnon : ∀ r, fold_loop rec klass turns queue constants (nonconstants ++ [child])
                        = Some (Ok r) →
              val r = fold_operator klass (constants_value klass constants)
                        (fold_operator klass
                           (fold_operator klass (val child) (vals klass queue))
                           (vals klass nonconstants))).
    { intros r' Hr. rewrite (IH _ _ _ _ Hr), vals_app, vals_cons.
      unfold denote_all at 3. simpl. rewrite fold_operator_unit_r.
      destruct klass; simpl; ring. }
    destruct (is_constant child); [|apply Hnon].
    destruct (evaluate child) as [[value|]|err] eqn:Hvalue; [|apply Hnon|done].
    intros Hr. rewrite (IH _ _ _ _ Hr), constants_value_app.
    rewrite (evaluate_val _ _ Hvalue). unfold constants_value at 2. simpl.
    rewrite fold_operator_unit_r.
    destruct klass; simpl; ring.
Qed.

Lemma CommutativeConstantFoldingMapper_val fuel e r :
  CommutativeConstantFoldingMapper fuel e = Some (Ok r) → val r = val e.
Proof.
  revert e r. induction fuel as [|fuel IH]; intros e r; [done|].
  cbn [CommutativeConstantFoldingMapper].
  destruct e as [c|name dd|children|children|a b|op field].
  - by intros [= <-].
  - by intros [= <-].
  - intros Hr. rewrite (fold_loop_val _ SumClass IH _ _ _ _ _ Hr), val_Sum.
    unfold constants_value, denote_all at 2. simpl. ring.
  - intros Hr. rewrite (fold_loop_val _ ProductClass IH _ _ _ _ _ Hr), val_Product.
    unfold constants_value, denote_all at 2. simpl. ring.
  - destruct (CommutativeConstantFoldingMapper fuel a) as [[a'|]|] eqn:Ha; [|done|done].
    destruct (CommutativeConstantFoldingMapper fuel b) as [[b'|]|] eqn:Hb; [|done|done].
    intros [= <-]. simpl. by rewrite (IH _ _ Ha), (IH _ _ Hb).
  - destruct (CommutativeConstantFoldingMapper fuel field) as [[field'|]|] eqn:Hf;
      [|done|done].
    destruct (is_zero field') eqn:Hzero.
    + intros [= <-]. simpl. rewrite <- (IH _ _ Hf), (is_zero_val _ Hzero). by rewrite φ_zero.
    + intros [= <-]. unfold call. rewrite Hzero. simpl. by rewrite (IH _ _ Hf).
Qed.


End Values.

Section ClosedExpressions.

Lemma concat_nil_Forall {A} (ls : list (list A)) :
  concat ls = [] ↔ Forall (λ l, l = []) ls.
Proof.
  induction ls as [|l ls IH]; simpl; [split; [constructor|done]|].
  split.
  - intros [-> Hls]%app_eq_nil. constructor; [done|]. by apply IH.
  - intros Hall. inversion Hall; subst. simpl. by apply IH.
Qed.

Lemma is_constant_children children :
  is_constant (Sum children) = true ↔ Forall (λ c, is_constant c = true) children.
Proof.
  unfold is_constant. simpl.
  assert (Hnil : ∀ l : list expr, match l with [] => true | _ => false end = true ↔ l = []).
  { intros [|? ?]; split; done. }
  rewrite Hnil, concat_nil_Forall, Forall_map. split; intros Hall;
    (eapply list.Forall_impl; [exact Hall|]); intros c; by rewrite Hnil.
Qed.

Lemma is_constant_Product children :
  is_constant (Product children) = is_constant (Sum children).
Proof. done. Qed.

Lemma is_constant_Quotient a b :
  is_constant (Quotient a b) = true ↔ is_constant a = true ∧ is_constant b = true.
Proof.
  unfold is_constant. simpl.
  destruct (DependencyMapper true a), (DependencyMapper true b); simpl; split; try done.
  all: by intros [? ?].
Qed.

Lemma is_constant_of_class klass e children :
  children_of_class klass e = Some children → is_constant e = true →
  Forall (λ c, is_constant c = true) children.
Proof.
  destruct klass, e; simpl; intros [= <-]; try done.
  - by intros ?%is_constant_children.
  - rewrite is_constant_Product. by intros ?%is_constant_children.
Qed.

(** A closed expression has a value, unless it divides by zero. *)
Lemma pymbolic_evaluate_closed e :
  is_constant e = true →
  (∃ v, pymbolic_evaluate e = Ok v) ∨ pymbolic_evaluate e = Raise ZeroDivisionError.
Proof.
  induction e as [c|name dd|children IH|children IH|a b IHa IHb|op field IH]
    using expr_children_ind; try done.
  - intros _. left. by eexists.
  - intros Hclosed%is_constant_children. simpl.
    assert (Hall : (∃ vs, map_result pymbolic_evaluate children = Ok vs)
                   ∨ map_result pymbolic_evaluate children = Raise ZeroDivisionError).
    { clear -IH Hclosed. induction children as [|c cs IHcs]; [left; by eexists|].
      inversion IH as [|? ? Hc Hcs]; inversion Hclosed; subst. simpl.
      destruct (Hc ltac:(done)) as [[v ->]| ->]; [|by right]. simpl.
      destruct (IHcs Hcs ltac:(done)) as [[vs Hvs]|Hraise]; simpl in *.
      - rewrite Hvs. left. by eexists.
      - rewrite Hraise. by right. }
    destruct Hall as [[vs ->]| ->]; [left; by eexists|by right].
  - rewrite is_constant_Product. intros Hclosed%is_constant_children. simpl.
    assert (Hall : (∃ vs, map_result pymbolic_evaluate children = Ok vs)
                   ∨ map_result pymbolic_evaluate children = Raise ZeroDivisionError).
    { clear -IH Hclosed. induction children as [|c cs IHcs]; [left; by eexists|].
      inversion IH as [|? ? Hc Hcs]; inversion Hclosed; subst. simpl.
      destruct (Hc ltac:(done)) as [[v ->]| ->]; [|by right]. simpl.
      destruct (IHcs Hcs ltac:(done)) as [[vs Hvs]|Hraise]; simpl in *.
      - rewrite Hvs. left. by eexists.
      - rewrite Hraise. by right. }
    destruct Hall as [[vs ->]| ->]; [left; by eexists|by right].
  - intros [Ha Hb]%is_constant_Quotient. simpl.
    destruct (IHa Ha) as [[x ->]| ->]; [|by right]. simpl.
    destruct (IHb Hb) as [[y ->]| ->]; [|by right]. simpl.
    case_bool_decide; [by right|left; by eexists].
Qed.


Lemma fold_constructor_number klass c :
  ∃ c', fold_constructor klass [Constant c] = Constant c'.
Proof.
  destruct klass; simpl.
  - unfold flattened_sum. simpl. case_bool_decide; by eexists.
  - unfold flattened_product. simpl. case_bool_decide; [by eexists|].
    case_bool_decide; by eexists.
Qed.

Lemma fold_loop_closed (rec : expr → bounded expr) klass :
  (∀ e x, is_constant e = true → rec e = Some x → folds_closed x) →
  ∀ turns queue constants x,
    Forall (λ c, is_constant c = true) queue →
    fold_loop rec klass turns queue constants [] = Some x →
    folds_to_number x.
Proof.
  intros Hrec. induction turns as [|turns IH]; intros queue constants x Hclosed; [done|].
  cbn [fold_loop]. destruct queue as [|item queue].
  - destruct constants as [|c cs]; intros [= <-]; right.
    + destruct klass; by eexists.
    + destruct (fold_constructor_number klass (reduce (fold_operator klass) c cs)) as [c' ->].
      by eexists.
  - inversion Hclosed as [|? ? Hitem Hqueue]; subst.
    destruct (rec item) as [[child|err]|] eqn:Hchild; [| |done].
    + destruct (Hrec _ _ Hitem Hchild) as [?|(r & [= <-] & Hr)]; [done|].
      destruct (children_of_class klass child) as [children|] eqn:Hclass.
      { apply IH, Forall_app. split; [|done]. by eapply is_constant_of_class. }
      rewrite Hr. unfold evaluate.
      destruct (pymbolic_evaluate_closed child Hr) as [[v ->]| ->].
      * by apply IH.
      * intros [= <-]. by left.
    + destruct (Hrec _ _ Hitem Hchild) as [[= ->]|(r & [=] & _)].
      intros [= <-]. by left.
Qed.

Lemma CommutativeConstantFoldingMapper_closed fuel e x :
  is_constant e = true →
  CommutativeConstantFoldingMapper fuel e = Some x →
  folds_closed x
  ∧ ((∃ children, e = Sum children ∨ e = Product children) → folds_to_number x).
Proof.
  revert e x. induction fuel as [|fuel IH]; intros e x Hclosed; [done|].
  cbn [CommutativeConstantFoldingMapper].
  assert (Hrec : ∀ e x, is_constant e = true →
            CommutativeConstantFoldingMapper fuel e = Some x → folds_closed x).
  { intros e' x' He' Hx'. by apply (IH e' x'). }
  assert (Hnumber : ∀ y, folds_to_number y → folds_closed y).
  { intros y [->|[c ->]]; [by left|right]. by eexists. }
  destruct e as [c|name dd|children|children|a b|op field]; try done.
  - intros [= <-]. split; [right; by eexists|]. by intros (? & [?|?]).
  - intros Hx.
    assert (Hx' : folds_to_number x).
    { eapply fold_loop_closed; [exact Hrec| |exact Hx]. by apply is_constant_children. }
    split; [by apply Hnumber|done].
  - intros Hx.
    assert (Hx' : folds_to_number x).
    { eapply fold_loop_closed; [exact Hrec| |exact Hx].
      rewrite is_constant_Product in Hclosed. by apply is_constant_children. }
    split; [by apply Hnumber|done].
  - apply is_constant_Quotient in Hclosed as [Ha Hb].
    destruct (CommutativeConstantFoldingMapper fuel a) as [[a'|erra]|] eqn:Hra; [| |done].
    + destruct (Hrec _ _ Ha Hra) as [?|(ra & [= <-] & Hca)]; [done|].
      destruct (CommutativeConstantFoldingMapper fuel b) as [[b'|errb]|] eqn:Hrb; [| |done].
      * destruct (Hrec _ _ Hb Hrb) as [?|(rb & [= <-] & Hcb)]; [done|].
        intros [= <-]. split; [|by intros (? & [?|?])].
        right. eexists. split; [done|]. by apply is_constant_Quotient.
      * destruct (Hrec _ _ Hb Hrb) as [[= ->]|(? & [=] & _)].
        intros [= <-]. split; [by left|by intros (? & [?|?])].
    + destruct (Hrec _ _ Ha Hra) as [[= ->]|(? & [=] & _)].
      intros [= <-]. split; [by left|by intros (? & [?|?])].
Qed.


(** X7. A sum or a product whose children have no variables folds to one
    number, its value, unless folding raises the error of a division by
    zero. *)
Theorem constant_folding_of_closed_expressions
    (ρ : string → DOFDesc → Qc) (φ : Operator → Qc → Qc) (children : list expr) (e : expr) :
  (∀ op, φ op 0 = 0) →
  Forall (λ c, is_constant c = true) children →
  e = Sum children ∨ e = Product children →
  CommutativeConstantFoldingMapper (S (size e)) e = Some (Raise ZeroDivisionError)
  ∨ CommutativeConstantFoldingMapper (S (size e)) e
    = Some (Ok (Constant (denote ρ φ e))).
Proof.
  intros Hφ Hchildren He.
  assert (Hclosed : is_constant e = true).
  { destruct He as [-> | ->]; [|rewrite is_constant_Product]; by apply is_constant_children. }
  pose proof (CommutativeConstantFoldingMapper_terminates (S (size e))) as Hreturns.
  destruct (Hreturns e) as (x & Hx & _); [lia|].
  destruct (CommutativeConstantFoldingMapper_closed _ _ _ Hclosed Hx) as [_ Hnumber].
  destruct Hnumber as [->|[c ->]]; [by exists children|by left|]. right.
  rewrite Hx. do 3 f_equal.
  apply (CommutativeConstantFoldingMapper_val ρ φ Hφ _ _ _ Hx).
Qed.

End ClosedExpressions.

Lemma constant_folding_of_closed_expressions_witness :
  CommutativeConstantFoldingMapper 8
    (Sum [Constant (Example.q 1);
          Product [Constant (Example.q 2); Constant (Example.q 3)];
          Quotient (Constant (Example.q 1)) (Constant (Example.q 2))])
  = Some (Ok (Constant (Example.q 15 / Example.q 2))).
Proof.
  destruct (constant_folding_of_closed_expressions (λ _ _, 0) (λ _ x, x)
              [Constant (Example.q 1);
               Product [Constant (Example.q 2); Constant (Example.q 3)];
               Quotient (Constant (Example.q 1)) (Constant (Example.q 2))]
              _ (λ _, eq_refl) ltac:(repeat constructor) (or_introl eq_refl))
    as [Hraise|Hfolded].
  - vm_compute in Hraise. discriminate Hraise.
  - etransitivity; [exact Hfolded|]. compare_computed.
Defined.

(** ** The other mappers *)

Section ErrorCheckerFacts.
Context (DiffOperatorBase_xyz_axis : Operator → option nat).


Lemma map_result_either {A} (f : A → result A) (err : exn) l :
  Forall (λ a, f a = Ok a ∨ f a = Raise err) l →
  map_result f l = Ok l ∨ map_result f l = Raise err.
Proof.
  induction 1 as [|a l [Ha|Ha] _ [IH|IH]]; simpl in *; rewrite ?Ha, ?IH; simpl; auto.
Qed.

Lemma map_result_Ok_same {A} (f : A → result A) l :
  map_result f l = Ok l → Forall (λ a, f a = Ok a) l.
Proof.
  induction l as [|a l IH]; [constructor|]. simpl.
  destruct (f a) as [b|] eqn:Ha; [|done]. simpl.
  destruct (map_result f l) as [bs|] eqn:Hl; [|done]. simpl.
  intros [= -> ->]. constructor; [done|]. by apply IH.
Qed.

Lemma ErrorChecker_either mesh e :
  ErrorChecker DiffOperatorBase_xyz_axis mesh e = Ok e
  ∨ ErrorChecker DiffOperatorBase_xyz_axis mesh e = Raise nonexistent_axis.
Proof.
  induction e as [c|name dd|children IH|children IH|a b IHa IHb|op field IH]
    using expr_children_ind; cbn [ErrorChecker].
  - by left.
  - by left.
  - destruct (map_result_either _ _ _ IH) as [-> | ->]; auto.
  - destruct (map_result_either _ _ _ IH) as [-> | ->]; auto.
  - destruct IHa as [-> | ->]; [|by right]. destruct IHb as [-> | ->]; auto.
  - unfold check_axis. destruct (DiffOperatorBase_xyz_axis op) as [xyz_axis|];
      [destruct mesh as [mesh|]; [destruct (mesh_dim mesh <=? xyz_axis)%nat; [by right|]|]|];
      cbn [result_bind]; destruct IH as [-> | ->]; auto.
Qed.

Lemma ErrorChecker_accepts mesh e :
  Forall (axis_exists DiffOperatorBase_xyz_axis mesh) (bindings e) →
  ErrorChecker DiffOperatorBase_xyz_axis (Some mesh) e = Ok e.
Proof.
  induction e as [c|name dd|children IH|children IH|a b IHa IHb|op field IH]
    using expr_children_ind; cbn [ErrorChecker]; intros Haxes.
  - done.
  - done.
  - apply bindings_Sum in Haxes. rewrite (map_result_all_ok _ id).
    + simpl. by rewrite map_id.
    + apply list.Forall_forall. intros c Hc.
      apply (proj1 (list.Forall_forall _ _) IH c Hc),
        (proj1 (list.Forall_forall _ _) Haxes c Hc).
  - apply bindings_Product in Haxes. rewrite (map_result_all_ok _ id).
    + simpl. by rewrite map_id.
    + apply list.Forall_forall. intros c Hc.
      apply (proj1 (list.Forall_forall _ _) IH c Hc),
        (proj1 (list.Forall_forall _ _) Haxes c Hc).
  - simpl in Haxes. apply Forall_app in Haxes as [Ha Hb]. by rewrite (IHa Ha), (IHb Hb).
  - simpl in Haxes. inversion Haxes as [|? ? Hop Hfield]; subst.
    rewrite (IH Hfield). unfold check_axis, axis_exists in *. simpl in Hop.
    destruct (DiffOperatorBase_xyz_axis op) as [xyz_axis|]; [|done].
    specialize (Hop xyz_axis eq_refl).
    by rewrite (proj2 (Nat.leb_gt (mesh_dim mesh) xyz_axis)).
Qed.

Lemma ErrorChecker_accepted mesh e :
  ErrorChecker DiffOperatorBase_xyz_axis (Some mesh) e = Ok e →
  Forall (axis_exists DiffOperatorBase_xyz_axis mesh) (bindings e).
Proof.
  induction e as [c|name dd|children IH|children IH|a b IHa IHb|op field IH]
    using expr_children_ind; cbn [ErrorChecker].
  - constructor.
  - constructor.
  - destruct (map_result _ children) as [cs|] eqn:Hcs; [|done]. simpl. intros [= ->].
    apply bindings_Sum, list.Forall_forall. intros c Hc.
    apply (proj1 (list.Forall_forall _ _) IH c Hc).
    apply (proj1 (list.Forall_forall _ _) (map_result_Ok_same _ _ Hcs) c Hc).
  - destruct (map_result _ children) as [cs|] eqn:Hcs; [|done]. simpl. intros [= ->].
    apply bindings_Product, list.Forall_forall. intros c Hc.
    apply (proj1 (list.Forall_forall _ _) IH c Hc).
    apply (proj1 (list.Forall_forall _ _) (map_result_Ok_same _ _ Hcs) c Hc).
  - destruct (ErrorChecker _ _ a) as [a'|] eqn:Ha; [|done]. simpl.
    destruct (ErrorChecker _ _ b) as [b'|] eqn:Hb; [|done]. simpl.
    intros [= -> ->]. simpl. apply Forall_app. auto.
  - destruct (check_axis _ (Some mesh) op) eqn:Hcheck; [|done]. simpl.
    destruct (ErrorChecker _ _ field) as [field'|] eqn:Hf; [|done]. simpl.
    intros [= ->]. simpl. constructor; [|by apply IH].
    intros xyz_axis Hclass. simpl in Hclass. unfold check_axis in Hcheck.
    rewrite Hclass in Hcheck. destruct (mesh_dim mesh <=? xyz_axis)%nat eqn:Hle; [done|].
    by apply Nat.leb_gt.
Qed.

Lemma ErrorChecker_without_mesh e :
  ErrorChecker DiffOperatorBase_xyz_axis None e = Ok e.
Proof.
  induction e as [c|name dd|children IH|children IH|a b IHa IHb|op field IH]
    using expr_children_ind; cbn [ErrorChecker].
  - done.
  - done.
  - rewrite (map_result_all_ok _ id); [simpl; by rewrite map_id|done].
  - rewrite (map_result_all_ok _ id); [simpl; by rewrite map_id|done].
  - by rewrite IHa, IHb.
  - rewrite IH. unfold check_axis. by destruct (DiffOperatorBase_xyz_axis op).
Qed.


End ErrorCheckerFacts.

Section EmptyFluxKillerFacts.
Context (is_boundary : DOFDesc → bool) (is_boundary_tag_empty : domain_tag → bool).

Abbreviation kill := (EmptyFluxKiller is_boundary is_boundary_tag_empty).
Abbreviation to_empty := (interpolates_to_empty_boundary is_boundary is_boundary_tag_empty).

Lemma EmptyFluxKiller_kills e :
  Forall (λ binding, to_empty binding.1 = false) (bindings (kill e)).
Proof.
  induction e as [c|name dd|children IH|children IH|a b IHa IHb|op field IH]
    using expr_children_ind; cbn [EmptyFluxKiller].
  - constructor.
  - constructor.
  - apply bindings_Sum, Forall_map. exact IH.
  - apply bindings_Product, Forall_map. exact IH.
  - simpl. by apply Forall_app.
  - destruct (to_empty op) eqn:Hop; [constructor|]. simpl. by constructor.
Qed.

Lemma EmptyFluxKiller_keeps e :
  Forall (λ binding, to_empty binding.1 = false) (bindings e) → kill e = e.
Proof.
  induction e as [c|name dd|children IH|children IH|a b IHa IHb|op field IH]
    using expr_children_ind; cbn [EmptyFluxKiller]; intros Hnone.
  - done.
  - done.
  - apply bindings_Sum in Hnone. f_equal.
    induction children as [|c cs IHcs]; [done|].
    inversion IH; inversion Hnone; subst. simpl. f_equal; auto.
  - apply bindings_Product in Hnone. f_equal.
    induction children as [|c cs IHcs]; [done|].
    inversion IH; inversion Hnone; subst. simpl. f_equal; auto.
  - simpl in Hnone. apply Forall_app in Hnone as [Ha Hb]. by rewrite (IHa Ha), (IHb Hb).
  - simpl in Hnone. inversion Hnone as [|? ? Hop Hfield]; subst. simpl in Hop.
    by rewrite Hop, (IH Hfield).
Qed.


End EmptyFluxKillerFacts.

Section CollectorFacts.
Context (op_class_test : Operator → bool).

Abbreviation collect := (BoundOperatorCollector op_class_test).


End CollectorFacts.

Section RemoverFacts.
Context (upsampler_quadrature_tag : Operator → option quadrature_tag).
Context (quad_min_degrees : gmap quadrature_tag (option nat)).

Abbreviation remover := (QuadratureUpsamplerRemover upsampler_quadrature_tag quad_min_degrees).
Abbreviation missing := (missing_quadrature_tags upsampler_quadrature_tag quad_min_degrees).
Abbreviation kept := (has_min_degree upsampler_quadrature_tag quad_min_degrees).
Abbreviation removes := (removes_to upsampler_quadrature_tag quad_min_degrees).


Lemma missing_Sum children :
  missing (Sum children) = concat (map missing children).
Proof.
  unfold missing_quadrature_tags. simpl.
  induction children as [|c cs IH]; [done|]. simpl. by rewrite omap_app, IH.
Qed.

Lemma missing_Product children :
  missing (Product children) = concat (map missing children).
Proof. apply missing_Sum. Qed.

Lemma removes_children children :
  Forall (λ c, ∃ r, removes c r) children →
  ∃ rs, (∀ do_warn warnings,
           mapM (remover do_warn) children warnings
           = (Ok rs, if do_warn then warnings ++ concat (map missing children) else warnings))
        ∧ Forall (λ r, Forall kept (bindings r)) rs.
Proof.
  induction 1 as [|c cs [r [Hr Hkept]] _ (rs & Hrs & Hkepts)].
  - exists []. split; [|done]. intros [] warnings; simpl; by rewrite ?app_nil_r.
  - exists (r :: rs). split; [|by constructor].
    intros do_warn warnings. cbn [mapM]. unfold Py.bind at 1. rewrite Hr.
    unfold Py.bind at 1. simpl in Hrs. rewrite Hrs. unfold ret.
    destruct do_warn; [|done]. simpl. by rewrite app_assoc.
Qed.


End RemoverFacts.

Lemma GlobalToReferenceMapper_reference_form_idempotent_witness :
  let e := OperatorBinding (default_operator (StiffnessOperator 0))
             (Sum [Example.u; OperatorBinding (default_operator InverseMassOperator) Example.v]) in
  let G2R := GlobalToReferenceMapper Example.geometry_area Example.geometry_imd 2 2 in
  reference_form (G2R e) ∧ G2R (G2R e) = G2R e.
Proof.
  intros e G2R.
  apply (proj1 (GlobalToReferenceMapper_reference_form_idempotent
                  Example.geometry_area Example.geometry_imd 2 2
                  (λ _ _ _, Forall_nil _) (λ _ _ _ _, Forall_nil _)) e).
Defined.


Lemma InverseMassContractor_cancels_mass_bindings_witness :
  let M := default_operator MassOperator in
  let Minv := default_operator InverseMassOperator in
  InverseMassContractor
    (OperatorBinding Minv (Sum [OperatorBinding M Example.u; OperatorBinding M Example.v]))
  = Ok (Sum [Example.u; Example.v]).
Proof.
  intros M Minv.
  assert (Hmass : Forall (λ p : Operator * expr, class_of p.1 = MassOperator)
                    [(M, Example.u); (M, Example.v)]) by (repeat constructor).
  apply (proj1 (proj2 (InverseMassContractor_cancels_mass_bindings Minv
                         [(M, Example.u); (M, Example.v)] eq_refl Hmass))).
Defined.


Lemma InverseMassContractor_without_inverse_mass_witness :
  let e := Sum [OperatorBinding (default_operator MassOperator) Example.u;
                Quotient Example.v (Constant (Example.q 2))] in
  InverseMassContractor e = Ok e.
Proof.
  intros e. apply (InverseMassContractor_without_inverse_mass e).
  repeat constructor; done.
Defined.



(** ** More on the reference matrices *)

Section MemoRoundTrip.
Context {num_lib : NumericLibrary} {elt_lib : ElementLibrary}.

(** X12. Once one of the reference matrices (derivative, inverse mass,
    mass, transposed stiffness) was returned for some element groups, a
    request for groups with the same discretization keys returns the same
    array object and leaves the array context as it is. *)
Theorem reference_matrices_memoized_by_key
    (grp grp' out_grp in_grp out_grp' in_grp' : ElementGroup)
    (actx actx' : ArrayContext) (r : array_obj) :
  discretization_key grp' = discretization_key grp →
  discretization_key out_grp' = discretization_key out_grp →
  discretization_key in_grp' = discretization_key in_grp →
  (reference_derivative_matrices grp actx = (Ok r, actx') →
     reference_derivative_matrices grp' actx' = (Ok r, actx'))
  ∧ (reference_inverse_mass_matrix grp actx = (Ok r, actx') →
       reference_inverse_mass_matrix grp' actx' = (Ok r, actx'))
  ∧ (reference_mass_matrix out_grp in_grp actx = (Ok r, actx') →
       reference_mass_matrix out_grp' in_grp' actx' = (Ok r, actx'))
  ∧ (reference_stiffness_transpose_matrix out_grp in_grp actx = (Ok r, actx') →
       reference_stiffness_transpose_matrix out_grp' in_grp' actx' = (Ok r, actx')).
Proof.
  intros Hkey Hout Hin. repeat split; intros Hfirst.
  - eapply keyed_memoize_in_again; [exact Hfirst|]. simpl. by rewrite Hkey.
  - eapply keyed_memoize_in_again; [exact Hfirst|]. simpl. by rewrite Hkey.
  - eapply keyed_memoize_in_again; [exact Hfirst|].
    unfold key_of_pair. simpl. by rewrite Hout, Hin.
  - eapply keyed_memoize_in_again; [exact Hfirst|].
    unfold key_of_pair. simpl. by rewrite Hout, Hin.
Qed.

(** X13. When the Vandermonde matrix of the output group cannot be
    inverted, the mass matrix and the transposed stiffness matrix between
    two different groups raise the error of the inversion, and nothing is
    stored on the array context. *)
Theorem reference_matrices_failure_caches_nothing
    (out_grp in_grp : ElementGroup) (actx : ArrayContext) (err : exn) :
  grp_eqb out_grp in_grp = false →
  linalg_inv (vandermonde (basis_functions out_grp) (unit_nodes out_grp)) = Raise err →
  (cache_lookup fn_reference_mass_matrix (key_of_pair (out_grp, in_grp)) actx = None →
     reference_mass_matrix out_grp in_grp actx = (Raise err, actx))
  ∧ (cache_lookup fn_reference_stiffness_transpose_matrix
       (key_of_pair (out_grp, in_grp)) actx = None →
     reference_stiffness_transpose_matrix out_grp in_grp actx = (Raise err, actx)).
Proof.
  intros Hdiff Hsingular. split; intros Hmiss.
  - unfold reference_mass_matrix, keyed_memoize_in. rewrite Hmiss. cbn [fst snd].
    unfold get_ref_mass_mat. rewrite Hdiff. unfold Py.bind, lift. by rewrite Hsingular.
  - unfold reference_stiffness_transpose_matrix, keyed_memoize_in. rewrite Hmiss.
    cbn [fst snd]. unfold get_ref_stiffness_transpose_mat.
    replace (grp_eqb in_grp out_grp) with false.
    2:{ unfold grp_eqb in *. by rewrite Nat.eqb_sym. }
    unfold Py.bind, lift. by rewrite Hsingular.
Qed.

End MemoRoundTrip.

Section Divergence.
Context {num_lib : NumericLibrary} {elt_lib : ElementLibrary}.

Lemma mapM_length {S A B} (f : A → M S B) l s rs s' :
  mapM f l s = (Ok rs, s') → length rs = length l.
Proof.
  revert s rs s'. induction l as [|a l IH]; intros s rs s'.
  - cbn [mapM]. unfold ret. by intros [= <- _].
  - cbn [mapM]. unfold Py.bind at 1. destruct (f a s) as [[b|] s1]; [|done].
    unfold Py.bind at 1. fold (@mapM S A B).
    destruct (mapM f l s1) as [[bs|] s2] eqn:Hrest; [|done].
    intros [= <- _]. simpl. f_equal. by eapply IH.
Qed.

(** X17. [local_div] and [weak_local_div] raise a value error, and leave
    the array context alone, on an object array whose last axis does not
    have the length of the ambient dimension. *)
Theorem divergence_checks_last_axis (dcoll : DiscretizationCollection) (dd : DOFDesc)
    (shape : list nat) (items : list value) (width : nat) (actx : ArrayContext) :
  list.last shape = Some width →
  width ≠ ambient_dim dcoll →
  local_div dcoll (ObjArray shape items) actx
  = (Raise (ValueError "last dimension of *vecs* argument must match ambient dimension"),
     actx)
  ∧ weak_local_div dcoll (args_dd_vec dd (ObjArray shape items)) actx
    = (Raise (ValueError "last dimension of *vecs* argument must match ambient dimension"),
       actx).
Proof.
  intros Hlast Hwidth.
  unfold local_div, weak_local_div, _div_helper. rewrite Hlast.
  by rewrite (proj2 (Nat.eqb_neq width (ambient_dim dcoll)) Hwidth).
Qed.

(** X18. What [local_grad] and [weak_local_grad] return is an object array
    with one component per dimension of the discretization; on a
    discretization whose dimension differs from its ambient dimension, the
    two divergences therefore reject it. *)
Theorem gradient_components_and_divergence (dcoll : DiscretizationCollection)
    (dd : DOFDesc) (vec g : value) (actx actx' : ArrayContext) :
  local_grad dcoll vec actx = (Ok g, actx')
  ∨ weak_local_grad dcoll (args_dd_vec dd vec) actx = (Ok g, actx') →
  (∃ components, g = ObjArray [dim dcoll] components ∧ length components = dim dcoll)
  ∧ (dim dcoll ≠ ambient_dim dcoll →
       local_div dcoll g actx'
       = (Raise (ValueError "last dimension of *vecs* argument must match ambient dimension"),
          actx')
       ∧ weak_local_div dcoll (args_dd_vec dd g) actx'
         = (Raise (ValueError "last dimension of *vecs* argument must match ambient dimension"),
            actx')).
Proof.
  intros Hrun.
  assert (Hg : ∃ components, g = ObjArray [dim dcoll] components
                             ∧ length components = dim dcoll).
  { destruct Hrun as [Hrun|Hrun]; revert Hrun.
    - unfold local_grad. unfold Py.bind at 1.
      destruct (mapM _ (seq 0 (dim dcoll)) actx) as [[components|] s] eqn:Hrun; [|done].
      intros [= <- <-]. apply mapM_length in Hrun. rewrite length_seq in Hrun.
      unfold make_obj_array. rewrite Hrun. by eexists.
    - unfold weak_local_grad. unfold Py.bind at 1.
      destruct (mapM _ (seq 0 (dim dcoll)) actx) as [[components|] s] eqn:Hrun; [|done].
      intros [= <- <-]. apply mapM_length in Hrun. rewrite length_seq in Hrun.
      unfold make_obj_array. rewrite Hrun. by eexists. }
  split; [exact Hg|]. destruct Hg as (components & -> & _).
  intros Hsurface. unfold local_div, weak_local_div, _div_helper. cbn [list.last].
  by rewrite (proj2 (Nat.eqb_neq _ _) Hsurface).
Qed.

End Divergence.

Section FaceMassAccuracy.
Context {elt_lib : ElementLibrary}.

Lemma map_result_first_raises {A B} (f : A → result B) x l e :
  f x = Raise e → map_result f (x :: l) = Raise e.
Proof. intros Hx. simpl. by rewrite Hx. Qed.

Lemma map_result_length {A B} (f : A → result B) l rs :
  map_result f l = Ok rs → length rs = length l.
Proof.
  revert rs. induction l as [|a l IH]; intros rs; simpl.
  - by intros [= <-].
  - destruct (f a) as [b|]; [|done]. simpl.
    destruct (map_result f l) as [bs|] eqn:Hrest; [|done]. simpl.
    intros [= <-]. simpl. f_equal. by apply IH.
Qed.

(** X19. [reference_face_mass_matrix], when nothing is cached for the two
    groups: on a face group with a quadrature grid whose rule is exact to
    less than the order of the group it raises a value error and stores
    nothing; on a face group without a quadrature grid, when the
    quadrature the library supplies is exact to the degree asked for, it
    returns a frozen array with one axis for the volume nodes, one for
    the faces and one for the face nodes. *)
Theorem face_mass_matrix_accuracy_checks (face_grp vol_grp : ElementGroup)
    (dtype_ : dtype) (actx : ArrayContext) :
  cache_lookup fn_reference_mass_matrix (key_of_pair (face_grp, vol_grp)) actx = None →
  nelements face_grp = (mesh_nfaces vol_grp * nelements vol_grp)%nat →
  (is_QuadratureSimplexElementGroup face_grp = true →
   (exact_to (quadrature_rule face_grp) < order face_grp)%nat →
   shape_faces vol_grp ≠ [] →
   ∃ msg, reference_face_mass_matrix face_grp vol_grp dtype_ actx
          = (Raise (ValueError msg), actx))
  ∧ (is_QuadratureSimplexElementGroup face_grp = false →
     (∀ face degree, (degree ≤ exact_to (quadrature_for_space face degree))%nat) →
     ∃ matrix actx',
       reference_face_mass_matrix face_grp vol_grp dtype_ actx
       = (Ok {| obj_id := next_obj_id actx; frozen := true; payload := Array3 matrix |},
          actx')
       ∧ length matrix = nunit_dofs vol_grp
       ∧ Forall (λ per_dof, length per_dof = mesh_nfaces vol_grp
                            ∧ Forall (λ r, length r = nunit_dofs face_grp) per_dof) matrix).
Proof.
  intros Hmiss Hcount. split.
  - intros Hquad Hinexact Hfaces.
    destruct (shape_faces vol_grp) as [|face faces] eqn:Hshape; [done|].
    exists "The face quadrature rule is not exact for the face degree".
    unfold reference_face_mass_matrix, keyed_memoize_in. rewrite Hmiss. cbn [fst snd].
    unfold get_ref_face_mass_mat. rewrite Hcount, Nat.eqb_refl. cbn [negb].
    unfold Py.bind, lift. rewrite Hshape.
    rewrite (map_result_first_raises _ _ _
               (ValueError "The face quadrature rule is not exact for the face degree")).
    + done.
    + unfold face_mass_matrix_for_face. rewrite Hquad.
      by rewrite (proj2 (Nat.ltb_lt _ _) Hinexact).
  - intros Hquad Hexact.
    assert (Hfaces : ∀ faces, ∃ per_face,
              map_result (face_mass_matrix_for_face face_grp vol_grp) faces = Ok per_face).
    { induction faces as [|face faces [per_face IH]]; [by exists []|].
      simpl. unfold face_mass_matrix_for_face at 1. rewrite Hquad. cbn [result_bind].
      assert (Hdeg : (exact_to (quadrature_for_space face
                        (2 * Nat.max (order vol_grp) (order face_grp)))
                      <? order face_grp + order vol_grp)%nat = false).
      { apply Nat.ltb_ge. etransitivity; [|apply Hexact]. lia. }
      rewrite Hdeg. simpl in IH. rewrite IH.
      destruct (is_ElementGroupWithBasis face_grp
                && Nat.eqb (space_dim face_grp) (nunit_dofs face_grp)); by eexists. }
    destruct (Hfaces (shape_faces vol_grp)) as [per_face Hper_face].
    unfold reference_face_mass_matrix, keyed_memoize_in. rewrite Hmiss. cbn [fst snd].
    unfold get_ref_face_mass_mat. rewrite Hcount, Nat.eqb_refl. cbn [negb].
    unfold Py.bind, lift. rewrite Hper_face. unfold from_numpy, freeze, ret.
    cbn [obj_id payload].
    eexists _, _. split; [reflexivity|]. split.
    + apply length_tabulate.
    + unfold tabulate3. apply list.Forall_forall. intros per_dof Hin.
      apply list_elem_of_fmap in Hin as (v & -> & _). split.
      * apply length_tabulate.
      * unfold tabulate2. apply list.Forall_forall. intros r Hr.
        apply list_elem_of_fmap in Hr as (iface & -> & _). apply length_tabulate.
Qed.

End FaceMassAccuracy.

(** ** Mass and inverse mass *)

Section Generic.

Lemma elem_of_zip_same {A} (l : list A) x y : (x, y) ∈ zip l l → x = y ∧ x ∈ l.
Proof.
  induction l as [|a l IH]; simpl; [by intros ?%elem_of_nil|].
  intros [[= -> ->]|Hin]%elem_of_cons.
  - split; [done|]. apply elem_of_cons. by left.
  - destruct (IH Hin) as [-> ?]. split; [done|]. apply elem_of_cons. by right.
Qed.

Lemma mapM_invariant {S A B} (I : S → Prop) (f : A → M S B) (g : A → B) l :
  (∀ a s, a ∈ l → I s → ∃ s', f a s = (Ok (g a), s') ∧ I s') →
  ∀ s, I s → ∃ s', mapM f l s = (Ok (map g l), s') ∧ I s'.
Proof.
  induction l as [|a l IH]; intros Hf s Hs.
  - by exists s.
  - destruct (Hf a s) as (s1 & Hrun & Hs1); [apply elem_of_cons; by left|done|].
    destruct (IH (λ a' s' Hin, Hf a' s' (proj2 (elem_of_cons _ _ _) (or_intror Hin))) s1 Hs1)
      as (s2 & Hrest & Hs2).
    exists s2. split; [|done]. cbn [mapM]. unfold Py.bind at 1. rewrite Hrun.
    unfold Py.bind at 1. fold (@mapM S A B). rewrite Hrest. done.
Qed.

Lemma cache_lookup_store_other_key identifier key key' v actx :
  key ≠ key' →
  cache_lookup identifier key' (cache_store identifier key v actx)
  = cache_lookup identifier key' actx.
Proof.
  intros Hne. unfold cache_lookup, cache_store. simpl.
  rewrite lookup_insert_eq. simpl. rewrite lookup_insert_ne by done.
  by destruct (_pytools_keyed_memoize_in_dict actx !! identifier).
Qed.

End Generic.

Section MassRoundTrip.
Context {num_lib : NumericLibrary} {elt_lib : ElementLibrary}.
Context (G : list ElementGroup).
Hypothesis Hbykey : matrices_by_key G.

Lemma reference_mass_matrix_agrees g actx :
  g ∈ G → cache_agrees G actx →
  ∃ obj actx', reference_mass_matrix g g actx = (Ok obj, actx')
               ∧ payload obj = Array2 (mass_matrix g) ∧ cache_agrees G actx'.
Proof.
  intros Hg Hagrees. unfold reference_mass_matrix, keyed_memoize_in.
  destruct (cache_lookup fn_reference_mass_matrix (key_of_pair (g, g)) actx)
    as [cached|] eqn:Hlook.
  - exists cached, actx. split; [done|]. split; [|done].
    by apply (proj1 (Hagrees g Hg)).
  - cbn [fst snd]. unfold get_ref_mass_mat, grp_eqb. rewrite Nat.eqb_refl.
    unfold Py.bind, from_numpy, freeze, ret. cbn [obj_id payload].
    eexists _, _. split; [reflexivity|]. split; [done|].
    intros h Hh. split; intros obj.
    + destruct (decide (discretization_key g = discretization_key h)) as [Heq|Hne].
      * unfold key_of_pair. cbn [fst snd]. rewrite Heq, cache_lookup_store.
        intros [= <-]. simpl. f_equal. by apply Hbykey.
      * rewrite cache_lookup_store_other_key by (unfold key_of_pair; simpl; congruence).
        apply (proj1 (Hagrees h Hh)).
    + rewrite cache_lookup_store_other_identifier by done.
      apply (proj2 (Hagrees h Hh)).
Qed.

Lemma reference_inverse_mass_matrix_agrees g actx :
  g ∈ G → cache_agrees G actx →
  ∃ obj actx', reference_inverse_mass_matrix g actx = (Ok obj, actx')
               ∧ payload obj = Array2 (reference_inverse_of g) ∧ cache_agrees G actx'.
Proof.
  intros Hg Hagrees. unfold reference_inverse_mass_matrix, keyed_memoize_in.
  destruct (cache_lookup fn_reference_inverse_mass_matrix (OneKey (discretization_key g)) actx)
    as [cached|] eqn:Hlook.
  - exists cached, actx. split; [done|]. split; [|done].
    by apply (proj2 (Hagrees g Hg)).
  - unfold get_ref_inv_mass_mat.
    unfold Py.bind, from_numpy, freeze, ret. cbn [obj_id payload].
    eexists _, _. split; [reflexivity|]. split; [done|].
    intros h Hh. split; intros obj.
    + rewrite cache_lookup_store_other_identifier by done.
      apply (proj1 (Hagrees h Hh)).
    + destruct (decide (discretization_key g = discretization_key h)) as [Heq|Hne].
      * rewrite Heq, cache_lookup_store.
        intros [= <-]. simpl. f_equal. by apply Hbykey.
      * rewrite cache_lookup_store_other_key by congruence.
        apply (proj2 (Hagrees h Hh)).
Qed.


Lemma at2_reciprocal (m : matrix) e j :
  at2 (map (map (λ y : Qc, / y)) m) e j = / at2 m e j.
Proof.
  unfold at2, at1. change (map (map (λ y : Qc, / y)) m) with ((map (λ y : Qc, / y)) <$> m).
  rewrite list_lookup_fmap. destruct (m !! e) as [r|]; simpl; [|done].
  change (map (λ y : Qc, / y) r) with ((λ y : Qc, / y) <$> r).
  rewrite list_lookup_fmap. by destruct (r !! j).
Qed.

Lemma tabulate_at1 (l : vector) n : length l = n → tabulate n (at1 l) = l.
Proof.
  intros <-. apply list_eq. intros i. unfold tabulate, at1.
  rewrite list_lookup_fmap. destruct (decide (i < length l)%nat) as [Hi|Hi].
  - rewrite lookup_seq_lt by done. simpl.
    destruct (lookup_lt_is_Some_2 l i Hi) as [x Hx]. by rewrite Hx.
  - rewrite lookup_seq_ge by lia. by rewrite lookup_ge_None_2 by lia.
Qed.

Lemma round_trip_rows (M Minv jac_g u_g : matrix) g :
  nrows M = nunit_dofs g → nrows Minv = nunit_dofs g →
  (∀ x, length x = nunit_dofs g → matvec Minv (matvec M x) = x) →
  on_affine_group g jac_g u_g →
  einsum_ij_ej_ej__ei Minv (map (map (λ y : Qc, / y)) jac_g)
    (einsum_ij_ej_ej__ei M jac_g u_g)
  = u_g.
Proof.
  intros HM HMinv Hinverse Hshape. unfold einsum_ij_ej_ej__ei.
  apply list_eq. intros e. rewrite !list_lookup_imap.
  destruct (u_g !! e) as [x|] eqn:Hx; [|done]. simpl. f_equal.
  destruct (Hshape e x Hx) as (Hlen & J & HJ & Hjac).
  rewrite length_tabulate, HM, HMinv, Hlen.
  etransitivity; [|apply (Hinverse x Hlen)]. unfold matvec at 1.
  rewrite length_matvec, HM, HMinv. apply tabulate_ext. intros i Hi.
  apply sum_over_ext. intros j Hj.
  rewrite at1_tabulate by done. rewrite at2_reciprocal, Hjac by done.
  rewrite at1_matvec by lia. rewrite Hlen.
  rewrite (sum_over_ext _ _ (λ k, J * (at2 M j k * at1 x k))).
  2:{ intros k Hk. rewrite Hjac by done. ring. }
  rewrite <- sum_over_mul_l. field. done.
Qed.

End MassRoundTrip.

Section MassRoundTripTheorem.
Context {num_lib : NumericLibrary} {elt_lib : ElementLibrary}.
Context (dcoll : DiscretizationCollection).

Let G := groups (discr_from_dd dcoll DD_VOLUME).
Let jac := dof_data (area_element dcoll DD_VOLUME).

Lemma mass_run (u : DOFArray) actx :
  matrices_by_key G → cache_agrees G actx →
  ∃ actx',
    mass dcoll (args_vec (DOF u)) actx
    = (Ok (DOF {| entry_dtype := entry_dtype u;
                  dof_data :=
                    map (λ '(in_grp, out_grp, ae_i, vec_i),
                           einsum_ij_ej_ej__ei (mass_matrix out_grp) ae_i vec_i)
                        (zip4 G G jac (dof_data u)) |}), actx')
    ∧ cache_agrees G actx'.
Proof.
  intros Hbykey Hagrees.
  cbn [mass mass_dd]. unfold _apply_mass_operator.
  unfold Py.bind at 1. cbn [lift array_context].
  edestruct (mapM_invariant (cache_agrees G)
    (λ '(in_grp, out_grp, ae_i, vec_i),
       let* mass_mat := reference_mass_matrix out_grp in_grp in
       let* mass_mat := lift (as_matrix (payload mass_mat)) in
       ret (einsum_ij_ej_ej__ei mass_mat ae_i vec_i))
    (λ '(in_grp, out_grp, ae_i, vec_i),
       einsum_ij_ej_ej__ei (mass_matrix out_grp) ae_i vec_i)
    (zip4 G G jac (dof_data u))) as (actx' & Hrun & Hagrees'); [|exact Hagrees|].
  - intros [[[in_grp out_grp] ae_i] vec_i] s Hin Hs.
    apply elem_of_zip_l, elem_of_zip_l, elem_of_zip_same in Hin as [-> Hg].
    destruct (reference_mass_matrix_agrees G Hbykey out_grp s Hg Hs)
      as (obj & s' & Hmat & Hpayload & Hs').
    exists s'. split; [|done]. unfold Py.bind. rewrite Hmat. unfold lift.
    by rewrite Hpayload.
  - exists actx'. split; [|done]. unfold Py.bind at 1. subst G jac.
    unfold DD_VOLUME in *. rewrite Hrun. done.
Qed.


Lemma inverse_mass_run (w : DOFArray) actx :
  matrices_by_key G → cache_agrees G actx → forallb is_affine G = true →
  ∃ actx',
    inverse_mass dcoll (DOF w) actx
    = (Ok (DOF {| entry_dtype := entry_dtype w;
                  dof_data :=
                    map (λ '(grp, iae_i, vec_i),
                           einsum_ij_ej_ej__ei (reference_inverse_of grp) iae_i vec_i)
                        (zip3 G (map (map (map (λ y : Qc, / y))) jac) (dof_data w)) |}),
       actx')
    ∧ cache_agrees G actx'.
Proof.
  intros Hbykey Hagrees Haffine.
  cbn [inverse_mass]. unfold _apply_inverse_mass_operator.
  rewrite bool_decide_eq_true_2 by done. cbn [negb].
  fold G. rewrite Haffine. cbn [negb].
  unfold Py.bind at 1. cbn [lift array_context].
  edestruct (mapM_invariant (cache_agrees G)
    (λ '(grp, iae_i, vec_i),
       let* mass_inv_mat := reference_inverse_mass_matrix grp in
       let* Minv := lift (as_matrix (payload mass_inv_mat)) in
       ret (einsum_ij_ej_ej__ei Minv iae_i vec_i))
    (λ '(grp, iae_i, vec_i),
       einsum_ij_ej_ej__ei (reference_inverse_of grp) iae_i vec_i)
    (zip3 G (map (map (map (λ y : Qc, / y))) jac) (dof_data w)))
    as (actx' & Hrun & Hagrees'); [|exact Hagrees|].
  - intros [[grp iae_i] vec_i] s Hin Hs.
    apply elem_of_zip_l, elem_of_zip_l in Hin.
    destruct (reference_inverse_mass_matrix_agrees G Hbykey grp s Hin Hs)
      as (obj & s' & Hmat & Hpayload & Hs').
    exists s'. split; [|done]. unfold Py.bind. rewrite Hmat. unfold lift.
    by rewrite Hpayload.
  - exists actx'. split; [|done]. unfold Py.bind at 1. subst G jac.
    unfold DD_VOLUME, dof_reciprocal in *. cbn [dof_data]. rewrite Hrun. done.
Qed.

Lemma round_trip_groups (groups_ : list ElementGroup) (jacs us : list matrix) :
  (∀ g, g ∈ groups_ →
     nrows (mass_matrix g) = nunit_dofs g
     ∧ nrows (reference_inverse_of g) = nunit_dofs g
     ∧ ∀ x, length x = nunit_dofs g →
         matvec (reference_inverse_of g) (matvec (mass_matrix g) x) = x) →
  Forall3 on_affine_group groups_ jacs us →
  map (λ '(grp, iae_i, vec_i),
         einsum_ij_ej_ej__ei (reference_inverse_of grp) iae_i vec_i)
      (zip3 groups_ (map (map (map (λ y : Qc, / y))) jacs)
         (map (λ '(in_grp, out_grp, ae_i, vec_i),
                 einsum_ij_ej_ej__ei (mass_matrix out_grp) ae_i vec_i)
              (zip4 groups_ groups_ jacs us)))
  = us.
Proof.
  intros Hmatrices Hshape. induction Hshape as [|g jac_g u_g gs jacs us Hg _ IH]; [done|].
  unfold zip3, zip4 in *. cbn [zip zip_with map]. f_equal.
  - destruct (Hmatrices g) as (HM & HMinv & Hinverse); [apply elem_of_cons; by left|].
    by apply (round_trip_rows _ _ _ _ g).
  - apply IH. intros h Hh. apply Hmatrices, elem_of_cons. by right.
Qed.

Lemma inverse_mass_wadg_run (w : DOFArray) actx :
  matrices_by_key G → cache_agrees G actx → forallb is_affine G = false →
  ∃ actx',
    inverse_mass dcoll (DOF w) actx
    = (Ok (DOF {| entry_dtype := entry_dtype w;
                  dof_data :=
                    map (λ '(grp, jac_inv, x),
                           einsum_ik_km_em_mj_ej__ei (reference_inverse_of grp)
                             (mass_matrix grp) jac_inv (reference_inverse_of grp) x)
                        (zip3 G (map (map (map (λ y : Qc, / y))) jac) (dof_data w)) |}),
       actx')
    ∧ cache_agrees G actx'.
Proof.
  intros Hbykey Hagrees Haffine.
  cbn [inverse_mass]. unfold _apply_inverse_mass_operator.
  rewrite bool_decide_eq_true_2 by done. cbn [negb].
  fold G. rewrite Haffine. cbn [negb].
  unfold Py.bind at 1. cbn [lift array_context].
  edestruct (mapM_invariant (cache_agrees G)
    (λ '(grp, jac_inv, x),
       let* ref_mass := reference_mass_matrix grp grp in
       let* ref_mass_inv := reference_inverse_mass_matrix grp in
       let* Minv := lift (as_matrix (payload ref_mass_inv)) in
       let* Mref := lift (as_matrix (payload ref_mass)) in
       ret (einsum_ik_km_em_mj_ej__ei Minv Mref jac_inv Minv x))
    (λ '(grp, jac_inv, x),
       einsum_ik_km_em_mj_ej__ei (reference_inverse_of grp)
         (mass_matrix grp) jac_inv (reference_inverse_of grp) x)
    (zip3 G (map (map (map (λ y : Qc, / y))) jac) (dof_data w)))
    as (actx' & Hrun & Hagrees'); [|exact Hagrees|].
  - intros [[grp jac_inv] x] s Hin Hs.
    apply elem_of_zip_l, elem_of_zip_l in Hin.
    destruct (reference_mass_matrix_agrees G Hbykey grp s Hin Hs)
      as (obj & s1 & Hmat & Hpayload & Hs1).
    destruct (reference_inverse_mass_matrix_agrees G Hbykey grp s1 Hin Hs1)
      as (obj' & s2 & Hmat' & Hpayload' & Hs2).
    exists s2. split; [|done]. unfold Py.bind. rewrite Hmat, Hmat'. unfold lift.
    by rewrite Hpayload, Hpayload'.
  - exists actx'. split; [|done]. unfold Py.bind at 1. subst G jac.
    unfold DD_VOLUME, dof_reciprocal in *. cbn [dof_data]. rewrite Hrun. done.
Qed.

Lemma scaled_rows (A jac_g : matrix) (x : vector) (e n : nat) (J : Qc) :
  nrows A = n → length x = n →
  (∀ j, (j < n)%nat → at2 jac_g e j = J) →
  matvec A (hadamard (row jac_g e) x) = tabulate n (λ i, J * at1 (matvec A x) i)
  ∧ hadamard (row jac_g e) x = tabulate n (λ j, J * at1 x j).
Proof.
  intros HA Hx HJ. split.
  - unfold matvec at 1. rewrite length_hadamard, HA, Hx. apply tabulate_ext. intros i Hi.
    rewrite at1_matvec by lia. rewrite Hx, sum_over_mul_l. apply sum_over_ext. intros j Hj.
    rewrite at1_hadamard by lia. change (at1 (row jac_g e) j) with (at2 jac_g e j).
    rewrite HJ by done. ring.
  - unfold hadamard. rewrite Hx. apply tabulate_ext. intros j Hj.
    change (at1 (row jac_g e) j) with (at2 jac_g e j). by rewrite HJ.
Qed.

Lemma on_affine_group_reciprocal g (jac_g u_g : matrix) :
  on_affine_group g jac_g u_g →
  on_affine_group g (map (map (λ y : Qc, / y)) jac_g) u_g.
Proof.
  intros Hshape e x Hx. destruct (Hshape e x Hx) as (Hlen & J & HJ & Hjac).
  split; [done|]. exists (/ J). split.
  - intros Hzero. pose proof (Qcmult_inv_r J HJ) as Hone.
    rewrite Hzero, Qcmult_0_r in Hone. discriminate Hone.
  - intros j Hj. by rewrite at2_reciprocal, Hjac.
Qed.

Lemma wadg_rows_constant_jacobian (M Minv jac_g u_g : matrix) g :
  nrows M = nunit_dofs g → nrows Minv = nunit_dofs g →
  (∀ x, length x = nunit_dofs g → matvec Minv (matvec M x) = x) →
  on_affine_group g jac_g u_g →
  einsum_ik_km_em_mj_ej__ei Minv M jac_g Minv u_g = einsum_ij_ej_ej__ei Minv jac_g u_g.
Proof.
  intros HM HMinv Hinverse Hshape.
  rewrite einsum_wadg_rows, einsum_affine_rows.
  unfold op_spec.apply_inverse_mass_wadg, op_spec.apply_inverse_mass_affine.
  apply list_eq. intros e. rewrite !list_lookup_imap.
  destruct (u_g !! e) as [x|] eqn:Hx; [|done]. simpl. f_equal.
  destruct (Hshape e x Hx) as (Hlen & J & HJ & Hjac).
  set (n := nunit_dofs g) in *.
  destruct (scaled_rows Minv jac_g x e n J HMinv Hlen Hjac) as [Haffine _].
  destruct (scaled_rows M jac_g (matvec Minv x) e n J HM
              ltac:(by rewrite length_matvec) Hjac) as [Hinner _].
  rewrite Haffine, Hinner.
  unfold matvec at 1. rewrite length_tabulate, HMinv. apply tabulate_ext. intros i Hi.
  rewrite (sum_over_ext _ _ (λ j, J * (at2 Minv i j * at1 (matvec M (matvec Minv x)) j))).
  2:{ intros j Hj. rewrite at1_tabulate by done. ring. }
  rewrite <- sum_over_mul_l. f_equal.
  transitivity (at1 (matvec Minv (matvec M (matvec Minv x))) i).
  - rewrite at1_matvec by lia. by rewrite length_matvec, HM.
  - rewrite Hinverse; [done|]. by rewrite length_matvec.
Qed.



End MassRoundTripTheorem.

Section Linearity.
Context {num_lib : NumericLibrary} {elt_lib : ElementLibrary}.

Lemma sum_over_add n f g :
  sum_over n (λ i, f i + g i) = sum_over n f + sum_over n g.
Proof. induction n as [|n IH]; simpl; [ring|]. rewrite IH. ring. Qed.

Lemma at1_zip_with_add (x y : vector) j :
  length x = length y → at1 (zip_with Qcplus x y) j = at1 x j + at1 y j.
Proof.
  intros Hlen. unfold at1. rewrite lookup_zip_with.
  destruct (x !! j) as [a|] eqn:Hx; simpl.
  - destruct (lookup_lt_is_Some_2 y j) as [b Hb].
    { rewrite <- Hlen. by eapply lookup_lt_Some. }
    by rewrite Hb.
  - rewrite lookup_ge_None_2; [simpl; ring|].
    rewrite <- Hlen. by apply lookup_ge_None_1.
Qed.

Lemma zip_with_add_tabulate n (f g : nat → Qc) :
  zip_with Qcplus (tabulate n f) (tabulate n g) = tabulate n (λ i, f i + g i).
Proof.
  unfold tabulate. induction (seq 0 n) as [|i l IH]; [done|].
  rewrite !fmap_cons. cbn [zip_with]. by rewrite IH.
Qed.

Lemma einsum_ij_ej_ej__ei_add (A a u v : matrix) :
  Forall2 (λ x y : vector, length x = length y) u v →
  einsum_ij_ej_ej__ei A a (zip_with (zip_with Qcplus) u v)
  = zip_with (zip_with Qcplus) (einsum_ij_ej_ej__ei A a u) (einsum_ij_ej_ej__ei A a v).
Proof.
  intros Hshape. unfold einsum_ij_ej_ej__ei.
  apply list_eq. intros e. rewrite list_lookup_imap, !lookup_zip_with, !list_lookup_imap.
  destruct (u !! e) as [x|] eqn:Hx; simpl; [|done].
  destruct (Forall2_lookup_l _ _ _ _ _ Hshape Hx) as (y & Hy & Hlen).
  rewrite Hy. simpl. f_equal. rewrite zip_with_add_tabulate.
  apply tabulate_ext. intros i Hi.
  rewrite length_zip_with, <- Hlen, Nat.min_id, <- sum_over_add.
  apply sum_over_ext. intros j Hj. rewrite at1_zip_with_add by done. ring.
Qed.

Lemma mapM_cons {S A B} (f : A → M S B) x l s :
  mapM f (x :: l) s
  = match f x s with
    | (Ok y, s1) =>
        match mapM f l s1 with
        | (Ok ys, s2) => (Ok (y :: ys), s2)
        | (Raise e, s2) => (Raise e, s2)
        end
    | (Raise e, s1) => (Raise e, s1)
    end.
Proof.
  cbn [mapM]. unfold Py.bind at 1. destruct (f x s) as [[y|e] s1]; [|done].
  unfold Py.bind at 1. fold (@mapM S A B). by destruct (mapM f l s1) as [[ys|e] s2].
Qed.


Lemma mass_step_run in_grp out_grp ae_i vec_i s :
  mass_step (in_grp, out_grp, ae_i, vec_i) s
  = match reference_mass_matrix out_grp in_grp s with
    | (Ok obj, s1) =>
        match as_matrix (payload obj) with
        | Ok mass_mat => (Ok (einsum_ij_ej_ej__ei mass_mat ae_i vec_i), s1)
        | Raise e => (Raise e, s1)
        end
    | (Raise e, s1) => (Raise e, s1)
    end.
Proof.
  unfold mass_step, Py.bind, lift, ret.
  destruct (reference_mass_matrix out_grp in_grp s) as [[obj|e] s1]; [|done].
  by destruct (as_matrix (payload obj)).
Qed.

Lemma mapM_mass_linear (triples : list (ElementGroup * ElementGroup * matrix)) :
  ∀ (us vs : list matrix) s ru rv su sv,
    Forall2 (Forall2 (λ x y : vector, length x = length y)) us vs →
    mapM mass_step (zip triples us) s = (Ok ru, su) →
    mapM mass_step (zip triples vs) s = (Ok rv, sv) →
    mapM mass_step (zip triples (zip_with (zip_with (zip_with Qcplus)) us vs)) s
    = (Ok (zip_with (zip_with (zip_with Qcplus)) ru rv), su).
Proof.
  induction triples as [|[[in_grp out_grp] ae_i] triples IH];
    intros us vs s ru rv su sv Hshape.
  - simpl. by intros [= <- <-] [= <- <-].
  - destruct Hshape as [|u v us vs Huv Hshape].
    { simpl. by intros [= <- <-] [= <- <-]. }
    cbn [zip zip_with]. rewrite !mapM_cons, !mass_step_run.
    destruct (reference_mass_matrix out_grp in_grp s) as [[obj|err] s1]; [|done].
    destruct (as_matrix (payload obj)) as [mass_mat|err]; [|done].
    destruct (mapM mass_step (zip triples us) s1) as [[ru'|] su'] eqn:Hu; [|done].
    destruct (mapM mass_step (zip triples vs) s1) as [[rv'|] sv'] eqn:Hv; [|done].
    intros [= <- <-] [= <- <-].
    rewrite (IH us vs s1 ru' rv' su' sv' Hshape Hu Hv).
    cbn [zip_with]. by rewrite einsum_ij_ej_ej__ei_add.
Qed.

Lemma mass_on_field (dcoll : DiscretizationCollection) dd (u : DOFArray) actx :
  mass dcoll (args_dd_vec dd (DOF u)) actx
  = match mapM mass_step
            (zip4 (groups (discr_from_dd dcoll dd)) (groups (discr_from_dd dcoll DD_VOLUME))
                  (dof_data (area_element dcoll dd)) (dof_data u)) actx with
    | (Ok data, s) => (Ok (DOF {| entry_dtype := entry_dtype u; dof_data := data |}), s)
    | (Raise e, s) => (Raise e, s)
    end.
Proof.
  cbn [mass mass_dd]. unfold _apply_mass_operator.
  unfold Py.bind at 1. cbn [lift array_context]. unfold Py.bind at 1.
  change (λ '(in_grp, out_grp, ae_i, vec_i),
            let* mass_mat := reference_mass_matrix out_grp in_grp in
            let* mass_mat0 := lift (as_matrix (payload mass_mat)) in
            ret (einsum_ij_ej_ej__ei mass_mat0 ae_i vec_i)) with mass_step.
  by destruct (mapM mass_step _ actx) as [[data|e] s].
Qed.


End Linearity.

(** ** The messages of an exchange *)

Section ExchangePattern.
Context (dcoll : DiscretizationCollection) (d : DOFArray) (tag : option Z).

Lemma init_run r comm :
  _RankBoundaryCommunication__init__ dcoll r (DOF d) tag comm
  = (Ok (communication dcoll d tag (length (posted comm)) 0 r),
     {| posted := posted comm ++ [Isend (dof_flatten (local_trace dcoll d r)) r
                                    (exchange_tag tag);
                                  Irecv r (exchange_tag tag)];
        incoming := incoming comm |}).
Proof.
  unfold _RankBoundaryCommunication__init__, Py.bind, lift, post, ret, communication,
    exchange_tag, local_trace.
  simpl. rewrite length_app. simpl. rewrite <- app_assoc. simpl.
  repeat f_equal; lia.
Qed.

Lemma init_all ranks comm :
  mapM (λ r, _RankBoundaryCommunication__init__ dcoll r (DOF d) tag) ranks comm
  = (Ok (imap (communication dcoll d tag (length (posted comm))) ranks),
     {| posted := posted comm
                  ++ concat (map (λ r, [Isend (dof_flatten (local_trace dcoll d r)) r
                                          (exchange_tag tag);
                                        Irecv r (exchange_tag tag)]) ranks);
        incoming := incoming comm |}).
Proof.
  revert comm. induction ranks as [|r ranks IH]; intros comm.
  - simpl. rewrite app_nil_r. by destruct comm.
  - cbn [mapM]. unfold Py.bind at 1. rewrite init_run.
    unfold Py.bind at 1. fold (@mapM Communicator nat _RankBoundaryCommunication).
    rewrite IH. cbn [posted incoming ret]. rewrite length_app. cbn [length map concat].
    rewrite <- app_assoc. cbn [imap]. unfold ret. do 3 f_equal.
    apply imap_ext. intros i r' _. unfold communication. simpl. f_equal; lia.
Qed.

Lemma finish_run first_request i r comm :
  finish dcoll (communication dcoll d tag first_request i r) comm
  = (Ok (exchanged_pair dcoll d tag (incoming comm) r),
     {| posted := posted comm ++ [Wait (first_request + 2 * i + 1);
                                  Wait (first_request + 2 * i)];
        incoming := incoming comm |}).
Proof.
  unfold finish, Py.bind, wait, receive_buffer, ret, communication, exchanged_pair.
  simpl. by rewrite <- app_assoc.
Qed.

Lemma finish_all first_request k ranks comm :
  mapM (finish dcoll)
    (imap (λ i, communication dcoll d tag first_request (k + i)) ranks) comm
  = (Ok (map (exchanged_pair dcoll d tag (incoming comm)) ranks),
     {| posted := posted comm
                  ++ concat (imap (λ i (_ : nat), [Wait (first_request + 2 * (k + i) + 1);
                                                   Wait (first_request + 2 * (k + i))])
                               ranks);
        incoming := incoming comm |}).
Proof.
  revert k comm. induction ranks as [|r ranks IH]; intros k comm.
  - simpl. rewrite app_nil_r. by destruct comm.
  - cbn [imap mapM]. unfold Py.bind at 1. rewrite finish_run.
    unfold Py.bind at 1. fold (@mapM Communicator _RankBoundaryCommunication TracePair).
    rewrite (imap_ext _ (λ i, communication dcoll d tag first_request (S k + i)) ranks).
    2:{ intros i r' _. simpl. f_equal. lia. }
    rewrite IH. cbn [posted incoming map concat]. unfold ret.
    rewrite <- app_assoc. do 3 f_equal.
    f_equal. f_equal. apply imap_ext. intros i r' _. cbn.
    replace (k + S i)%nat with (S (k + i)) by lia. done.
Qed.

(** X20. On a field, [cross_rank_trace_pairs] first posts, rank by rank in
    the order of [connected_ranks], a send of the flattened local trace and
    a receive, both with the tag [base_tag + tag] (or [base_tag] without a
    tag); only then it waits, rank by rank, for the receive and then for
    the send. It returns one trace pair per rank, in the same order. *)
Theorem cross_rank_trace_pairs_posts_then_waits (comm : Communicator) :
  let ranks := connected_ranks dcoll in
  let first_request := length (posted comm) in
  cross_rank_trace_pairs dcoll (DOF d) tag comm
  = (Ok (map (exchanged_pair dcoll d tag (incoming comm)) ranks),
     {| posted :=
          posted comm
          ++ concat (map (λ r, [Isend (dof_flatten (local_trace dcoll d r)) r
                                  (exchange_tag tag);
                                Irecv r (exchange_tag tag)]) ranks)
          ++ concat (imap (λ i (_ : nat), [Wait (first_request + 2 * i + 1);
                                           Wait (first_request + 2 * i)]) ranks);
        incoming := incoming comm |}).
Proof.
  intros ranks first_request. cbn [cross_rank_trace_pairs].
  unfold _cross_rank_trace_pairs_scalar_field, Py.bind. rewrite init_all.
  pose proof (finish_all first_request 0 ranks) as Hfinish. simpl in Hfinish.
  rewrite (imap_ext _ (communication dcoll d tag first_request) ranks) in Hfinish by done.
  rewrite Hfinish. cbn [posted incoming]. by rewrite <- app_assoc.
Qed.

End ExchangePattern.

Section NumbersAreNotExchanged.

Lemma lookup_record_entry ivec x rs D r i :
  record_entry ivec x rs D !! (r, i)
  = if decide (i = ivec ∧ r ∈ rs) then Some (local_pair x r) else D !! (r, i).
Proof.
  unfold record_entry. revert D. induction rs as [|r0 rs IH]; intros D; simpl.
  - case_decide as H; [|done]. destruct H as [_ H]. by apply elem_of_nil in H.
  - rewrite IH. destruct (decide (i = ivec ∧ r ∈ rs)) as [[-> Hin]|Hout].
    + rewrite decide_True; [done|]. split; [done|]. apply elem_of_cons. by right.
    + destruct (decide ((r0, ivec) = (r, i))) as [[= -> ->]|Hne].
      * rewrite lookup_insert_eq. rewrite decide_True; [done|].
        split; [done|]. apply elem_of_cons. by left.
      * rewrite lookup_insert_ne by done. case_decide as H; [|done].
        destruct H as [-> [->|Hin]%elem_of_cons]; [done|]. by destruct Hout.
Qed.

Lemma lookup_record_entries_before ivec items rs D r i :
  (i < ivec)%nat → record_entries ivec items rs D !! (r, i) = D !! (r, i).
Proof.
  revert ivec D. induction items as [|x items IH]; intros ivec D Hi; [done|].
  simpl. rewrite IH by lia. rewrite lookup_record_entry.
  rewrite decide_False; [done|]. intros [-> _]. lia.
Qed.

Lemma lookup_record_entries ivec items rs D r i x :
  r ∈ rs → items !! i = Some x →
  record_entries ivec items rs D !! (r, ivec + i)%nat = Some (local_pair x r).
Proof.
  revert ivec D i. induction items as [|y items IH]; intros ivec D i Hr; [done|].
  destruct i as [|i]; simpl.
  - intros [= ->]. rewrite Nat.add_0_r, lookup_record_entries_before by lia.
    rewrite lookup_record_entry. by rewrite decide_True.
  - intros Hx. replace (ivec + S i)%nat with (S ivec + i)%nat by lia. by apply IH.
Qed.

Context (dcoll : DiscretizationCollection).

Lemma record_pairs_run (ivec : nat) (x : value) (rs : list nat) (D : gmap (nat * nat) TracePair)
    (comm : Communicator) :
  for_each
    (λ (result : gmap (nat * nat) TracePair) rank_tpair,
       match domain_tag_of (tp_dd rank_tpair) with
       | DTAG_BOUNDARY (BTAG_PARTITION part_nr) =>
           ret (<[(part_nr, ivec) := rank_tpair]> result)
       | _ => raise AssertionError
       end)
    (map (local_pair x) rs) D comm
  = (Ok (record_entry ivec x rs D), comm).
Proof.
  revert D. induction rs as [|r rs IH]; intros D; [done|].
  cbn [map for_each]. unfold Py.bind at 1. cbn. apply IH.
Qed.

Lemma map_result_seq {A} (f : nat → result A) (items : list A) k :
  (∀ i x, items !! i = Some x → f (k + i)%nat = Ok x) →
  map_result f (seq k (length items)) = Ok items.
Proof.
  revert k. induction items as [|x items IH]; intros k Hf; [done|].
  cbn [length seq map_result]. rewrite <- (Nat.add_0_r k) at 1.
  rewrite (Hf 0%nat x eq_refl). cbn [result_bind].
  change (result_bind (map_result f (seq (S k) (length items)))
            (λ ys, Ok (x :: ys)) = Ok (x :: items)).
  rewrite IH; [done|]. intros i y Hy.
  replace (S k + i)%nat with (k + S i)%nat by lia. by apply Hf.
Qed.

(** X21. On a number, and on an object array of numbers,
    [cross_rank_trace_pairs] exchanges nothing: the communicator is left as
    it is, and for every connected rank the trace pair has the input on
    both sides. *)
Theorem cross_rank_trace_pairs_of_numbers (oshape : list nat) (items : list value)
    (x : Qc) (tag : option Z) (comm : Communicator) :
  Forall is_number items →
  cross_rank_trace_pairs dcoll (Num x) tag comm
  = (Ok (map (local_pair (Num x)) (connected_ranks dcoll)), comm)
  ∧ cross_rank_trace_pairs dcoll (ObjArray oshape items) tag comm
    = (Ok (map (local_pair (ObjArray oshape items)) (connected_ranks dcoll)), comm).
Proof.
  intros Hnumbers. split; [done|].
  cbn [cross_rank_trace_pairs]. unfold flatten, enumerate.
  set (ranks := connected_ranks dcoll).
  assert (Hloop : ∀ k D,
    for_each
      (λ (result : gmap (nat * nat) TracePair) '(ivec, component),
         let* rank_tpairs := _cross_rank_trace_pairs_scalar_field dcoll component None in
         for_each
           (λ (result : gmap (nat * nat) TracePair) rank_tpair,
              match domain_tag_of (tp_dd rank_tpair) with
              | DTAG_BOUNDARY (BTAG_PARTITION part_nr) =>
                  ret (<[(part_nr, ivec) := rank_tpair]> result)
              | _ => raise AssertionError
              end)
           rank_tpairs result)
      (zip (seq k (length items)) items) D comm
    = (Ok (record_entries k items ranks D), comm)).
  { induction Hnumbers as [|v items [y ->] _ IH]; intros k D; [done|].
    cbn [length seq zip zip_with for_each]. unfold Py.bind at 1.
    unfold Py.bind at 1. cbn [_cross_rank_trace_pairs_scalar_field ret].
    fold ranks. pose proof (record_pairs_run k (Num y) ranks D comm) as Hrecord.
    unfold local_pair, partition_dd in Hrecord.
    rewrite Hrecord. apply IH. }
  unfold Py.bind. rewrite Hloop. unfold lift. f_equal.
  apply map_result_all_ok, list.Forall_forall. intros r Hr.
  rewrite (map_result_seq _ items 0).
  2:{ intros i v Hv. unfold dict_getitem.
      by rewrite (lookup_record_entries 0 items ranks ∅ r i v Hr Hv). }
  cbn [result_bind]. rewrite (map_result_seq _ items 0).
  2:{ intros i v Hv. unfold dict_getitem.
      by rewrite (lookup_record_entries 0 items ranks ∅ r i v Hr Hv). }
  done.
Qed.

End NumbersAreNotExchanged.

(** ** The trace pair of the interior faces *)

Section InteriorTracePair.



Lemma mapM_lift {A B} (f : A → result B) l :
  mapM (S:=unit) (λ a, lift (f a)) l tt = (map_result f l, tt).
Proof.
  induction l as [|a l IH]; [done|]. rewrite mapM_cons. unfold lift at 1.
  cbn [map_result]. destruct (f a) as [b|e]; [|done]. rewrite IH. cbn [result_bind].
  change (match map_result f l with Ok ys => (Ok (b :: ys), ()) | Raise e => (Raise e, ()) end
          = (result_bind (map_result f l) (λ ys, Ok (b :: ys)), ())).
  by destruct (map_result f l).
Qed.

Context (dcoll : DiscretizationCollection).
Context (opposite_face_connection : value → result value).

Lemma map_result_lookup {A B} (f : A → result B) l rs :
  map_result f l = Ok rs →
  length rs = length l
  ∧ ∀ k a, l !! k = Some a → ∃ b, rs !! k = Some b ∧ f a = Ok b.
Proof.
  revert rs. induction l as [|a l IH]; intros rs; simpl.
  - intros [= <-]. split; [done|]. by intros k a ?.
  - destruct (f a) as [b|] eqn:Ha; [|done]. simpl.
    destruct (map_result f l) as [bs|] eqn:Hl; [|done]. simpl.
    intros [= <-]. destruct (IH bs eq_refl) as [Hlen Hlook]. split; [simpl; by rewrite Hlen|].
    intros [|k] a'; simpl; [|by apply Hlook]. intros [= <-]. by exists b.
Qed.

Lemma interior_trace_pair_array shape items :
  interior_trace_pair dcoll opposite_face_connection (ObjArray shape items)
  = (let? es := map_result (get_opposite_face opposite_face_connection)
                  (map (project_dofdesc dcoll DD_VOLUME DD_INTERIOR_FACES) items) in
     Ok {| tp_dd := DD_INTERIOR_FACES;
           interior := ObjArray shape
                         (map (project_dofdesc dcoll DD_VOLUME DD_INTERIOR_FACES) items);
           exterior := ObjArray shape es |}).
Proof.
  unfold interior_trace_pair. simpl.
  unfold vectorize_items, Py.bind. rewrite mapM_lift.
  by destruct (map_result _ _).
Qed.

(** X22. [interior_trace_pair] returns a number on both sides of the pair
    of a number; on an object array, both sides of the pair it returns are
    object arrays of the shape of the input, with the numbers of the input
    in their places; and it returns whenever the connection to the
    opposite face does. *)
Theorem interior_trace_pair_keeps_numbers_and_shape :
  (∀ x, interior_trace_pair dcoll opposite_face_connection (Num x)
        = Ok {| tp_dd := DD_INTERIOR_FACES; interior := Num x; exterior := Num x |})
  ∧ (∀ shape items tp,
       interior_trace_pair dcoll opposite_face_connection (ObjArray shape items) = Ok tp →
       ∃ ints exts,
         interior tp = ObjArray shape ints ∧ exterior tp = ObjArray shape exts
         ∧ length ints = length items ∧ length exts = length items
         ∧ ∀ k x, items !! k = Some (Num x) →
             ints !! k = Some (Num x) ∧ exts !! k = Some (Num x))
  ∧ ((∀ el, ∃ r, opposite_face_connection el = Ok r) →
     ∀ vec, ∃ tp, interior_trace_pair dcoll opposite_face_connection vec = Ok tp).
Proof.
  split; [done|]. split.
  - intros shape items tp. rewrite interior_trace_pair_array.
    destruct (map_result _ _) as [es|] eqn:Hes; [|done]. simpl. intros [= <-].
    destruct (map_result_lookup _ _ _ Hes) as [Hlen Hlook].
    eexists _, es. split; [done|]. split; [done|].
    rewrite length_map in Hlen. rewrite length_map. split; [done|]. split; [done|].
    intros k x Hk.
    assert (Hint : map (project_dofdesc dcoll DD_VOLUME DD_INTERIOR_FACES) items !! k
                   = Some (Num x)).
    { change (map ?f items) with (f <$> items). by rewrite list_lookup_fmap, Hk. }
    split; [done|]. destruct (Hlook k (Num x) Hint) as (b & Hb & Hopp).
    simpl in Hopp. by injection Hopp as <-.
  - intros Hconnection vec.
    assert (Hface : ∀ el, ∃ r, get_opposite_face opposite_face_connection el = Ok r).
    { intros [y|d|sh its]; [by eexists|apply Hconnection..]. }
    destruct vec as [y|d|shape items].
    + by eexists.
    + unfold interior_trace_pair. simpl.
      match goal with
      | |- context [opposite_face_connection ?el] =>
          destruct (Hconnection el) as [r ->]
      end.
      by eexists.
    + rewrite interior_trace_pair_array.
      assert (Hall : ∀ l, ∃ rs, map_result (get_opposite_face opposite_face_connection) l
                               = Ok rs).
      { induction l as [|a l [rs IH]]; [by exists []|].
        destruct (Hface a) as [r Hr]. exists (r :: rs). simpl. rewrite Hr. simpl.
        simpl in IH. by rewrite IH. }
      destruct (Hall (map (project_dofdesc dcoll DD_VOLUME DD_INTERIOR_FACES) items))
        as [rs ->].
      by eexists.
Qed.

End InteriorTracePair.

Lemma reference_matrices_memoized_by_key_witness :
  let first := reference_mass_matrix (num_lib:=Example.numeric) (elt_lib:=Example.element)
                 Example.out_group Example.in_group Example.empty_actx in
  let r := {| obj_id := 0; frozen := true;
              payload := Array2 [[Example.q 0; Example.q (-5)];
                                 [Example.q 3; Example.q 10]] |} in
  fst first = Ok r
  ∧ reference_mass_matrix (num_lib:=Example.numeric) (elt_lib:=Example.element)
      Example.out_group Example.in_group (snd first) = (Ok r, snd first).
Proof.
  intros first r.
  assert (Hfirst : fst first = Ok r) by compare_computed.
  split; [exact Hfirst|].
  apply (proj1 (proj2 (proj2
           (reference_matrices_memoized_by_key (num_lib:=Example.numeric)
              (elt_lib:=Example.element)
              Example.out_group Example.out_group
              Example.out_group Example.in_group Example.out_group Example.in_group
              Example.empty_actx (snd first) r eq_refl eq_refl eq_refl)))).
  rewrite (surjective_pairing first) at 1. by rewrite Hfirst.
Defined.

Lemma reference_matrices_failure_caches_nothing_witness :
  reference_mass_matrix (num_lib:=Example.numeric) (elt_lib:=Example.element)
    Example.degenerate_group Example.in_group Example.empty_actx
  = (Raise (ValueError "Singular matrix"), Example.empty_actx).
Proof.
  apply (proj1 (reference_matrices_failure_caches_nothing (num_lib:=Example.numeric)
                  (elt_lib:=Example.element)
                  Example.degenerate_group Example.in_group Example.empty_actx
                  (ValueError "Singular matrix") eq_refl ltac:(vm_compute; reflexivity))).
  reflexivity.
Defined.



Lemma divergence_checks_last_axis_witness :
  let dcoll := Example.collection Example.out_group [] in
  local_div (elt_lib:=Example.element) dcoll
    (ObjArray [2%nat] [Num (Example.q 1); Num (Example.q 2)]) Example.empty_actx
  = (Raise (ValueError "last dimension of *vecs* argument must match ambient dimension"),
     Example.empty_actx).
Proof.
  intros dcoll.
  apply (proj1 (divergence_checks_last_axis (num_lib:=Example.numeric)
                  (elt_lib:=Example.element) dcoll DD_VOLUME [2%nat]
                  [Num (Example.q 1); Num (Example.q 2)] 2 Example.empty_actx
                  eq_refl ltac:(simpl; lia))).
Defined.

Lemma gradient_components_and_divergence_witness :
  let dcoll := Example.constant_jacobian_collection Example.out_group 2 in
  let run := local_grad (elt_lib:=Example.element) dcoll (DOF (Example.field 1 2))
               Example.empty_actx in
  ∃ g, fst run = Ok g
       ∧ local_div (elt_lib:=Example.element) dcoll g (snd run)
         = (Raise (ValueError "last dimension of *vecs* argument must match ambient dimension"),
            snd run).
Proof.
  intros dcoll run.
  destruct (fst run) as [g|err] eqn:Hrun.
  2:{ vm_compute in Hrun. done. }
  exists g. split; [done|].
  assert (Hgrad : run = (Ok g, snd run)).
  { rewrite (surjective_pairing run) at 1. by rewrite Hrun. }
  apply (proj2 (gradient_components_and_divergence (num_lib:=Example.numeric)
                  (elt_lib:=Example.element)
                  dcoll DD_VOLUME (DOF (Example.field 1 2)) g Example.empty_actx (snd run)
                  (or_introl Hgrad))).
  simpl. lia.
Defined.

Lemma face_mass_matrix_accuracy_checks_witness :
  (∃ msg,
     reference_face_mass_matrix (elt_lib:=Example.element)
       (Example.quadrature_face_group 0) Example.out_group float64 Example.empty_actx
     = (Raise (ValueError msg), Example.empty_actx))
  ∧ (∃ matrix actx',
       reference_face_mass_matrix (elt_lib:=Example.element)
         Example.face_group Example.out_group float64 Example.empty_actx
       = (Ok {| obj_id := 0; frozen := true; payload := Array3 matrix |}, actx')
       ∧ length matrix = 2%nat).
Proof.
  split.
  - apply (proj1 (face_mass_matrix_accuracy_checks (elt_lib:=Example.element)
                    (Example.quadrature_face_group 0) Example.out_group float64
                    Example.empty_actx eq_refl eq_refl));
      [reflexivity|simpl; lia|discriminate].
  - destruct (proj2 (face_mass_matrix_accuracy_checks (elt_lib:=Example.element)
                       Example.face_group Example.out_group float64
                       Example.empty_actx eq_refl eq_refl) eq_refl
                (λ _ degree, le_n degree)) as (matrix & actx' & Hrun & Hlen & _).
    exists matrix, actx'. by split.
Defined.

Lemma cross_rank_trace_pairs_of_numbers_witness :
  let dcoll := Example.collection Example.out_group [1%nat; 2%nat] in
  let ary := ObjArray [2%nat] [Num (Example.q 1); Num (Example.q 2)] in
  cross_rank_trace_pairs dcoll ary (Some 5%Z) Example.quiet
  = (Ok [local_pair ary 1; local_pair ary 2], Example.quiet).
Proof.
  intros dcoll ary.
  apply (proj2 (cross_rank_trace_pairs_of_numbers dcoll [2%nat]
                  [Num (Example.q 1); Num (Example.q 2)] (Example.q 0) (Some 5%Z)
                  Example.quiet
                  ltac:(repeat constructor; by eexists))).
Defined.


Lemma interior_trace_pair_keeps_numbers_and_shape_witness :
  let dcoll := Example.collection Example.out_group [] in
  let items := [Num (Example.q 1); DOF (Example.field 1 2)] in
  ∃ tp, interior_trace_pair dcoll Ok (ObjArray [2%nat] items) = Ok tp
        ∧ ∃ ints exts,
            interior tp = ObjArray [2%nat] ints ∧ exterior tp = ObjArray [2%nat] exts
            ∧ length ints = length items ∧ length exts = length items
            ∧ ∀ k x, items !! k = Some (Num x) →
                ints !! k = Some (Num x) ∧ exts !! k = Some (Num x).
Proof.
  intros dcoll items.
  destruct (proj2 (proj2 (interior_trace_pair_keeps_numbers_and_shape dcoll Ok))
              (λ el, ex_intro _ el eq_refl) (ObjArray [2%nat] items)) as [tp Htp].
  exists tp. split; [exact Htp|].
  exact (proj1 (proj2 (interior_trace_pair_keeps_numbers_and_shape dcoll Ok))
           [2%nat] items tp Htp).
Defined.
